(** * Resilient state sync over UDP: the CRDT register store and the
      reliable-datagram transport

    A shallow embedding of [crdt_state.py] (class [CRDTState]) and of
    [reliable_udp.py] (classes [ReliableUDPPacket] and [ReliableUDPSocket]),
    followed by the properties of the merge, of the wire format, of the
    receive path and of the retransmission scan.

    Modelling choices.
    - A Python [dict] is a [gmap]; [dict.items()] is [map_to_list], a
      duplicate-free enumeration of the entries.  The loops of the merge
      touch, at each entry, only the cells of that entry's key, and
      [merge_remote_items_perm] shows that the order of the enumeration
      is immaterial.
    - A timestamp is a reading of [time.time()], a float that is never
      a NaN.  The store only compares timestamps ([>] and [==]); they are
      modelled as integers [Z], a total order as the floats without NaN
      are.  The transport subtracts clock readings and compares the
      difference with a timeout; there clock readings are rationals [Q].
    - Origins and keys are [string]s; Python compares [str] values
      lexicographically by code point, which is [String.compare].
    - [threading.RLock] sections are atomic: every method of [CRDTState]
      is a function from state to state. *)

From Stdlib Require Import ZArith QArith Qminmax Lia Bool.
From Stdlib Require Orders OrdersTac DecimalString.
From Stdlib.Strings Require Import Ascii String Byte.
From stdpp Require Import gmap strings list fin_maps.

Local Open Scope Z_scope.

(** ** Part I.  [crdt_state.py] *)

(** [node_id > local_node] on Python strings. *)
Definition str_gt (a b : string) : bool := String.ltb b a.

(** The comparison written four times in [merge_remote_state]:
    [timestamp > local_ts or (timestamp == local_ts and node_id > local_node)]. *)
Definition newer (timestamp : Z) (node_id : string)
                 (local_ts : Z) (local_node : string) : bool :=
  (timestamp >? local_ts) || ((timestamp =? local_ts) && str_gt node_id local_node).

(** The order of the merge on [(timestamp, node_id)] pairs:
    [stamp_lt a b] when [b] is [newer] than [a]. *)
Definition stamp_lt (a b : Z * string) : Prop :=
  newer b.1 b.2 a.1 a.2 = true.

Definition stamp_le (a b : Z * string) : Prop := stamp_lt a b \/ a = b.

Module Stamp <: Orders.EqLtLe.
Definition t : Type := Z * string.
Definition eq : t -> t -> Prop := @Logic.eq t.
Definition lt : t -> t -> Prop := stamp_lt.
Definition le : t -> t -> Prop := stamp_le.
End Stamp.

Section CRDT.

(** The opaque values stored in the registers. *)
Context {V : Type}.

(** The store: [data] holds the live registers
    [(value, timestamp, node_id)], [tombstones] the pairs
    [(timestamp, node_id)] of the deletions. *)
Record CRDTState : Type := mkCRDTState {
  node_id : string;
  data : gmap string (V * Z * string);
  vector_clock : gmap string Z;
  tombstones : gmap string (Z * string);
  version : Z
}.

Definition set_data (f : gmap string (V * Z * string) -> gmap string (V * Z * string))
    (st : CRDTState) : CRDTState :=
  mkCRDTState (node_id st) (f (data st)) (vector_clock st) (tombstones st) (version st).

Definition set_tombstones (f : gmap string (Z * string) -> gmap string (Z * string))
    (st : CRDTState) : CRDTState :=
  mkCRDTState (node_id st) (data st) (vector_clock st) (f (tombstones st)) (version st).

Definition set_vector_clock (f : gmap string Z -> gmap string Z)
    (st : CRDTState) : CRDTState :=
  mkCRDTState (node_id st) (data st) (f (vector_clock st)) (tombstones st) (version st).

Definition set_version (f : Z -> Z) (st : CRDTState) : CRDTState :=
  mkCRDTState (node_id st) (data st) (vector_clock st) (tombstones st) (f (version st)).

(** [CRDTState.__init__] *)
Definition init (nid : string) : CRDTState := mkCRDTState nid ∅ ∅ ∅ 0.

(** [self.vector_clock[n]] on a [defaultdict(int)]: a read of a missing
    key stores the default [0] under it. *)
Definition vc_read (n : string) (vc : gmap string Z) : Z * gmap string Z :=
  match vc !! n with
  | Some c => (c, vc)
  | None => (0, <[n := 0]> vc)
  end.

(** [self.vector_clock[self.node_id] += 1] *)
Definition vc_bump (n : string) (vc : gmap string Z) : gmap string Z :=
  let '(c, vc0) := vc_read n vc in <[n := c + 1]> vc0.

(** [CRDTState.set]; [timestamp] is the reading of [time.time()]. *)
Definition set (key : string) (value : V) (timestamp : Z) (st : CRDTState) : CRDTState :=
  let st := set_data (insert key (value, timestamp, node_id st)) st in
  let st := set_vector_clock (vc_bump (node_id st)) st in
  let st := set_version (fun v => v + 1) st in
  if decide (key ∈ dom (tombstones st))
  then set_tombstones (base.delete key) st
  else st.

(** [CRDTState.get] *)
Definition get (key : string) (st : CRDTState) : option V :=
  if decide (key ∈ dom (tombstones st)) then None
  else match data st !! key with
       | Some (value, _, _) => Some value
       | None => None
       end.

(** [CRDTState.delete] *)
Definition delete (key : string) (timestamp : Z) (st : CRDTState) : CRDTState :=
  let st := set_tombstones (insert key (timestamp, node_id st)) st in
  let st := set_vector_clock (vc_bump (node_id st)) st in
  set_version (fun v => v + 1) st.

(** One iteration of the first loop of [merge_remote_state],
    [for key, (value, timestamp, node_id) in remote_data.items()].
    The accumulator is the state together with the flag [modified]. *)
Definition data_should_update (st : CRDTState) (key : string)
    (timestamp : Z) (nid : string) : bool :=
  let should_update :=
    match data st !! key with
    | Some (local_value, local_ts, local_node) =>
        if newer timestamp nid local_ts local_node then true else false
    | None => true
    end in
  match tombstones st !! key with
  | Some (tomb_ts, tomb_node) =>
      if newer tomb_ts tomb_node timestamp nid then false else should_update
  | None => should_update
  end.

Definition merge_data_step (acc : CRDTState * bool)
    (item : string * (V * Z * string)) : CRDTState * bool :=
  let '(st, modified) := acc in
  let '(key, (value, timestamp, nid)) := item in
  if data_should_update st key timestamp nid
  then (set_data (insert key (value, timestamp, nid)) st, true)
  else (st, modified).

(** One iteration of the second loop,
    [for key, (timestamp, node_id) in remote_tombstones.items()]. *)
Definition tomb_should_update (st : CRDTState) (key : string)
    (timestamp : Z) (nid : string) : bool :=
  match tombstones st !! key with
  | Some (local_ts, local_node) =>
      if newer timestamp nid local_ts local_node then true else false
  | None => true
  end.

Definition merge_tomb_step (acc : CRDTState * bool)
    (item : string * (Z * string)) : CRDTState * bool :=
  let '(st, modified) := acc in
  let '(key, (timestamp, nid)) := item in
  if tomb_should_update st key timestamp nid
  then
    let st := set_tombstones (insert key (timestamp, nid)) st in
    let st :=
      match data st !! key with
      | Some (_, data_ts, data_node) =>
          if newer timestamp nid data_ts data_node
          then set_data (base.delete key) st
          else st
      | None => st
      end in
    (st, true)
  else (st, modified).

(** One iteration of the third loop,
    [for node, seq in remote_vector_clock.items()]. *)
Definition merge_vc_step (vc : gmap string Z) (item : string * Z) : gmap string Z :=
  let '(node, seq) := item in
  let '(cur, vc0) := vc_read node vc in
  if seq >? cur then <[node := seq]> vc0 else vc0.

Definition merge_data_loop (acc : CRDTState * bool)
    (items : list (string * (V * Z * string))) : CRDTState * bool :=
  foldl merge_data_step acc items.

Definition merge_tomb_loop (acc : CRDTState * bool)
    (items : list (string * (Z * string))) : CRDTState * bool :=
  foldl merge_tomb_step acc items.

Definition merge_vc_loop (vc : gmap string Z) (items : list (string * Z)) : gmap string Z :=
  foldl merge_vc_step vc items.

(** The body of [merge_remote_state] over the three enumerations
    [remote_data.items()], [remote_tombstones.items()] and
    [remote_vector_clock.items()]: the new state and the returned
    [modified]. *)
Definition merge_remote_items (st : CRDTState)
    (data_items : list (string * (V * Z * string)))
    (tomb_items : list (string * (Z * string)))
    (vc_items : list (string * Z)) : CRDTState * bool :=
  let acc := (st, false) in
  let acc := merge_data_loop acc data_items in
  let '(st, modified) := merge_tomb_loop acc tomb_items in
  let st := set_vector_clock (fun vc => merge_vc_loop vc vc_items) st in
  if modified then (set_version (fun v => v + 1) st, true) else (st, false).

(** [CRDTState.merge_remote_state] *)
Definition merge_remote_state (st : CRDTState)
    (remote_data : gmap string (V * Z * string))
    (remote_tombstones : gmap string (Z * string))
    (remote_vector_clock : gmap string Z) : CRDTState * bool :=
  merge_remote_items st (map_to_list remote_data) (map_to_list remote_tombstones)
                     (map_to_list remote_vector_clock).

(** [CRDTState.get_keys] *)
Definition get_keys (st : CRDTState) : gset string :=
  dom (data st) ∖ dom (tombstones st).

(** A snapshot as [merge_remote_state] takes it:
    [(remote_data, remote_tombstones, remote_vector_clock)]. *)
Definition snapshot : Type :=
  gmap string (V * Z * string) * gmap string (Z * string) * gmap string Z.

(** [CRDTState.get_state_snapshot], restricted to the three maps the merge reads. *)
Definition get_state_snapshot (st : CRDTState) : snapshot :=
  (data st, tombstones st, vector_clock st).

Definition merge (st : CRDTState) (s : snapshot) : CRDTState * bool :=
  let '(rd, rt, rvc) := s in merge_remote_state st rd rt rvc.

(** The operations a store undergoes, for statements over sequences. *)
Inductive op : Type :=
  | OpSet (key : string) (value : V) (timestamp : Z)
  | OpDelete (key : string) (timestamp : Z)
  | OpMerge (s : snapshot).

Definition apply_op (st : CRDTState) (o : op) : CRDTState :=
  match o with
  | OpSet k v ts => set k v ts st
  | OpDelete k ts => delete k ts st
  | OpMerge s => (merge st s).1
  end.

Definition run (ops : list op) (st : CRDTState) : CRDTState :=
  foldl apply_op st ops.

(** *** The merge seen at one key

    Every iteration of the three loops reads and writes the cells of its
    own key only.  The functions below give what the loops do to the
    cell [(data[k], tombstones[k])] and to [vector_clock[n]] when the
    remote map holds [r] under that key ([None]: the key is absent). *)

Definition cell_data_should_update (d : option (V * Z * string))
    (t : option (Z * string)) (timestamp : Z) (nid : string) : bool :=
  let should_update :=
    match d with
    | Some (_, local_ts, local_node) => newer timestamp nid local_ts local_node
    | None => true
    end in
  match t with
  | Some (tomb_ts, tomb_node) =>
      if newer tomb_ts tomb_node timestamp nid then false else should_update
  | None => should_update
  end.

Definition data_cell (d : option (V * Z * string)) (t : option (Z * string))
    (r : option (V * Z * string)) : option (V * Z * string) :=
  match r with
  | Some (value, timestamp, nid) =>
      if cell_data_should_update d t timestamp nid
      then Some (value, timestamp, nid) else d
  | None => d
  end.

Definition cell_tomb_should_update (t : option (Z * string))
    (timestamp : Z) (nid : string) : bool :=
  match t with
  | Some (local_ts, local_node) => newer timestamp nid local_ts local_node
  | None => true
  end.

Definition tomb_cell (d : option (V * Z * string)) (t : option (Z * string))
    (r : option (Z * string)) : option (V * Z * string) * option (Z * string) :=
  match r with
  | Some (timestamp, nid) =>
      if cell_tomb_should_update t timestamp nid
      then (match d with
            | Some (_, data_ts, data_node) =>
                if newer timestamp nid data_ts data_node then None else d
            | None => None
            end, Some (timestamp, nid))
      else (d, t)
  | None => (d, t)
  end.

Definition vc_cell (c : option Z) (r : option Z) : option Z :=
  match r with
  | Some seq =>
      let cur := default 0 c in
      if seq >? cur then Some seq else Some cur
  | None => c
  end.

(** Both loops, in the order of [merge_remote_state]. *)
Definition merge_cell (d : option (V * Z * string)) (t : option (Z * string))
    (rd : option (V * Z * string)) (rt : option (Z * string))
    : option (V * Z * string) * option (Z * string) :=
  tomb_cell (data_cell d t rd) t rt.

(** Two registers for one key that carry the same
    [(timestamp, node_id)] carry the same value. *)
Definition same_stamp_same_value (rd1 rd2 : option (V * Z * string)) : Prop :=
  forall v1 v2 ts n, rd1 = Some (v1, ts, n) -> rd2 = Some (v2, ts, n) -> v1 = v2.

(** No key under which two remote maps hold registers that differ in
    their values only. *)
Definition agree_on_ties (rd1 rd2 : gmap string (V * Z * string)) : Prop :=
  forall k, same_stamp_same_value (rd1 !! k) (rd2 !! k).

End CRDT.

Arguments CRDTState : clear implicits.
Arguments snapshot : clear implicits.
Arguments op : clear implicits.

(** *** Scenarios

    Two replicas [A] and [B] holding string values.  [B] only ever merges
    the snapshots of [A]. *)

Local Open Scope string_scope.

(** [A.set("k","v1")] at 1.0, [A.delete("k")] at 2.0, [A.set("k","v2")]
    at 3.0; [B] merges after each of the three. *)
Definition A1 : CRDTState string := set "k" "v1" 1 (init "A").
Definition B1 : CRDTState string := (merge (init "B") (get_state_snapshot A1)).1.
Definition A2 : CRDTState string := delete "k" 2 A1.
Definition B2 : CRDTState string := (merge B1 (get_state_snapshot A2)).1.
Definition A3 : CRDTState string := set "k" "v2" 3 A2.
Definition B3 : CRDTState string := (merge B2 (get_state_snapshot A3)).1.

(** The lone tombstone [(2.0, "A")] and the lone register
    [("v2", 3.0, "A")] that [B] receives in the last two merges. *)
Definition tomb_k_2 : snapshot string := (∅, {["k" := (2, "A")]}, ∅).
Definition live_k_3 : snapshot string := ({["k" := ("v2", 3, "A")]}, ∅, ∅).



(** A replica holding the tombstone [(2.0, "A")] for ["k"] and no register. *)
Definition B_tomb : CRDTState string :=
  mkCRDTState "B" ∅ ∅ {["k" := (2, "A")]} 1.

Local Close Scope string_scope.

(** ** Part II.  [reliable_udp.py] *)

(** *** Bytes *)

Definition Z_of_byte (b : byte) : Z := Z.of_N (Byte.to_N b).

Definition byte_of_Z (z : Z) : byte := default x00 (Byte.of_N (Z.to_N z)).

(** [len(b)], [b[:n]] and [b[n:]] for [n >= 0]. *)
Definition len {A : Type} (b : list A) : Z := Z.of_nat (length b).
Definition slice_to {A : Type} (n : Z) (b : list A) : list A := take (Z.to_nat n) b.
Definition slice_from {A : Type} (n : Z) (b : list A) : list A := drop (Z.to_nat n) b.

(** [str.encode('utf-8')] on a string held as its UTF-8 bytes. *)
Definition encode_utf8 (s : string) : list byte := list_byte_of_string s.

(** *** [hashlib.md5] (RFC 1321) *)

Module MD5.

Definition K : list Z :=
  [ 0xd76aa478; 0xe8c7b756; 0x242070db; 0xc1bdceee;
    0xf57c0faf; 0x4787c62a; 0xa8304613; 0xfd469501;
    0x698098d8; 0x8b44f7af; 0xffff5bb1; 0x895cd7be;
    0x6b901122; 0xfd987193; 0xa679438e; 0x49b40821;
    0xf61e2562; 0xc040b340; 0x265e5a51; 0xe9b6c7aa;
    0xd62f105d; 0x02441453; 0xd8a1e681; 0xe7d3fbc8;
    0x21e1cde6; 0xc33707d6; 0xf4d50d87; 0x455a14ed;
    0xa9e3e905; 0xfcefa3f8; 0x676f02d9; 0x8d2a4c8a;
    0xfffa3942; 0x8771f681; 0x6d9d6122; 0xfde5380c;
    0xa4beea44; 0x4bdecfa9; 0xf6bb4b60; 0xbebfbc70;
    0x289b7ec6; 0xeaa127fa; 0xd4ef3085; 0x04881d05;
    0xd9d4d039; 0xe6db99e5; 0x1fa27cf8; 0xc4ac5665;
    0xf4292244; 0x432aff97; 0xab9423a7; 0xfc93a039;
    0x655b59c3; 0x8f0ccc92; 0xffeff47d; 0x85845dd1;
    0x6fa87e4f; 0xfe2ce6e0; 0xa3014314; 0x4e0811a1;
    0xf7537e82; 0xbd3af235; 0x2ad7d2bb; 0xeb86d391 ].

Definition S : list Z :=
  [ 7; 12; 17; 22; 7; 12; 17; 22; 7; 12; 17; 22; 7; 12; 17; 22;
    5; 9; 14; 20; 5; 9; 14; 20; 5; 9; 14; 20; 5; 9; 14; 20;
    4; 11; 16; 23; 4; 11; 16; 23; 4; 11; 16; 23; 4; 11; 16; 23;
    6; 10; 15; 21; 6; 10; 15; 21; 6; 10; 15; 21; 6; 10; 15; 21 ].

Definition mask32 : Z := 0xffffffff.
Definition add32 (a b : Z) : Z := Z.land (a + b) mask32.
Definition not32 (a : Z) : Z := Z.lxor a mask32.
Definition rotl32 (x c : Z) : Z :=
  Z.land (Z.lor (Z.shiftl x c) (Z.shiftr x (32 - c))) mask32.

(** One of the 64 operations on the working state [(A, B, C, D)] with the
    sixteen words [M] of the block. *)
Definition step (M : list Z) (st : Z * Z * Z * Z) (i : nat) : Z * Z * Z * Z :=
  let '(A, B, C, D) := st in
  let iz := Z.of_nat i in
  let '(F, g) :=
    if iz <? 16 then (Z.lor (Z.land B C) (Z.land (not32 B) D), iz)
    else if iz <? 32 then (Z.lor (Z.land D B) (Z.land (not32 D) C), (5 * iz + 1) mod 16)
    else if iz <? 48 then (Z.lxor (Z.lxor B C) D, (3 * iz + 5) mod 16)
    else (Z.lxor C (Z.lor B (not32 D)), (7 * iz) mod 16) in
  let F := add32 (add32 (add32 F A) (nth i K 0)) (nth (Z.to_nat g) M 0) in
  (D, add32 B (rotl32 F (nth i S 0)), B, C).

Definition block (M : list Z) (h : Z * Z * Z * Z) : Z * Z * Z * Z :=
  let '(a0, b0, c0, d0) := h in
  let '(A, B, C, D) := foldl (step M) h (seq 0 64) in
  (add32 a0 A, add32 b0 B, add32 c0 C, add32 d0 D).

(** Little-endian 32-bit words of a byte sequence. *)
Fixpoint words (l : list Z) : list Z :=
  match l with
  | a :: b :: c :: d :: r =>
      (a + Z.shiftl b 8 + Z.shiftl c 16 + Z.shiftl d 24) :: words r
  | _ => []
  end.

Definition le_bytes (n : nat) (x : Z) : list Z :=
  map (fun i => Z.land (Z.shiftr x (8 * Z.of_nat i)) 255) (seq 0 n).

(** The message, a [0x80] byte, zeros up to 56 modulo 64, and the length
    in bits on 64 bits. *)
Definition pad (msg : list Z) : list Z :=
  let len := Z.of_nat (length msg) in
  msg ++ [128] ++ repeat 0 (Z.to_nat ((55 - len) mod 64))
      ++ le_bytes 8 (Z.land (8 * len) 0xffffffffffffffff).

Fixpoint blocks (fuel : nat) (ws : list Z) (h : Z * Z * Z * Z) : Z * Z * Z * Z :=
  match fuel with
  | O => h
  | Datatypes.S fuel =>
      match ws with
      | [] => h
      | _ => blocks fuel (drop 16 ws) (block (take 16 ws) h)
      end
  end.

Definition h0 : Z * Z * Z * Z := (0x67452301, 0xefcdab89, 0x98badcfe, 0x10325476).

(** [hashlib.md5(data).digest()] *)
Definition digest (data : list byte) : list byte :=
  let ws := words (pad (map Z_of_byte data)) in
  let '(a, b, c, d) := blocks (length ws) ws h0 in
  map byte_of_Z (le_bytes 4 a ++ le_bytes 4 b ++ le_bytes 4 c ++ le_bytes 4 d).

Definition hex_digit (n : Z) : ascii :=
  nth (Z.to_nat n) (list_ascii_of_string "0123456789abcdef") "0"%char.

(** [hashlib.md5(data).hexdigest()] *)
Definition hexdigest (data : list byte) : string :=
  string_of_list_ascii
    (flat_map (fun b => [hex_digit (Z_of_byte b / 16); hex_digit (Z_of_byte b mod 16)])
              (digest data)).

End MD5.

(** [int(s, 16)] on a string of hexadecimal digits. *)
Definition hex_value (c : ascii) : Z :=
  let n := Z.of_N (N_of_ascii c) in
  if (48 <=? n) && (n <=? 57) then n - 48
  else if (97 <=? n) && (n <=? 102) then n - 87
  else if (65 <=? n) && (n <=? 70) then n - 55
  else 0.

Definition int_base16 (s : string) : Z :=
  foldl (fun acc c => 16 * acc + hex_value c) 0 (list_ascii_of_string s).

(** *** [struct.pack('!BBII', ...)] and [struct.unpack] *)

Definition be32 (n : Z) : list byte :=
  [ byte_of_Z (Z.land (Z.shiftr n 24) 255); byte_of_Z (Z.land (Z.shiftr n 16) 255);
    byte_of_Z (Z.land (Z.shiftr n 8) 255); byte_of_Z (Z.land n 255) ].

Definition of_be32 (b3 b2 b1 b0 : byte) : Z :=
  Z.shiftl (Z_of_byte b3) 24 + Z.shiftl (Z_of_byte b2) 16
  + Z.shiftl (Z_of_byte b1) 8 + Z_of_byte b0.

Definition fits_B (n : Z) : bool := (0 <=? n) && (n <=? 255).
Definition fits_I (n : Z) : bool := (0 <=? n) && (n <=? 4294967295).

(** [None]: [struct.error], an argument out of the range of its field. *)
Definition pack_BBII (a b c d : Z) : option (list byte) :=
  if fits_B a && fits_B b && fits_I c && fits_I d
  then Some ([byte_of_Z a; byte_of_Z b] ++ be32 c ++ be32 d)
  else None.

(** [None]: [struct.error], the buffer is not of 10 bytes. *)
Definition unpack_BBII (h : list byte) : option (Z * Z * Z * Z) :=
  match h with
  | [a; b; c3; c2; c1; c0; d3; d2; d1; d0] =>
      Some (Z_of_byte a, Z_of_byte b, of_be32 c3 c2 c1 c0, of_be32 d3 d2 d1 d0)
  | _ => None
  end.

(** *** [PacketType] and [ReliableUDPPacket] *)

Module PacketType.
Definition DATA : Z := 0.
Definition ACK : Z := 1.
Definition SYNC_REQUEST : Z := 2.
Definition SYNC_RESPONSE : Z := 3.
Definition DISCOVERY : Z := 5.
End PacketType.

Definition VERSION : Z := 1.
Definition HEADER_SIZE : Z := 10.
Definition MAX_PAYLOAD_SIZE : Z := 65507 - HEADER_SIZE.

(** [ReliableUDPPacket._calculate_checksum]:
    [int(hashlib.md5(data).hexdigest()[:8], 16)] *)
Definition _calculate_checksum (data : list byte) : Z :=
  int_base16 (substring 0 8 (MD5.hexdigest data)).

(** The payloads and the part of [json] the transport uses.
    [json_dumps p] is [json.dumps(p).encode('utf-8')]; [json_loads b] is
    [json.loads(b.decode('utf-8'))], [None] when either raises;
    [ack_payload n] is the dict [{'ack': n}]; [payload_ack p] is the
    sequence number [p.get('ack')], if [p] names one. *)
Class JsonCodec (P : Type) : Type := {
  json_dumps : P -> list byte;
  json_loads : list byte -> option P;
  ack_payload : Z -> P;
  payload_ack : P -> option Z
}.

(** The return statement at which [deserialize] gives up, each with its
    own log line (none for the first). *)
Inductive drop_site : Type :=
  | TooShort
  | UnknownVersion (version : Z)
  | ChecksumMismatch
  | DeserializationError.

Section Packet.

Context {P : Type} `{JsonCodec P}.

Record ReliableUDPPacket : Type := mkPacket {
  packet_type : Z;
  seq_num : Z;
  payload : P;
  timestamp : Q
}.

(** [ReliableUDPPacket.serialize]; [None] when [struct.pack] raises. *)
Definition serialize (p : ReliableUDPPacket) : option (list byte) :=
  let payload_bytes := json_dumps (payload p) in
  let payload_bytes :=
    if len payload_bytes >? MAX_PAYLOAD_SIZE
    then slice_to MAX_PAYLOAD_SIZE payload_bytes
    else payload_bytes in
  let checksum := _calculate_checksum payload_bytes in
  match pack_BBII VERSION (packet_type p) (seq_num p) checksum with
  | Some header => Some (header ++ payload_bytes)
  | None => None
  end.

(** [ReliableUDPPacket.deserialize], with the place of each [return None];
    [now] is the receiver's clock, the [timestamp] of the new packet. *)
Definition deserialize_at (now : Q) (data : list byte) : ReliableUDPPacket + drop_site :=
  if len data <? HEADER_SIZE then inr TooShort
  else
    match unpack_BBII (slice_to HEADER_SIZE data) with
    | None => inr DeserializationError
    | Some (version, pkt_type, seq_num, checksum) =>
        if negb (version =? VERSION) then inr (UnknownVersion version)
        else
          let payload_bytes := slice_from HEADER_SIZE data in
          if negb (_calculate_checksum payload_bytes =? checksum)
          then inr ChecksumMismatch
          else
            match json_loads payload_bytes with
            | Some payload => inl (mkPacket pkt_type seq_num payload now)
            | None => inr DeserializationError
            end
    end.

(** The comparison [cls._calculate_checksum(payload_bytes) != checksum] of
    [deserialize], on a datagram of at least [HEADER_SIZE] bytes:
    [true] when the two are equal. *)
Definition checksum_matches (data : list byte) : bool :=
  match unpack_BBII (slice_to HEADER_SIZE data) with
  | Some (_, _, _, checksum) =>
      _calculate_checksum (slice_from HEADER_SIZE data) =? checksum
  | None => false
  end.

(** What the caller of [deserialize] sees. *)
Definition deserialize (now : Q) (data : list byte) : option ReliableUDPPacket :=
  match deserialize_at now data with
  | inl packet => Some packet
  | inr _ => None
  end.

End Packet.

Arguments ReliableUDPPacket P : clear implicits.

(** *** A codec for flat dictionaries

    The instance of [JsonCodec] used where a statement is evaluated on a
    datagram: dictionaries from strings to integers and strings, such as
    [{'ack': 42}] and [{'test': 'data'}].  [flat_dumps] writes what
    [json.dumps] writes for them when keys and string values are made of
    printable ASCII characters other than the quote and the backslash;
    [flat_loads] reads those texts back. *)

Inductive jvalue : Type :=
  | JInt (n : Z)
  | JStr (s : string).

Definition dquote : ascii := "034"%char.

Definition quoted (s : string) : string :=
  String dquote (s ++ String dquote EmptyString).

Definition dumps_value (v : jvalue) : string :=
  match v with
  | JInt n => DecimalString.NilZero.string_of_int (Z.to_int n)
  | JStr s => quoted s
  end.

Fixpoint dumps_members (l : list (string * jvalue)) : string :=
  match l with
  | [] => ""
  | [(k, v)] => quoted k ++ ": " ++ dumps_value v
  | (k, v) :: l => quoted k ++ ": " ++ dumps_value v ++ ", " ++ dumps_members l
  end.

Definition flat_dumps (p : list (string * jvalue)) : list byte :=
  encode_utf8 ("{" ++ dumps_members p ++ "}").

Fixpoint skip_ws (l : list ascii) : list ascii :=
  match l with
  | " "%char :: l => skip_ws l
  | _ => l
  end.

(** The characters up to the closing quote, and what follows it. *)
Fixpoint read_string (l : list ascii) : option (string * list ascii) :=
  match l with
  | [] => None
  | c :: l =>
      if Ascii.eqb c dquote then Some (EmptyString, l)
      else if Ascii.eqb c "\"%char then None
      else match read_string l with
           | Some (s, rest) => Some (String c s, rest)
           | None => None
           end
  end.

Definition is_int_char (c : ascii) : bool :=
  Ascii.eqb c "-"%char
  || ((48 <=? Z.of_N (N_of_ascii c)) && (Z.of_N (N_of_ascii c) <=? 57)).

Fixpoint span_int (l : list ascii) : list ascii * list ascii :=
  match l with
  | c :: l' =>
      if is_int_char c
      then let '(ds, rest) := span_int l' in (c :: ds, rest)
      else ([], l)
  | [] => ([], [])
  end.

Definition read_value (l : list ascii) : option (jvalue * list ascii) :=
  match l with
  | c :: l' =>
      if Ascii.eqb c dquote
      then match read_string l' with
           | Some (s, rest) => Some (JStr s, rest)
           | None => None
           end
      else
        let '(ds, rest) := span_int l in
        match DecimalString.NilZero.int_of_string (string_of_list_ascii ds) with
        | Some d => Some (JInt (Z.of_int d), rest)
        | None => None
        end
  | [] => None
  end.

Fixpoint read_members (fuel : nat) (l : list ascii) (acc : list (string * jvalue))
    : option (list (string * jvalue)) :=
  match fuel with
  | O => None
  | Datatypes.S fuel =>
      match skip_ws l with
      | c :: l1 =>
          if Ascii.eqb c dquote then
            match read_string l1 with
            | Some (k, l2) =>
                match skip_ws l2 with
                | ":"%char :: l3 =>
                    match read_value (skip_ws l3) with
                    | Some (v, l4) =>
                        match skip_ws l4 with
                        | ","%char :: l5 => read_members fuel l5 (acc ++ [(k, v)])
                        | "}"%char :: l5 =>
                            match skip_ws l5 with
                            | [] => Some (acc ++ [(k, v)])
                            | _ => None
                            end
                        | _ => None
                        end
                    | None => None
                    end
                | _ => None
                end
            | None => None
            end
          else None
      | [] => None
      end
  end.

Definition flat_loads (b : list byte) : option (list (string * jvalue)) :=
  match skip_ws (list_ascii_of_string (string_of_list_byte b)) with
  | "{"%char :: l1 =>
      match skip_ws l1 with
      | "}"%char :: l2 => match skip_ws l2 with [] => Some [] | _ => None end
      | _ => read_members (length l1) l1 []
      end
  | _ => None
  end.

(** [p.get(key)]; of two bindings of a key the later one counts. *)
Fixpoint flat_get (key : string) (p : list (string * jvalue)) : option jvalue :=
  match p with
  | [] => None
  | (k, v) :: p =>
      match flat_get key p with
      | Some v' => Some v'
      | None => if String.eqb k key then Some v else None
      end
  end.

#[export] Instance flat_codec : JsonCodec (list (string * jvalue)) := {
  json_dumps := flat_dumps;
  json_loads := flat_loads;
  ack_payload n := [("ack"%string, JInt n)];
  payload_ack p :=
    match flat_get "ack" p with
    | Some (JInt n) => Some n
    | _ => None
    end
}.

(** The packet of [test_udp_packet]:
    [ReliableUDPPacket(PacketType.DATA, seq_num=42, payload={'test': 'data'})]. *)
Definition test_packet : ReliableUDPPacket (list (string * jvalue)) :=
  mkPacket PacketType.DATA 42 [("test"%string, JStr "data")] 0%Q.


(** *** [ReliableUDPSocket]

    The socket calls are effects: [self.socket.sendto(data, addr)] and the
    call [handler(packet.payload, addr)] of a registered handler are
    recorded as events, in order.  [sendto] is taken not to raise.  A
    handler is known by the packet type it is registered for; what it
    raises is caught where it is called.  The readings of [time.time()]
    within one call are taken to be one reading. *)

Definition address : Type := string * Z.

Definition MAX_RETRIES : Z := 5.
Definition INITIAL_TIMEOUT : Q := 0.5.
Definition MAX_TIMEOUT : Q := 8.

(** [a > b] on clock readings. *)
Definition Qgt_bool (a b : Q) : bool := negb (Qle_bool a b).

Section Socket.

Context {P : Type} `{JsonCodec P}.

Inductive event : Type :=
  | SendTo (data : list byte) (addr : address)
  | Dispatch (packet : ReliableUDPPacket P) (addr : address).

Record ReliableUDPSocket : Type := mkSocket {
  send_seq : Z;
  pending_acks : gmap Z (ReliableUDPPacket P * Q * Z * address);
  received_seqs : gmap address (gset Z);
  handlers : gset Z
}.

Definition set_pending_acks
    (f : gmap Z (ReliableUDPPacket P * Q * Z * address)
         -> gmap Z (ReliableUDPPacket P * Q * Z * address))
    (sock : ReliableUDPSocket) : ReliableUDPSocket :=
  mkSocket (send_seq sock) (f (pending_acks sock)) (received_seqs sock) (handlers sock).

Definition set_received_seqs
    (f : gmap address (gset Z) -> gmap address (gset Z))
    (sock : ReliableUDPSocket) : ReliableUDPSocket :=
  mkSocket (send_seq sock) (pending_acks sock) (f (received_seqs sock)) (handlers sock).

(** [ReliableUDPSocket.__init__], the socket apart. *)
Definition new_socket : ReliableUDPSocket := mkSocket 0 ∅ ∅ ∅.

(** [register_handler] *)
Definition register_handler (ptype : Z) (sock : ReliableUDPSocket) : ReliableUDPSocket :=
  mkSocket (send_seq sock) (pending_acks sock) (received_seqs sock)
           ({[ptype]} ∪ handlers sock).

(** [send_reliable]: the socket, the events and the returned sequence
    number; [None] when [serialize] raises, after the sequence number
    has been taken. *)
Definition send_reliable (now : Q) (addr : address) (ptype : Z) (pl : P)
    (sock : ReliableUDPSocket) : ReliableUDPSocket * list event * option Z :=
  let seq := send_seq sock in
  let sock := mkSocket (send_seq sock + 1) (pending_acks sock)
                       (received_seqs sock) (handlers sock) in
  let packet := mkPacket ptype seq pl now in
  match serialize packet with
  | None => (sock, [], None)
  | Some data =>
      (set_pending_acks (insert seq (packet, now, 0, addr)) sock,
       [SendTo data addr], Some seq)
  end.

(** [_send_ack]; [None] when [serialize] raises. *)
Definition _send_ack (now : Q) (addr : address) (seq : Z) : option event :=
  match serialize (mkPacket PacketType.ACK seq (ack_payload seq) now) with
  | Some data => Some (SendTo data addr)
  | None => None
  end.

(** [_handle_ack] *)
Definition _handle_ack (sock : ReliableUDPSocket) (packet : ReliableUDPPacket P)
    (addr : address) : ReliableUDPSocket :=
  match payload_ack (payload packet) with
  | None => sock
  | Some ack_seq =>
      if decide (ack_seq ∈ dom (pending_acks sock))
      then set_pending_acks (base.delete ack_seq) sock
      else sock
  end.

(** The sequence numbers already received from [addr]. *)
Definition seen (sock : ReliableUDPSocket) (addr : address) : gset Z :=
  default ∅ (received_seqs sock !! addr).

(** [self.received_seqs[addr]] on a [defaultdict(set)]: the read stores
    an empty set under a new address. *)
Definition seqs_read (addr : address) (m : gmap address (gset Z))
    : gset Z * gmap address (gset Z) :=
  match m !! addr with
  | Some s => (s, m)
  | None => (∅, <[addr := ∅]> m)
  end.

(** The body of the [while] of [_receive_loop] for one datagram
    [(data, addr)] returned by [recvfrom].  An exception raised by
    [_send_ack] ends the iteration where it is raised. *)
Definition receive_one (now : Q) (sock : ReliableUDPSocket)
    (data : list byte) (addr : address) : ReliableUDPSocket * list event :=
  match deserialize now data with
  | None => (sock, [])
  | Some packet =>
      if packet_type packet =? PacketType.ACK
      then (_handle_ack sock packet addr, [])
      else
        let '(seen, m) := seqs_read addr (received_seqs sock) in
        let sock := set_received_seqs (fun _ => m) sock in
        if decide (seq_num packet ∈ seen)
        then
          match _send_ack now addr (seq_num packet) with
          | Some ack => (sock, [ack])
          | None => (sock, [])
          end
        else
          let sock :=
            set_received_seqs (insert addr ({[seq_num packet]} ∪ seen)) sock in
          match _send_ack now addr (seq_num packet) with
          | Some ack =>
              (sock,
               ack :: if decide (packet_type packet ∈ handlers sock)
                      then [Dispatch packet addr] else [])
          | None => (sock, [])
          end
  end.

(** The receive loop over the datagrams that arrive, each with the clock
    reading of its iteration. *)
Definition receive_step (acc : ReliableUDPSocket * list event)
    (arrival : Q * list byte * address) : ReliableUDPSocket * list event :=
  let '(sock, evs) := acc in
  let '(now, data, addr) := arrival in
  let '(sock', evs') := receive_one now sock data addr in
  (sock', evs ++ evs').

Definition receive_loop (sock : ReliableUDPSocket)
    (inbox : list (Q * list byte * address)) : ReliableUDPSocket * list event :=
  foldl receive_step (sock, []) inbox.

(** The number of calls of a handler for a packet [seq] from [addr]. *)
Definition is_dispatch_of (addr : address) (seq : Z) (e : event) : bool :=
  match e with
  | Dispatch packet a => bool_decide (a = addr) && (seq_num packet =? seq)
  | SendTo _ _ => false
  end.

Definition dispatch_count (addr : address) (seq : Z) (evs : list event) : nat :=
  length (List.filter (is_dispatch_of addr seq) evs).

(** The timeout of an entry that has been retried [retries] times:
    [min(self.INITIAL_TIMEOUT * (2 ** retries), self.MAX_TIMEOUT)]. *)
Definition timeout_after (retries : Z) : Q :=
  Qmin (INITIAL_TIMEOUT * inject_Z (2 ^ retries)) MAX_TIMEOUT.

(** [now - send_time > timeout] for an entry sent at [send_time] and
    retried [retries] times. *)
Definition expired (now send_time : Q) (retries : Z) : bool :=
  Qgt_bool (now - send_time) (timeout_after retries).

(** The first loop of a pass of [_retry_loop], under [ack_lock], over
    [list(self.pending_acks.items())]. *)
Definition scan_step (now : Q)
    (acc : gmap Z (ReliableUDPPacket P * Q * Z * address)
           * list (Z * ReliableUDPPacket P * Z * address))
    (item : Z * (ReliableUDPPacket P * Q * Z * address)) :=
  let '(pending, to_retry) := acc in
  let '(seq, (packet, send_time, retries, addr)) := item in
  if expired now send_time retries
  then
    if retries >=? MAX_RETRIES
    then (base.delete seq pending, to_retry)
    else (pending, to_retry ++ [(seq, packet, retries, addr)])
  else (pending, to_retry).

(** The entries the first loop gives up on, and those it hands to the
    second loop. *)
Definition gives_up (now : Q) (e : ReliableUDPPacket P * Q * Z * address) : bool :=
  let '(_, send_time, retries, _) := e in
  expired now send_time retries && (retries >=? MAX_RETRIES).

Definition retries_it (now : Q) (e : ReliableUDPPacket P * Q * Z * address) : bool :=
  let '(_, send_time, retries, _) := e in
  expired now send_time retries && negb (retries >=? MAX_RETRIES).

Definition scan (now : Q) (pending : gmap Z (ReliableUDPPacket P * Q * Z * address)) :=
  foldl (scan_step now) (pending, []) (map_to_list pending).

(** The state of a pass of the second loop: the table, the datagrams
    sent, and whether the thread is still running ([serialize] raising
    ends it, the loop has no handler). *)
Record resend_state : Type := mkResend {
  table : gmap Z (ReliableUDPPacket P * Q * Z * address);
  sent : list event;
  running : bool
}.

(** One iteration of the second loop, outside the lock; [clock seq] is
    the reading of [time.time()] when the entry of [seq] is rewritten. *)
Definition resend_step (clock : Z -> Q) (acc : resend_state)
    (r : Z * ReliableUDPPacket P * Z * address) : resend_state :=
  let '(seq, packet, retries, addr) := r in
  if running acc then
    match serialize packet with
    | None => mkResend (table acc) (sent acc) false
    | Some data =>
        let table' :=
          if decide (seq ∈ dom (table acc))
          then <[seq := (packet, clock seq, retries + 1, addr)]> (table acc)
          else table acc in
        mkResend table' (sent acc ++ [SendTo data addr]) true
    end
  else acc.

(** One pass of [_retry_loop] at the reading [now], no other thread
    running in between. *)
Definition retry_pass (now : Q) (clock : Z -> Q)
    (pending : gmap Z (ReliableUDPPacket P * Q * Z * address)) : resend_state :=
  let '(pending, to_retry) := scan now pending in
  foldl (resend_step clock) (mkResend pending [] true) to_retry.

(** Every packet of the table is one that [serialize] accepts, as
    [send_reliable] leaves the table. *)
Definition serializable
    (pending : gmap Z (ReliableUDPPacket P * Q * Z * address)) : Prop :=
  map_Forall (fun _ e => is_Some (serialize e.1.1.1)) pending.


End Socket.

Arguments event P : clear implicits.
Arguments ReliableUDPSocket P : clear implicits.
Arguments resend_state P : clear implicits.

(** *** A peer, two datagrams and a table of unacknowledged packets *)

Definition peer : address := ("127.0.0.1"%string, 5001).

(** The datagram of [test_packet], and the ACK that answers it. *)
Definition test_datagram : list byte :=
  map byte_of_Z
    [1; 0; 0; 0; 0; 42; 111; 234; 116; 138;
     123; 34; 116; 101; 115; 116; 34; 58; 32; 34; 100; 97; 116; 97; 34; 125].

Definition ack_42 : list byte :=
  map byte_of_Z
    [1; 1; 0; 0; 0; 42; 161; 15; 216; 130;
     123; 34; 97; 99; 107; 34; 58; 32; 52; 50; 125].

(** A socket with a handler registered for [DATA]. *)
Definition listening : ReliableUDPSocket (list (string * jvalue)) :=
  register_handler PacketType.DATA new_socket.

(** Three packets sent to [peer]: the first never retried and sent at
    0 s, the second retried five times and last sent at 0 s, the third
    retried once and last sent at 9.5 s. *)
Definition numbered (n : Z) : ReliableUDPPacket (list (string * jvalue)) :=
  mkPacket PacketType.DATA n [("n"%string, JInt n)] 0%Q.

Definition in_flight
    : gmap Z (ReliableUDPPacket (list (string * jvalue)) * Q * Z * address) :=
  <[0 := (numbered 0, 0%Q, 0, peer)]>
    (<[1 := (numbered 1, 0%Q, 5, peer)]>
       (<[2 := (numbered 2, 9.5%Q, 1, peer)]> ∅)).

(** The clock of the second loop of the pass that starts at 10 s. *)
Definition clock_10 (seq : Z) : Q := 10.1.


(** ** The store as its callers read it ([mesh_node.py]) *)

(** [MeshSyncNode.get_all_data]:
    [{k: v[0] for k, v in snapshot['data'].items() if k not in snapshot['tombstones']}]
    on the snapshot of the store. *)
Definition get_all_data {V : Type} (st : CRDTState V) : gmap string V :=
  (fun r : V * Z * string => r.1.1)
    <$> filter (fun kv : string * (V * Z * string) => kv.1 ∉ dom (tombstones st))
               (data st).

(** [self.vector_clock[n]] read without storing the default. *)
Definition vc_get {V : Type} (n : string) (st : CRDTState V) : Z :=
  default 0 (vector_clock st !! n).

(** What [get] reads in the cell of one key. *)
Definition get_cell {V : Type} (d : option (V * Z * string)) (t : option (Z * string))
    : option V :=
  match t with
  | Some _ => None
  | None => match d with
            | Some (value, _, _) => Some value
            | None => None
            end
  end.


(** ** [reliable_udp.py], continued *)

Section Socket_more.

Context {P : Type} `{JsonCodec P}.

(** [send_unreliable]: the socket and the events; the bool tells whether
    the call returned ([false]: [serialize] raised, after the sequence
    number has been taken). *)
Definition send_unreliable (now : Q) (addr : address) (ptype : Z) (pl : P)
    (sock : ReliableUDPSocket P) : ReliableUDPSocket P * list (event P) * bool :=
  let seq := send_seq sock in
  let sock := mkSocket (send_seq sock + 1) (pending_acks sock)
                       (received_seqs sock) (handlers sock) in
  match serialize (mkPacket ptype seq pl now) with
  | None => (sock, [], false)
  | Some data => (sock, [SendTo data addr], true)
  end.

(** One pass of [_retry_loop] on a socket. *)
Definition retry_socket (now : Q) (clock : Z -> Q) (sock : ReliableUDPSocket P)
    : ReliableUDPSocket P * list (event P) :=
  let res := retry_pass now clock (pending_acks sock) in
  (set_pending_acks (fun _ => table res) sock, sent res).

(** Every sequence number of the table has been handed out already. *)
Definition seq_fresh (sock : ReliableUDPSocket P) : Prop :=
  forall seq, seq ∈ dom (pending_acks sock) -> seq < send_seq sock.

(** No entry of the table has been retried more than [MAX_RETRIES] times. *)
Definition retries_bounded
    (pending : gmap Z (ReliableUDPPacket P * Q * Z * address)) : Prop :=
  map_Forall (fun _ e => 0 <= e.1.2 <= MAX_RETRIES) pending.

Definition sock_inv (sock : ReliableUDPSocket P) : Prop :=
  seq_fresh sock /\ retries_bounded (pending_acks sock)
  /\ serializable (pending_acks sock).

(** The codec reads back the payload [{'ack': seq}] it writes, and the
    payload fits a datagram. *)
Definition ack_codec_ok (seq : Z) : Prop :=
  json_loads (json_dumps (ack_payload seq)) = Some (ack_payload seq)
  /\ payload_ack (ack_payload seq) = Some seq
  /\ len (json_dumps (ack_payload seq)) <= MAX_PAYLOAD_SIZE.

End Socket_more.


(** ** [peer_manager.py]

    Every method of [PeerManager] runs under [self.lock] and is a
    function from manager to manager.  The calls of the callbacks
    [on_peer_discovered] and [on_peer_failed] are events; a callback
    that is not set is not called.  The [PeerInfo] objects of the
    dictionary are never replaced, only updated in place, so that the
    object a loop holds is the one the dictionary holds under its key. *)

Module Peers.

Record PeerInfo : Type := mkPeerInfo {
  node_id : string;
  address : string * Z;
  last_seen : Q;
  last_sync : Q;
  version : Z;
  is_alive : bool;
  failed_pings : Z
}.

(** [PeerInfo.update_seen] *)
Definition update_seen (now : Q) (p : PeerInfo) : PeerInfo :=
  mkPeerInfo (node_id p) (address p) now (last_sync p) (version p) true 0.

(** [PeerInfo.mark_dead] *)
Definition mark_dead (p : PeerInfo) : PeerInfo :=
  mkPeerInfo (node_id p) (address p) (last_seen p) (last_sync p) (version p)
             false (failed_pings p).

(** [PeerInfo.needs_sync] *)
Definition needs_sync (now sync_interval : Q) (p : PeerInfo) : bool :=
  Qgt_bool (now - last_sync p) sync_interval.

Definition set_address (a : string * Z) (p : PeerInfo) : PeerInfo :=
  mkPeerInfo (node_id p) a (last_seen p) (last_sync p) (version p)
             (is_alive p) (failed_pings p).

Definition set_version (v : Z) (p : PeerInfo) : PeerInfo :=
  mkPeerInfo (node_id p) (address p) (last_seen p) (last_sync p) v
             (is_alive p) (failed_pings p).

Definition set_last_sync (t : Q) (p : PeerInfo) : PeerInfo :=
  mkPeerInfo (node_id p) (address p) (last_seen p) t (version p)
             (is_alive p) (failed_pings p).

Definition set_failed_pings (n : Z) (p : PeerInfo) : PeerInfo :=
  mkPeerInfo (node_id p) (address p) (last_seen p) (last_sync p) (version p)
             (is_alive p) n.

Inductive event : Type :=
  | PeerDiscovered (nid : string) (addr : string * Z)
  | PeerFailed (nid : string).

Record PeerManager : Type := mkPeerManager {
  self_id : string;
  heartbeat_interval : Q;
  peer_timeout : Q;
  peers : gmap string PeerInfo;
  bootstrap_peers : gset (string * Z);
  on_peer_discovered : bool;
  on_peer_failed : bool
}.

Definition set_peers (f : gmap string PeerInfo -> gmap string PeerInfo)
    (mgr : PeerManager) : PeerManager :=
  mkPeerManager (self_id mgr) (heartbeat_interval mgr) (peer_timeout mgr)
                (f (peers mgr)) (bootstrap_peers mgr)
                (on_peer_discovered mgr) (on_peer_failed mgr).

(** [PeerManager.__init__], with the defaults 5.0 and 15.0 for the two
    intervals when the caller gives none. *)
Definition new_manager (nid : string) (heartbeat peer_timeout : Q) : PeerManager :=
  mkPeerManager nid heartbeat peer_timeout ∅ ∅ false false.

(** [add_bootstrap_peer] *)
Definition add_bootstrap_peer (addr : string * Z) (mgr : PeerManager) : PeerManager :=
  mkPeerManager (self_id mgr) (heartbeat_interval mgr) (peer_timeout mgr)
                (peers mgr) ({[addr]} ∪ bootstrap_peers mgr)
                (on_peer_discovered mgr) (on_peer_failed mgr).

(** [add_or_update_peer]: the manager, the returned [is_new] and the
    callback called. *)
Definition add_or_update_peer (now : Q) (nid : string) (addr : string * Z)
    (ver : Z) (mgr : PeerManager) : PeerManager * bool * list event :=
  if String.eqb nid (self_id mgr) then (mgr, false, [])
  else
    match peers mgr !! nid with
    | None =>
        (set_peers (insert nid (mkPeerInfo nid addr now 0 ver true 0)) mgr, true,
         if on_peer_discovered mgr then [PeerDiscovered nid addr] else [])
    | Some peer =>
        let peer := update_seen now peer in
        let peer := set_address addr peer in
        let peer := if ver >? version peer then set_version ver peer else peer in
        (set_peers (insert nid peer) mgr, false, [])
    end.

(** [update_peer_version] *)
Definition update_peer_version (nid : string) (ver : Z) (mgr : PeerManager)
    : PeerManager :=
  match peers mgr !! nid with
  | Some peer =>
      if ver >? version peer
      then set_peers (insert nid (set_version ver peer)) mgr
      else mgr
  | None => mgr
  end.

(** [mark_peer_synced] *)
Definition mark_peer_synced (now : Q) (nid : string) (mgr : PeerManager)
    : PeerManager :=
  match peers mgr !! nid with
  | Some peer => set_peers (insert nid (set_last_sync now peer)) mgr
  | None => mgr
  end.

(** [get_peer] *)
Definition get_peer (nid : string) (mgr : PeerManager) : option PeerInfo :=
  peers mgr !! nid.

(** [get_all_peers] *)
Definition get_all_peers (mgr : PeerManager) : list PeerInfo :=
  (map_to_list (peers mgr)).*2.

(** [get_alive_peers] *)
Definition get_alive_peers (mgr : PeerManager) : list PeerInfo :=
  List.filter is_alive (map_to_list (peers mgr)).*2.

(** [get_peers_needing_sync]; [clock nid] is the reading of the clock in
    the call of [needs_sync] on the peer [nid]. *)
Definition get_peers_needing_sync (clock : string -> Q) (sync_interval : Q)
    (mgr : PeerManager) : list PeerInfo :=
  List.filter (fun p => is_alive p && needs_sync (clock (node_id p)) sync_interval p)
              (map_to_list (peers mgr)).*2.

(** What [mark_peer_failed] does to the [PeerInfo] of the peer. *)
Definition fail_once (p : PeerInfo) : PeerInfo :=
  let p := set_failed_pings (failed_pings p + 1) p in
  if (failed_pings p >=? 3) && is_alive p then mark_dead p else p.

(** [mark_peer_failed]: the manager and the callback called. *)
Definition mark_peer_failed (nid : string) (mgr : PeerManager)
    : PeerManager * list event :=
  match peers mgr !! nid with
  | Some peer =>
      let peer := set_failed_pings (failed_pings peer + 1) peer in
      if (failed_pings peer >=? 3) && is_alive peer
      then (set_peers (insert nid (mark_dead peer)) mgr,
            if on_peer_failed mgr then [PeerFailed nid] else [])
      else (set_peers (insert nid peer) mgr, [])
  | None => (mgr, [])
  end.

(** [get_bootstrap_addresses] *)
Definition get_bootstrap_addresses (mgr : PeerManager) : list (string * Z) :=
  elements (bootstrap_peers mgr).

(** One iteration of the [for] of [_health_check_loop]; the [peer] of the
    iteration is the object the dictionary holds under [nid]. *)
Definition health_step (now : Q) (acc : PeerManager * list event)
    (item : string * PeerInfo) : PeerManager * list event :=
  let '(mgr, evs) := acc in
  let '(nid, _) := item in
  match peers mgr !! nid with
  | Some peer =>
      if is_alive peer && Qgt_bool (now - last_seen peer) (peer_timeout mgr)
      then let '(mgr', evs') := mark_peer_failed nid mgr in (mgr', evs ++ evs')
      else (mgr, evs)
  | None => (mgr, evs)
  end.

(** One pass of [_health_check_loop] at the reading [now]. *)
Definition health_check (now : Q) (mgr : PeerManager) : PeerManager * list event :=
  foldl (health_step now) (mgr, []) (map_to_list (peers mgr)).

(** [get_stats]: [(total_peers, alive_peers, dead_peers, bootstrap_peers)]. *)
Definition get_stats (mgr : PeerManager) : Z * Z * Z * Z :=
  let alive := Z.of_nat (length (List.filter is_alive (map_to_list (peers mgr)).*2)) in
  (Z.of_nat (size (peers mgr)), alive, Z.of_nat (size (peers mgr)) - alive,
   Z.of_nat (size (bootstrap_peers mgr))).

(** The calls a manager receives. *)
Inductive op : Type :=
  | AddBootstrap (addr : string * Z)
  | AddOrUpdate (now : Q) (nid : string) (addr : string * Z) (ver : Z)
  | UpdateVersion (nid : string) (ver : Z)
  | MarkSynced (now : Q) (nid : string)
  | MarkFailed (nid : string)
  | HealthCheck (now : Q).

Definition step (mgr : PeerManager) (o : op) : PeerManager :=
  match o with
  | AddBootstrap addr => add_bootstrap_peer addr mgr
  | AddOrUpdate now nid addr ver => (add_or_update_peer now nid addr ver mgr).1.1
  | UpdateVersion nid ver => update_peer_version nid ver mgr
  | MarkSynced now nid => mark_peer_synced now nid mgr
  | MarkFailed nid => (mark_peer_failed nid mgr).1
  | HealthCheck now => (health_check now mgr).1
  end.

Definition run (ops : list op) (mgr : PeerManager) : PeerManager :=
  foldl step mgr ops.

(** What every manager built by its methods satisfies: it does not hold
    itself as a peer; a peer is stored under its own identifier; a peer
    is alive exactly when it has failed fewer than three pings. *)
Definition peer_ok (nid : string) (p : PeerInfo) : Prop :=
  node_id p = nid /\ 0 <= failed_pings p
  /\ (is_alive p = true <-> failed_pings p < 3).

Definition mgr_inv (mgr : PeerManager) : Prop :=
  peers mgr !! self_id mgr = None /\ map_Forall peer_ok (peers mgr).

(** The test of the health check on one peer, and what a pass does to it. *)
Definition stale (now timeout : Q) (p : PeerInfo) : bool :=
  is_alive p && Qgt_bool (now - last_seen p) timeout.

Definition health_peer (now timeout : Q) (p : PeerInfo) : PeerInfo :=
  if stale now timeout p then fail_once p else p.

(** The callbacks a pass over the items [l] calls. *)
Definition health_events (now : Q) (mgr : PeerManager)
    (l : list (string * PeerInfo)) : list event :=
  (fun kp => PeerFailed kp.1)
    <$> List.filter (fun kp => on_peer_failed mgr && stale now (peer_timeout mgr) kp.2
                               && (failed_pings kp.2 + 1 >=? 3)) l.

(** Passes of the health check at successive readings of the clock. *)
Definition health_checks (nows : list Q) (mgr : PeerManager) : PeerManager :=
  foldl (fun m now => (health_check now m).1) mgr nows.

(** The fields of a manager that only [add_bootstrap_peer] and the
    caller who installs a callback change. *)
Definition same_config (m m' : PeerManager) : Prop :=
  self_id m' = self_id m /\ heartbeat_interval m' = heartbeat_interval m
  /\ peer_timeout m' = peer_timeout m
  /\ bootstrap_peers m' = bootstrap_peers m
  /\ on_peer_discovered m' = on_peer_discovered m
  /\ on_peer_failed m' = on_peer_failed m.

End Peers.


(** *** More scenarios *)

(** Two replicas that write ["x"] at the same reading of the clock. *)
Definition left_x : CRDTState string := set "x" "a"%string 1 (init "A").
Definition right_x : CRDTState string := set "x" "b"%string 1 (init "B").

(** A socket whose counter has reached [2^32]. *)
Definition worn_socket : ReliableUDPSocket (list (string * jvalue)) :=
  mkSocket 4294967296 ∅ ∅ ∅.

(** One packet sent to [peer] at 0 s and not yet retried. *)
Definition one_in_flight
    : gmap Z (ReliableUDPPacket (list (string * jvalue)) * Q * Z * address) :=
  {[0 := (numbered 0, 0%Q, 0, peer)]}.

(** [test_datagram] with the version byte 2. *)
Definition version_2_datagram : list byte := byte_of_Z 2 :: drop 1 test_datagram.

(** The manager of node ["A"], which has heard from ["B"] at 100 s. *)
Definition peer_B : Peers.PeerInfo :=
  Peers.mkPeerInfo "B" ("10.0.0.2"%string, 5002) 100 0 3 true 0.

Definition watching : Peers.PeerManager :=
  Peers.run [Peers.AddOrUpdate 100 "B" ("10.0.0.2"%string, 5002) 3]
            (Peers.new_manager "A" 5 15).

(** ** Part III.  Properties of the register store *)

(** *** The order on [(timestamp, node_id)] pairs *)

Lemma ascii_compare_trans (a b c : ascii) :
  Ascii.compare a b = Lt -> Ascii.compare b c = Lt -> Ascii.compare a c = Lt.
Proof.
  unfold Ascii.compare. rewrite !N.compare_lt_iff. apply N.lt_trans.
Qed.

Lemma ascii_compare_refl (a : ascii) : Ascii.compare a a = Eq.
Proof. unfold Ascii.compare. apply N.compare_refl. Qed.

Lemma string_compare_refl (s : string) : String.compare s s = Eq.
Proof.
  induction s as [|x s IH]; simpl; [done|].
  by rewrite ascii_compare_refl.
Qed.

Lemma string_compare_trans (a b c : string) :
  String.compare a b = Lt -> String.compare b c = Lt -> String.compare a c = Lt.
Proof.
  revert b c. induction a as [|x a IH]; intros [|y b] [|z c]; simpl; try done.
  destruct (Ascii.compare x y) eqn:Hxy; try done;
    destruct (Ascii.compare y z) eqn:Hyz; try done.
  - apply Ascii.compare_eq_iff in Hxy, Hyz. subst.
    rewrite ascii_compare_refl.
    apply IH.
  - apply Ascii.compare_eq_iff in Hxy. subst. by rewrite Hyz.
  - apply Ascii.compare_eq_iff in Hyz. subst. by rewrite Hxy.
  - by rewrite (ascii_compare_trans _ _ _ Hxy Hyz).
Qed.

Lemma str_gt_irrefl (a : string) : str_gt a a = false.
Proof. unfold str_gt, String.ltb. by rewrite string_compare_refl. Qed.

Lemma str_gt_trans (a b c : string) :
  str_gt a b = true -> str_gt b c = true -> str_gt a c = true.
Proof.
  unfold str_gt, String.ltb. intros Hab Hbc.
  destruct (String.compare b a) eqn:H1; try done.
  destruct (String.compare c b) eqn:H2; try done.
  by rewrite (string_compare_trans _ _ _ H2 H1).
Qed.

Lemma str_gt_total (a b : string) :
  str_gt a b = true \/ a = b \/ str_gt b a = true.
Proof.
  unfold str_gt, String.ltb.
  rewrite (String.compare_antisym b a).
  destruct (String.compare a b) eqn:H; simpl; auto.
  apply String.compare_eq_iff in H. auto.
Qed.

Lemma stamp_lt_iff (a b : Z * string) :
  stamp_lt a b <-> a.1 < b.1 \/ (a.1 = b.1 /\ str_gt b.2 a.2 = true).
Proof.
  unfold stamp_lt, newer.
  rewrite orb_true_iff, andb_true_iff, Z.gtb_ltb, Z.ltb_lt, Z.eqb_eq.
  intuition lia.
Qed.

Lemma stamp_lt_irrefl (a : Z * string) : ~ stamp_lt a a.
Proof. rewrite stamp_lt_iff, str_gt_irrefl. intros [?|[_ ?]]; [lia|done]. Qed.

Lemma stamp_lt_trans (a b c : Z * string) :
  stamp_lt a b -> stamp_lt b c -> stamp_lt a c.
Proof.
  rewrite !stamp_lt_iff. intros [?|[? Hab]] [?|[? Hbc]]; try (left; lia).
  right. split; [lia|]. by apply (str_gt_trans _ b.2).
Qed.

Lemma stamp_lt_total (a b : Z * string) :
  stamp_lt a b \/ a = b \/ stamp_lt b a.
Proof.
  rewrite !stamp_lt_iff. destruct a as [ta na], b as [tb nb]; simpl.
  destruct (Z.lt_total ta tb) as [?|[->|?]]; auto.
  destruct (str_gt_total na nb) as [?|[->|?]]; auto.
Qed.

Module StampTotal <: OrdersTac.IsTotalOrder Stamp.

Lemma eq_equiv : Equivalence Stamp.eq.
Proof. apply _. Qed.

Lemma lt_strorder : StrictOrder Stamp.lt.
Proof.
  split; [intros a; apply stamp_lt_irrefl | intros a b c; apply stamp_lt_trans].
Qed.

Lemma lt_compat : Proper (Stamp.eq ==> Stamp.eq ==> iff) Stamp.lt.
Proof. by intros a b -> c d ->. Qed.

Lemma le_lteq (x y : Stamp.t) : Stamp.le x y <-> Stamp.lt x y \/ Stamp.eq x y.
Proof. done. Qed.

Lemma lt_total (x y : Stamp.t) : Stamp.lt x y \/ Stamp.eq x y \/ Stamp.lt y x.
Proof. apply stamp_lt_total. Qed.

End StampTotal.

Module StampTac := OrdersTac.MakeOrderTac Stamp StampTotal.

(** Turns the boolean tests of the merge into facts of the order and
    closes the goal by saturation. *)
Ltac stamp_facts :=
  repeat match goal with
  | H : newer ?t ?n ?t' ?n' = true |- _ =>
      change (stamp_lt (t', n') (t, n)) in H
  | H : newer ?t ?n ?t' ?n' = false |- _ =>
      apply not_true_iff_false in H; change (~ stamp_lt (t', n') (t, n)) in H
  end.

Ltac stamp_order := stamp_facts; StampTac.order.

Lemma newer_asym_test ta na tb nb tc nc :
  newer ta na tb nb = true -> newer tb nb tc nc = true -> newer tc nc ta na = false.
Proof.
  intros H1 H2. destruct (newer tc nc ta na) eqn:H3; [|done].
  exfalso. stamp_order.
Qed.

Section CRDT_loops.

Context {V : Type}.
Implicit Types (st : CRDTState V) (m : bool) (k key : string).
Implicit Types (rd : gmap string (V * Z * string)) (rt : gmap string (Z * string)).
Implicit Types (rvc : gmap string Z).

(** *** The first loop *)

Lemma data_should_update_cell st k ts n :
  data_should_update st k ts n
  = cell_data_should_update (data st !! k) (tombstones st !! k) ts n.
Proof.
  unfold data_should_update, cell_data_should_update.
  destruct (data st !! k) as [[[? ?] ?]|]; destruct (tombstones st !! k) as [[? ?]|];
    repeat case_match; done.
Qed.

Lemma merge_data_step_frame st m item :
  let r := merge_data_step (st, m) item in
  node_id r.1 = node_id st /\ tombstones r.1 = tombstones st
  /\ vector_clock r.1 = vector_clock st /\ version r.1 = version st.
Proof.
  destruct item as [k [[v ts] n]]. simpl.
  by destruct (data_should_update st k ts n).
Qed.

Lemma merge_data_loop_cons acc item l :
  merge_data_loop (V:=V) acc (item :: l) = merge_data_loop (merge_data_step acc item) l.
Proof. done. Qed.

Lemma merge_data_loop_frame l st m :
  let r := merge_data_loop (st, m) l in
  node_id r.1 = node_id st /\ tombstones r.1 = tombstones st
  /\ vector_clock r.1 = vector_clock st /\ version r.1 = version st.
Proof.
  revert st m. induction l as [|item l IH]; intros st m; [done|].
  rewrite merge_data_loop_cons.
  destruct (merge_data_step (st, m) item) as [st' m'] eqn:Hstep.
  pose proof (merge_data_step_frame st m item) as Hf. rewrite Hstep in Hf.
  simpl in Hf. destruct Hf as (<- & <- & <- & <-). apply IH.
Qed.

Lemma merge_data_loop_lookup l st m k :
  NoDup l.*1 ->
  data (merge_data_loop (st, m) l).1 !! k
  = data_cell (data st !! k) (tombstones st !! k)
              ((list_to_map l : gmap string (V * Z * string)) !! k).
Proof.
  revert st m. induction l as [|[k0 [[v ts] n]] l IH]; intros st m Hnd.
  { simpl. by rewrite lookup_empty. }
  rewrite fmap_cons, NoDup_cons in Hnd. destruct Hnd as [Hk0 Hnd]. simpl in Hk0.
  rewrite merge_data_loop_cons, list_to_map_cons.
  destruct (merge_data_step (st, m) (k0, (v, ts, n))) as [st' m'] eqn:Hstep.
  pose proof (merge_data_step_frame st m (k0, (v, ts, n))) as Hf.
  rewrite Hstep in Hf. simpl in Hf. destruct Hf as (_ & Ht & _ & _).
  rewrite (IH st' m' Hnd), Ht.
  simpl in Hstep. rewrite data_should_update_cell in Hstep.
  destruct (decide (k = k0)) as [->|Hne].
  - rewrite lookup_insert_eq.
    rewrite (not_elem_of_list_to_map_1 l k0 Hk0). simpl.
    destruct (cell_data_should_update _ _ ts n); inversion Hstep; subst; simpl;
      [by rewrite lookup_insert_eq | done].
  - rewrite lookup_insert_ne by done.
    replace (data st' !! k) with (data st !! k); [done|].
    destruct (cell_data_should_update _ _ ts n); inversion Hstep; subst; simpl;
      [by rewrite lookup_insert_ne | done].
Qed.

Lemma merge_data_loop_noop l st m :
  (forall k v ts n, (k, (v, ts, n)) ∈ l -> data_should_update st k ts n = false) ->
  merge_data_loop (st, m) l = (st, m).
Proof.
  induction l as [|[k0 [[v ts] n]] l IH]; intros Hall; [done|].
  rewrite merge_data_loop_cons. cbn [merge_data_step].
  rewrite (Hall k0 v ts n) by apply list_elem_of_here.
  apply IH. intros k' v' ts' n' Hin. apply (Hall k' v' ts' n').
  by apply list_elem_of_further.
Qed.

Lemma merge_data_loop_flag l st m :
  (merge_data_loop (st, m) l).2
  = m || existsb (fun item : string * (V * Z * string) =>
                    data_should_update st item.1 item.2.1.2 item.2.2) l.
Proof.
  revert st m. induction l as [|[k0 [[v ts] n]] l IH]; intros st m.
  { simpl. by rewrite orb_false_r. }
  rewrite merge_data_loop_cons. cbn [merge_data_step existsb fst snd].
  destruct (data_should_update st k0 ts n).
  - rewrite IH. simpl. by rewrite orb_true_r.
  - by rewrite IH.
Qed.

(** *** The second loop *)

Lemma tomb_should_update_cell st k ts n :
  tomb_should_update st k ts n = cell_tomb_should_update (tombstones st !! k) ts n.
Proof.
  unfold tomb_should_update, cell_tomb_should_update.
  destruct (tombstones st !! k) as [[? ?]|]; repeat case_match; done.
Qed.

Lemma merge_tomb_loop_cons acc item l :
  merge_tomb_loop (V:=V) acc (item :: l) = merge_tomb_loop (merge_tomb_step acc item) l.
Proof. done. Qed.

Lemma merge_tomb_step_frame st m item :
  let r := merge_tomb_step (st, m) item in
  node_id r.1 = node_id st /\ vector_clock r.1 = vector_clock st
  /\ version r.1 = version st.
Proof.
  destruct item as [k [ts n]]. simpl.
  destruct (tomb_should_update st k ts n); [|done].
  destruct (data st !! k) as [[[? ?] ?]|]; [|done].
  by destruct (newer ts n _ _).
Qed.

Lemma merge_tomb_step_lookup st m k0 ts n k :
  let r := merge_tomb_step (st, m) (k0, (ts, n)) in
  (data r.1 !! k, tombstones r.1 !! k)
  = if decide (k = k0)
    then tomb_cell (data st !! k) (tombstones st !! k) (Some (ts, n))
    else (data st !! k, tombstones st !! k).
Proof.
  cbn [merge_tomb_step]. rewrite tomb_should_update_cell.
  destruct (decide (k = k0)) as [->|Hne]; cbn [tomb_cell].
  - destruct (cell_tomb_should_update _ ts n); [|done]. simpl.
    destruct (data st !! k0) as [[[? ?] ?]|] eqn:Hd; simpl.
    + destruct (newer ts n _ _); simpl; by rewrite ?lookup_delete_eq, ?lookup_insert_eq, ?Hd.
    + by rewrite lookup_insert_eq, Hd.
  - destruct (cell_tomb_should_update _ ts n); [|done]. simpl.
    destruct (data st !! k0) as [[[? ?] ?]|]; simpl.
    + destruct (newer ts n _ _); simpl;
        by rewrite ?lookup_delete_ne, ?lookup_insert_ne.
    + by rewrite lookup_insert_ne.
Qed.

Lemma merge_tomb_loop_frame l st m :
  let r := merge_tomb_loop (st, m) l in
  node_id r.1 = node_id st /\ vector_clock r.1 = vector_clock st
  /\ version r.1 = version st.
Proof.
  revert st m. induction l as [|item l IH]; intros st m; [done|].
  rewrite merge_tomb_loop_cons.
  destruct (merge_tomb_step (st, m) item) as [st' m'] eqn:Hstep.
  pose proof (merge_tomb_step_frame st m item) as Hf. rewrite Hstep in Hf.
  simpl in Hf. destruct Hf as (<- & <- & <-). apply IH.
Qed.

Lemma merge_tomb_loop_lookup l st m k :
  NoDup l.*1 ->
  let r := merge_tomb_loop (st, m) l in
  (data r.1 !! k, tombstones r.1 !! k)
  = tomb_cell (data st !! k) (tombstones st !! k)
              ((list_to_map l : gmap string (Z * string)) !! k).
Proof.
  revert st m. induction l as [|[k0 [ts n]] l IH]; intros st m Hnd.
  { simpl. by rewrite lookup_empty. }
  rewrite fmap_cons, NoDup_cons in Hnd. destruct Hnd as [Hk0 Hnd]. simpl in Hk0.
  rewrite merge_tomb_loop_cons, list_to_map_cons.
  pose proof (merge_tomb_step_lookup st m k0 ts n k) as Hs.
  destruct (merge_tomb_step (st, m) (k0, (ts, n))) as [st' m'] eqn:Hstep.
  cbn zeta in *. rewrite (IH st' m' Hnd). simpl in Hs.
  destruct (decide (k = k0)) as [->|Hne].
  - rewrite lookup_insert_eq, (not_elem_of_list_to_map_1 l k0 Hk0).
    exact Hs.
  - rewrite lookup_insert_ne by done. by injection Hs as -> ->.
Qed.

Lemma merge_tomb_loop_noop l st m :
  (forall k ts n, (k, (ts, n)) ∈ l -> tomb_should_update st k ts n = false) ->
  merge_tomb_loop (st, m) l = (st, m).
Proof.
  induction l as [|[k0 [ts n]] l IH]; intros Hall; [done|].
  rewrite merge_tomb_loop_cons. cbn [merge_tomb_step].
  rewrite (Hall k0 ts n) by apply list_elem_of_here.
  apply IH. intros k' ts' n' Hin. apply (Hall k' ts' n').
  by apply list_elem_of_further.
Qed.

Lemma merge_tomb_loop_flag l st m :
  (merge_tomb_loop (st, m) l).2
  = m || existsb (fun item : string * (Z * string) =>
                    cell_tomb_should_update (tombstones st !! item.1)
                                            item.2.1 item.2.2) l.
Proof.
  revert st m. induction l as [|[k0 [ts n]] l IH]; intros st m.
  { simpl. by rewrite orb_false_r. }
  rewrite merge_tomb_loop_cons. cbn [merge_tomb_step existsb fst snd].
  rewrite tomb_should_update_cell.
  destruct (cell_tomb_should_update (tombstones st !! k0) ts n).
  - rewrite IH. simpl. by rewrite orb_true_r.
  - by rewrite IH.
Qed.

(** *** The third loop *)

Lemma merge_vc_loop_cons vc item l :
  merge_vc_loop vc (item :: l) = merge_vc_loop (merge_vc_step vc item) l.
Proof. done. Qed.

Lemma merge_vc_step_lookup vc n0 seq n :
  merge_vc_step vc (n0, seq) !! n
  = if decide (n = n0) then vc_cell (vc !! n) (Some seq) else vc !! n.
Proof.
  unfold merge_vc_step, vc_read, vc_cell.
  destruct (decide (n = n0)) as [->|Hne].
  - destruct (vc !! n0) as [c|] eqn:Hc; simpl;
      destruct (seq >? _); by rewrite ?lookup_insert_eq.
  - destruct (vc !! n0) as [c|] eqn:Hc; simpl;
      destruct (seq >? _); by rewrite ?lookup_insert_ne.
Qed.

Lemma merge_vc_loop_lookup l vc n :
  NoDup l.*1 ->
  merge_vc_loop vc l !! n = vc_cell (vc !! n) ((list_to_map l : gmap string Z) !! n).
Proof.
  revert vc. induction l as [|[n0 seq] l IH]; intros vc Hnd.
  { simpl. by rewrite lookup_empty. }
  rewrite fmap_cons, NoDup_cons in Hnd. destruct Hnd as [Hn0 Hnd]. simpl in Hn0.
  rewrite merge_vc_loop_cons, list_to_map_cons, (IH _ Hnd), merge_vc_step_lookup.
  destruct (decide (n = n0)) as [->|Hne].
  - by rewrite lookup_insert_eq, (not_elem_of_list_to_map_1 l n0 Hn0).
  - by rewrite lookup_insert_ne.
Qed.

Lemma merge_vc_loop_noop l vc :
  (forall n seq, (n, seq) ∈ l -> exists c, vc !! n = Some c /\ seq <= c) ->
  merge_vc_loop vc l = vc.
Proof.
  induction l as [|[n0 seq] l IH]; intros Hall; [done|].
  rewrite merge_vc_loop_cons.
  destruct (Hall n0 seq (list_elem_of_here _ _)) as (c & Hc & Hle).
  replace (merge_vc_step vc (n0, seq)) with vc.
  - apply IH. intros n' s' Hin. apply Hall. by apply list_elem_of_further.
  - unfold merge_vc_step, vc_read. rewrite Hc.
    destruct (seq >? c) eqn:Hgt; [|done]. apply Z.gtb_lt in Hgt. lia.
Qed.

End CRDT_loops.

Section CRDT_cells.

Context {V : Type}.
Implicit Types (d rd : option (V * Z * string)) (t rt : option (Z * string)).

(** Case analysis on every comparison of the goal, closing the
    impossible combinations by the order. *)
Ltac cell_cases :=
  repeat match goal with
  | |- context [newer ?a ?b ?c ?e] =>
      let H := fresh "Hcmp" in destruct (newer a b c e) eqn:H; cbn
  | H : context [newer ?a ?b ?c ?e] |- _ =>
      lazymatch type of H with
      | newer _ _ _ _ = _ => fail
      | _ => let H' := fresh "Hcmp" in destruct (newer a b c e) eqn:H'; cbn in H
      end
  end.

Ltac cell_crush :=
  unfold merge_cell, tomb_cell, data_cell, cell_data_should_update,
    cell_tomb_should_update; cbn;
  cell_cases; try done; try (exfalso; stamp_order).




(** Reapplying the entry that has just been merged changes nothing. *)
Lemma merge_cell_data_again d t v ts n rt :
  let c := merge_cell d t (Some (v, ts, n)) rt in
  cell_data_should_update c.1 c.2 ts n = false.
Proof.
  destruct d as [[[dv dts] dn]|], t as [[tts tn]|], rt as [[rts rn]|];
    cell_crush.
Qed.

Lemma merge_cell_tomb_again d t rd ts n :
  let c := merge_cell d t rd (Some (ts, n)) in
  cell_tomb_should_update c.2 ts n = false.
Proof.
  destruct d as [[[dv dts] dn]|], t as [[tts tn]|], rd as [[[rv rts] rn]|];
    cell_crush.
Qed.


End CRDT_cells.

Section CRDT_state.

Context {V : Type}.
Implicit Types (st : CRDTState V) (k key : string).
Implicit Types (rd : gmap string (V * Z * string)) (rt : gmap string (Z * string)).
Implicit Types (rvc : gmap string Z) (s : snapshot V).

Lemma CRDTState_ext st1 st2 :
  node_id st1 = node_id st2 ->
  (forall k, data st1 !! k = data st2 !! k) ->
  (forall k, tombstones st1 !! k = tombstones st2 !! k) ->
  (forall n, vector_clock st1 !! n = vector_clock st2 !! n) ->
  version st1 = version st2 ->
  st1 = st2.
Proof.
  destruct st1, st2; simpl. intros -> Hd Ht Hv ->.
  apply map_eq in Hd, Ht, Hv. by subst.
Qed.

(** What the merge leaves in every cell, and the version it leaves, for
    any duplicate-free enumerations of the remote maps. *)
Lemma merge_remote_items_spec st
    (ld : list (string * (V * Z * string))) (lt : list (string * (Z * string)))
    (lv : list (string * Z)) :
  NoDup ld.*1 -> NoDup lt.*1 -> NoDup lv.*1 ->
  let r := merge_remote_items st ld lt lv in
  node_id r.1 = node_id st
  /\ (forall k, (data r.1 !! k, tombstones r.1 !! k)
                = merge_cell (data st !! k) (tombstones st !! k)
                    ((list_to_map ld : gmap string (V * Z * string)) !! k)
                    ((list_to_map lt : gmap string (Z * string)) !! k))
  /\ (forall n, vector_clock r.1 !! n
                = vc_cell (vector_clock st !! n) ((list_to_map lv : gmap string Z) !! n))
  /\ version r.1 = (if r.2 then version st + 1 else version st).
Proof.
  intros Hnd1 Hnd2 Hnd3. unfold merge_remote_items.
  destruct (merge_data_loop (st, false) ld) as [st1 m1] eqn:H1.
  destruct (merge_tomb_loop (st1, m1) lt) as [st2 m2] eqn:H2.
  pose proof (merge_data_loop_frame ld st false) as Hf1.
  pose proof (merge_tomb_loop_frame lt st1 m1) as Hf2.
  rewrite H1 in Hf1. rewrite H2 in Hf2. cbn zeta in Hf1, Hf2. simpl in Hf1, Hf2.
  destruct Hf1 as (Hn1 & Ht1 & Hv1 & Hver1). destruct Hf2 as (Hn2 & Hv2 & Hver2).
  assert (Hcells : forall k, (data st2 !! k, tombstones st2 !! k)
            = merge_cell (data st !! k) (tombstones st !! k)
                ((list_to_map ld : gmap string (V * Z * string)) !! k)
                ((list_to_map lt : gmap string (Z * string)) !! k)).
  { intros k.
    pose proof (merge_tomb_loop_lookup lt st1 m1 k Hnd2) as Hl2.
    pose proof (merge_data_loop_lookup ld st false k Hnd1) as Hl1.
    cbn zeta in Hl2. rewrite H1 in Hl1. rewrite H2 in Hl2. cbn [fst] in Hl1, Hl2.
    unfold merge_cell. by rewrite Hl2, Hl1, Ht1. }
  assert (Hvc : forall n,
            merge_vc_loop (vector_clock st2) lv !! n
            = vc_cell (vector_clock st !! n) ((list_to_map lv : gmap string Z) !! n)).
  { intros n. rewrite merge_vc_loop_lookup by done. by rewrite Hv2, Hv1. }
  destruct m2; simpl; (split; [congruence|]); (split; [done|]); (split; [done|]);
    congruence.
Qed.

(** The returned [modified]: some remote register or some remote
    tombstone passes its test against the state before the merge. *)
Lemma merge_remote_items_flag st
    (ld : list (string * (V * Z * string))) (lt : list (string * (Z * string)))
    (lv : list (string * Z)) :
  (merge_remote_items st ld lt lv).2
  = existsb (fun item : string * (V * Z * string) =>
               data_should_update st item.1 item.2.1.2 item.2.2) ld
    || existsb (fun item : string * (Z * string) =>
                  cell_tomb_should_update (tombstones st !! item.1)
                                          item.2.1 item.2.2) lt.
Proof.
  unfold merge_remote_items.
  pose proof (merge_data_loop_flag ld st false) as Hf1.
  pose proof (merge_data_loop_frame ld st false) as (_ & Ht1 & _).
  destruct (merge_data_loop (st, false) ld) as [st1 m1].
  pose proof (merge_tomb_loop_flag lt st1 m1) as Hf2.
  destruct (merge_tomb_loop (st1, m1) lt) as [st2 m2].
  simpl in *. rewrite Ht1 in Hf2. subst m1 m2.
  by destruct (existsb _ ld || existsb _ lt).
Qed.

Lemma existsb_Permutation {A : Type} (f : A -> bool) (l1 l2 : list A) :
  l1 ≡ₚ l2 -> existsb f l1 = existsb f l2.
Proof.
  intros Hp. induction Hp as [|x l1 l2 _ IH|x y l|l1 l2 l3 _ IH1 _ IH2]; simpl.
  - done.
  - by rewrite IH.
  - by destruct (f x), (f y).
  - by rewrite IH1.
Qed.

(** The order in which the three dictionaries are enumerated does not
    matter to the merge. *)
Lemma merge_remote_items_perm st
    (ld ld' : list (string * (V * Z * string)))
    (lt lt' : list (string * (Z * string))) (lv lv' : list (string * Z)) :
  NoDup ld.*1 -> NoDup lt.*1 -> NoDup lv.*1 ->
  ld ≡ₚ ld' -> lt ≡ₚ lt' -> lv ≡ₚ lv' ->
  merge_remote_items st ld lt lv = merge_remote_items st ld' lt' lv'.
Proof.
  intros Hd Ht Hv Hpd Hpt Hpv.
  assert (Hd' : NoDup ld'.*1) by (by rewrite <- Hpd).
  assert (Ht' : NoDup lt'.*1) by (by rewrite <- Hpt).
  assert (Hv' : NoDup lv'.*1) by (by rewrite <- Hpv).
  pose proof (merge_remote_items_spec st ld lt lv Hd Ht Hv) as (Hn1 & Hc1 & Hvc1 & Hver1).
  pose proof (merge_remote_items_spec st ld' lt' lv' Hd' Ht' Hv') as (Hn2 & Hc2 & Hvc2 & Hver2).
  pose proof (merge_remote_items_flag st ld lt lv) as Hf1.
  pose proof (merge_remote_items_flag st ld' lt' lv') as Hf2.
  rewrite <- (existsb_Permutation _ _ _ Hpd), <- (existsb_Permutation _ _ _ Hpt) in Hf2.
  rewrite <- (list_to_map_proper ld ld' Hd Hpd),
          <- (list_to_map_proper lt lt' Ht Hpt) in Hc2.
  rewrite <- (list_to_map_proper lv lv' Hv Hpv) in Hvc2.
  destruct (merge_remote_items st ld lt lv) as [a ma],
           (merge_remote_items st ld' lt' lv') as [b mb]. simpl in *.
  assert (ma = mb) as <- by congruence. f_equal.
  apply CRDTState_ext.
  - congruence.
  - intros k. pose proof (Hc1 k) as H1. pose proof (Hc2 k) as H2.
    rewrite <- H2 in H1. by injection H1.
  - intros k. pose proof (Hc1 k) as H1. pose proof (Hc2 k) as H2.
    rewrite <- H2 in H1. by injection H1.
  - intros n. by rewrite Hvc1, Hvc2.
  - congruence.
Qed.

(** What [merge_remote_state] leaves in every cell, and the version it
    leaves. *)
Lemma merge_remote_state_spec st rd rt rvc :
  let r := merge_remote_state st rd rt rvc in
  node_id r.1 = node_id st
  /\ (forall k, (data r.1 !! k, tombstones r.1 !! k)
                = merge_cell (data st !! k) (tombstones st !! k) (rd !! k) (rt !! k))
  /\ (forall n, vector_clock r.1 !! n = vc_cell (vector_clock st !! n) (rvc !! n))
  /\ version r.1 = (if r.2 then version st + 1 else version st).
Proof.
  pose proof (merge_remote_items_spec st (map_to_list rd) (map_to_list rt)
                (map_to_list rvc) (NoDup_fst_map_to_list _)
                (NoDup_fst_map_to_list _) (NoDup_fst_map_to_list _)) as Hs.
  by rewrite !list_to_map_to_list in Hs.
Qed.

Lemma merge_remote_state_cells st rd rt rvc k :
  (data (merge_remote_state st rd rt rvc).1 !! k,
   tombstones (merge_remote_state st rd rt rvc).1 !! k)
  = merge_cell (data st !! k) (tombstones st !! k) (rd !! k) (rt !! k).
Proof. apply (merge_remote_state_spec st rd rt rvc). Qed.

(** The third loop is a pointwise maximum, a missing local counter
    counting as [0]. *)
Lemma vc_cell_max (c : option Z) (seq : Z) :
  vc_cell c (Some seq) = Some (Z.max (default 0 c) seq).
Proof.
  unfold vc_cell. destruct (seq >? default 0 c) eqn:H; f_equal.
  - apply Z.gtb_lt in H. lia.
  - rewrite Z.gtb_ltb in H. apply Z.ltb_ge in H. lia.
Qed.


Lemma vc_cell_again (c : option Z) (seq : Z) :
  exists c', vc_cell c (Some seq) = Some c' /\ seq <= c'.
Proof. rewrite vc_cell_max. eexists; split; [done|lia]. Qed.

(** *** Idempotence *)

(** C2.  Merging a snapshot [(remote_data, remote_tombstones,
    remote_vector_clock)] a second time returns [modified = False] and
    leaves the state reached by the first merge as it is: its data, its
    tombstones, its vector clock and its version. *)
Theorem merge_remote_state_idempotent st rd rt rvc :
  let st1 := (merge_remote_state st rd rt rvc).1 in
  merge_remote_state st1 rd rt rvc = (st1, false).
Proof.
  intros st1.
  pose proof (merge_remote_state_spec st rd rt rvc) as (_ & Hcells & Hvc & _).
  fold st1 in Hcells, Hvc. clearbody st1.
  unfold merge_remote_state, merge_remote_items.
  rewrite merge_data_loop_noop, merge_tomb_loop_noop.
  - unfold set_vector_clock. rewrite merge_vc_loop_noop; [by destruct st1|].
    intros n seq Hin%elem_of_map_to_list.
    rewrite Hvc, Hin. apply vc_cell_again.
  - intros k ts n Hin%elem_of_map_to_list.
    rewrite tomb_should_update_cell.
    pose proof (Hcells k) as Hk. rewrite Hin in Hk.
    pose proof (merge_cell_tomb_again (data st !! k) (tombstones st !! k)
                  (rd !! k) ts n) as Hno.
    cbn zeta in Hno. rewrite <- Hk in Hno. exact Hno.
  - intros k v ts n Hin%elem_of_map_to_list.
    rewrite data_should_update_cell.
    pose proof (Hcells k) as Hk. rewrite Hin in Hk.
    pose proof (merge_cell_data_again (data st !! k) (tombstones st !! k)
                  v ts n (rt !! k)) as Hno.
    cbn zeta in Hno. rewrite <- Hk in Hno. exact Hno.
Qed.

(** *** Commutativity *)


(** *** What a merge does under a local tombstone *)

(** C4, as amended.  A remote register [(v, ts, org)] for [k] is not
    written by the first loop when the local tombstone of [k] is strictly
    newer than [(ts, org)]: [should_update] is overridden.  At equal
    [(ts, org)] there is no override: the register is written exactly when
    [k] has no local register or the remote one is newer than it. *)
Theorem merge_data_under_tombstone st rd k v ts n tts tn :
  tombstones st !! k = Some (tts, tn) ->
  rd !! k = Some (v, ts, n) ->
  let st' := (merge_data_loop (st, false) (map_to_list rd)).1 in
  (newer tts tn ts n = true ->
     data_should_update st k ts n = false /\ data st' !! k = data st !! k)
  /\ ((tts, tn) = (ts, n) ->
        data_should_update st k ts n
        = match data st !! k with
          | Some (_, local_ts, local_node) => newer ts n local_ts local_node
          | None => true
          end
        /\ data st' !! k
           = if data_should_update st k ts n then Some (v, ts, n) else data st !! k).
Proof.
  intros Ht Hr st'.
  assert (Hl : data st' !! k = data_cell (data st !! k) (tombstones st !! k) (rd !! k)).
  { unfold st'. rewrite merge_data_loop_lookup by apply NoDup_fst_map_to_list.
    by rewrite list_to_map_to_list. }
  rewrite Hl, Hr, data_should_update_cell, Ht. cbn [data_cell].
  unfold cell_data_should_update. split.
  - intros ->. done.
  - intros [= -> ->].
    assert (newer ts n ts n = false) as ->.
    { destruct (newer ts n ts n) eqn:H; [|done]. exfalso. stamp_order. }
    done.
Qed.

(** *** Tombstones are kept *)

(** C5.  A merge never removes a tombstone: the tombstone of [k] after the
    merge is the local one or a newer one; it is the local one whenever
    the remote tombstones do not hold [k], also when a remote register
    newer than the tombstone is written into [data[k]].  Of the three
    operations only [set(k, _)] leaves [k] without the tombstone it had,
    and it always does. *)
Theorem merge_keeps_tombstones st rd rt rvc k tts tn :
  tombstones st !! k = Some (tts, tn) ->
  let st' := (merge_remote_state st rd rt rvc).1 in
  (exists T', tombstones st' !! k = Some T'
              /\ (T' = (tts, tn) \/ stamp_lt (tts, tn) T'))
  /\ (rt !! k = None -> tombstones st' !! k = Some (tts, tn))
  /\ (forall v ts n,
        rd !! k = Some (v, ts, n) -> rt !! k = None ->
        stamp_lt (tts, tn) (ts, n) ->
        data_should_update st k ts n = true ->
        data st' !! k = Some (v, ts, n) /\ tombstones st' !! k = Some (tts, tn))
  /\ (forall o : op V,
        k ∈ dom (tombstones (apply_op st o)) \/ exists v ts, o = OpSet k v ts)
  /\ (forall v ts, k ∉ dom (tombstones (set k v ts st))).
Proof.
  intros Ht st'.
  pose proof (merge_remote_state_cells st rd rt rvc k) as Hc.
  fold st' in Hc. rewrite Ht in Hc.
  split; [|split; [|split; [|split]]].
  - unfold merge_cell, tomb_cell in Hc.
    destruct (rt !! k) as [[rts rn]|].
    + cbn in Hc. destruct (newer rts rn tts tn) eqn:Hn; injection Hc as _ ->.
      * eexists; split; [done|]. by right.
      * eexists; split; [done|]. by left.
    + injection Hc as _ ->. eexists; split; [done|]. by left.
  - intros Hrt. rewrite Hrt in Hc. unfold merge_cell, tomb_cell in Hc.
    by injection Hc as _ ->.
  - intros v ts n Hrd Hrt Hlt Hup. rewrite Hrd, Hrt in Hc.
    rewrite data_should_update_cell, Ht in Hup.
    unfold merge_cell, tomb_cell, data_cell in Hc. rewrite Hup in Hc.
    by injection Hc as -> ->.
  - intros [k' v ts|k' ts|[[rd' rt'] rvc']]; simpl.
    + destruct (decide (k' = k)) as [->|Hne]; [right; eauto|left].
      unfold set. case_decide; simpl; apply elem_of_dom.
      * rewrite lookup_delete_ne by done. by rewrite Ht.
      * by rewrite Ht.
    + left. unfold delete. simpl. apply elem_of_dom.
      destruct (decide (k' = k)) as [->|Hne].
      * by rewrite lookup_insert_eq.
      * rewrite lookup_insert_ne by done. by rewrite Ht.
    + left. apply elem_of_dom.
      pose proof (merge_remote_state_cells st rd' rt' rvc' k) as Hc'.
      rewrite Ht in Hc'. unfold merge_cell, tomb_cell in Hc'.
      destruct (rt' !! k) as [[rts rn]|].
      * cbn in Hc'. destruct (newer rts rn tts tn); injection Hc' as _ ->; done.
      * injection Hc' as _ ->. done.
  - intros v ts. unfold set. rewrite decide_True.
    + simpl. rewrite dom_delete_L. apply not_elem_of_difference. right.
      by apply elem_of_singleton.
    + simpl. apply elem_of_dom. by rewrite Ht.
Qed.

(** *** The version counter *)

Lemma version_set key (value : V) ts st : version (set key value ts st) = version st + 1.
Proof. unfold set. by case_decide. Qed.

Lemma version_delete key ts st : version (delete key ts st) = version st + 1.
Proof. done. Qed.

Lemma version_merge st rd rt rvc :
  version (merge_remote_state st rd rt rvc).1
  = if (merge_remote_state st rd rt rvc).2 then version st + 1 else version st.
Proof. apply (merge_remote_state_spec st rd rt rvc). Qed.

Lemma version_apply_op st (o : op V) : version st <= version (apply_op st o).
Proof.
  destruct o as [k v ts|k ts|[[rd rt] rvc]]; cbn [apply_op merge].
  - rewrite version_set. lia.
  - rewrite version_delete. lia.
  - rewrite version_merge. destruct (merge_remote_state st rd rt rvc).2; lia.
Qed.

(** C10.  [set] and [delete] add one to the version; a merge adds one
    when it returns [modified = True] and leaves the version alone when
    it returns [False]; hence no sequence of the three operations ever
    lowers the version. *)
Theorem version_monotone :
  (forall key (value : V) ts st, version (set key value ts st) = version st + 1)
  /\ (forall key ts st, version (delete key ts st) = version st + 1)
  /\ (forall st rd rt rvc,
        let r := merge_remote_state st rd rt rvc in
        version r.1 = if r.2 then version st + 1 else version st)
  /\ (forall (ops : list (op V)) st, version st <= version (run ops st)).
Proof.
  split; [apply version_set|]. split; [apply version_delete|].
  split; [apply version_merge|].
  induction ops as [|o ops IH]; intros st; simpl; [lia|].
  etrans; [apply (version_apply_op st o)|apply IH].
Qed.

End CRDT_state.

(** *** The scenarios, evaluated *)

Section CRDT_scenarios.

Local Open Scope string_scope.

Lemma get_tombstoned {V : Type} (st : CRDTState V) (k : string) :
  k ∈ dom (tombstones st) -> get k st = None.
Proof. intros H. unfold get. by case_decide. Qed.

(** C1, on the code.  A key that has a tombstone reads as [None] whatever
    the register under it: in the delete-then-set scenario [B] ends with
    the register [("v2", 3.0, "A")] written under the tombstone
    [(2.0, "A")], and [B.get("k")] is [None] while [A.get("k")] is ["v2"]. *)
Theorem get_after_restore :
  (forall (st : CRDTState string) k v ts n tts tn,
     data st !! k = Some (v, ts, n) -> tombstones st !! k = Some (tts, tn) ->
     get k st = None)
  /\ get "k" B2 = None
  /\ get "k" A3 = Some "v2"
  /\ data B3 !! "k" = Some ("v2", 3, "A")
  /\ tombstones B3 !! "k" = Some (2, "A")
  /\ newer 3 "A" 2 "A" = true
  /\ get "k" B3 = None
  /\ get "k" (merge (merge (init "B") tomb_k_2).1 live_k_3).1 = None.
Proof.
  split.
  { intros st k v ts n tts tn _ Ht. apply get_tombstoned, elem_of_dom. by rewrite Ht. }
  repeat split; vm_compute; reflexivity.
Qed.



(** C4, as stated, fails at equality: a register with the very
    [(timestamp, node_id)] of the local tombstone is written. *)
Lemma tombstone_tie_written :
  tombstones B_tomb !! "k" = Some (2, "A")
  /\ data_should_update B_tomb "k" 2 "A" = true
  /\ data (merge_remote_state B_tomb {["k" := ("v", 2, "A")]} ∅ ∅).1 !! "k"
     = Some ("v", 2, "A").
Proof. repeat split; vm_compute; reflexivity. Qed.

Lemma merge_data_under_tombstone_witness :
  data (merge_data_loop (B_tomb, false)
          (map_to_list ({["k" := ("v", 1, "A")]} : gmap string (string * Z * string)))).1
    !! "k" = None.
Proof.
  refine (proj2 (proj1 (merge_data_under_tombstone B_tomb
            {["k" := ("v", 1, "A")]} "k" "v" 1 "A" 2 "A" _ _) _)).
  - reflexivity.
  - reflexivity.
  - reflexivity.
Defined.

Lemma merge_keeps_tombstones_witness :
  data (merge B_tomb live_k_3).1 !! "k" = Some ("v2", 3, "A")
  /\ tombstones (merge B_tomb live_k_3).1 !! "k" = Some (2, "A").
Proof.
  refine (proj1 (proj2 (proj2 (merge_keeps_tombstones B_tomb
            {["k" := ("v2", 3, "A")]} ∅ ∅ "k" 2 "A" _))) "v2" 3 "A" _ _ _ _).
  - reflexivity.
  - reflexivity.
  - reflexivity.
  - reflexivity.
  - reflexivity.
Defined.

End CRDT_scenarios.

(** ** Part IV.  Properties of the wire format *)

Lemma Z_of_byte_range (b : byte) : 0 <= Z_of_byte b <= 255.
Proof.
  unfold Z_of_byte. pose proof (Byte.to_N_bounded b). lia.
Qed.

Lemma byte_of_Z_of_byte (b : byte) : byte_of_Z (Z_of_byte b) = b.
Proof.
  unfold byte_of_Z, Z_of_byte. by rewrite N2Z.id, Byte.of_to_N.
Qed.

Lemma Z_of_byte_of_Z (z : Z) : 0 <= z <= 255 -> Z_of_byte (byte_of_Z z) = z.
Proof.
  intros Hz. unfold byte_of_Z, Z_of_byte.
  destruct (Byte.of_N (Z.to_N z)) as [b|] eqn:Hb.
  - apply Byte.to_of_N in Hb. simpl. rewrite Hb. lia.
  - apply Byte.of_N_None_iff in Hb. lia.
Qed.

Lemma land_255 (x : Z) : Z.land x 255 = x mod 256.
Proof. exact (Z.land_ones x 8 ltac:(lia)). Qed.

Lemma of_be32_be32 (n : Z) :
  0 <= n <= 4294967295 ->
  match be32 n with
  | [b3; b2; b1; b0] => of_be32 b3 b2 b1 b0 = n
  | _ => False
  end.
Proof.
  intros Hn. unfold be32, of_be32.
  rewrite !land_255, !Z.shiftr_div_pow2 by lia.
  rewrite !Z_of_byte_of_Z
    by (match goal with |- _ <= ?x mod 256 <= _ =>
          pose proof (Z.mod_pos_bound x 256 ltac:(lia)); lia end).
  rewrite !Z.shiftl_mul_pow2 by lia.
  change (2 ^ 24) with 16777216. change (2 ^ 16) with 65536. change (2 ^ 8) with 256.
  Z.to_euclidean_division_equations. lia.
Qed.

Lemma unpack_pack_BBII (a b c d : Z) (h : list byte) :
  pack_BBII a b c d = Some h ->
  length h = 10%nat /\ unpack_BBII h = Some (a, b, c, d).
Proof.
  unfold pack_BBII, fits_B, fits_I.
  destruct (_ && _) eqn:Hfit; [|done]. intros [= <-].
  repeat (apply andb_prop in Hfit as [Hfit ?]).
  split; [done|].
  pose proof (of_be32_be32 c ltac:(lia)) as Hc.
  pose proof (of_be32_be32 d ltac:(lia)) as Hd.
  unfold be32 in *. cbn [app unpack_BBII].
  rewrite Hc, Hd, !Z_of_byte_of_Z by lia. done.
Qed.

Lemma pack_BBII_Some (a b c d : Z) :
  0 <= a <= 255 -> 0 <= b <= 255 -> 0 <= c <= 4294967295 -> 0 <= d <= 4294967295 ->
  exists h, pack_BBII a b c d = Some h.
Proof.
  intros. unfold pack_BBII, fits_B, fits_I.
  destruct (_ && _) eqn:Hfit; [eauto|].
  exfalso. rewrite !andb_false_iff in Hfit. lia.
Qed.

(** [int(s, 16)] of at most eight digits fits in 32 bits. *)
Lemma hex_value_range (c : ascii) : 0 <= hex_value c <= 15.
Proof. unfold hex_value. repeat case_match; lia. Qed.

Lemma int_base16_range_from (l : list ascii) (acc : Z) :
  0 <= acc ->
  0 <= foldl (fun acc c => 16 * acc + hex_value c) acc l
    < (acc + 1) * 16 ^ Z.of_nat (length l).
Proof.
  revert acc. induction l as [|c l IH]; intros acc Hacc.
  { simpl. lia. }
  cbn [foldl length]. pose proof (hex_value_range c) as Hc.
  specialize (IH (16 * acc + hex_value c) ltac:(lia)).
  rewrite Nat2Z.inj_succ, Z.pow_succ_r by lia. nia.
Qed.

Lemma substring_length_le (n : nat) (s : string) :
  (String.length (substring 0 n s) <= n)%nat.
Proof.
  revert s. induction n as [|n IH]; intros [|c s]; simpl; try lia.
  specialize (IH s). lia.
Qed.

Lemma length_list_ascii_of_string (s : string) :
  length (list_ascii_of_string s) = String.length s.
Proof. induction s; simpl; congruence. Qed.

Lemma checksum_range (data : list byte) : 0 <= _calculate_checksum data <= 4294967295.
Proof.
  unfold _calculate_checksum, int_base16.
  pose proof (int_base16_range_from
    (list_ascii_of_string (substring 0 8 (MD5.hexdigest data))) 0 ltac:(lia)) as Hr.
  rewrite length_list_ascii_of_string in Hr.
  pose proof (substring_length_le 8 (MD5.hexdigest data)) as Hl.
  assert (16 ^ Z.of_nat (String.length (substring 0 8 (MD5.hexdigest data))) <= 16 ^ 8).
  { apply Z.pow_le_mono_r; lia. }
  change (16 ^ 8) with 4294967296 in *. lia.
Qed.

Section Packet_props.

Context {P : Type} `{JsonCodec P}.
Implicit Types (p : ReliableUDPPacket P) (now : Q).

Lemma slice_app_header {A : Type} (h b : list A) :
  length h = 10%nat ->
  slice_to HEADER_SIZE (h ++ b) = h /\ slice_from HEADER_SIZE (h ++ b) = b
  /\ (len (h ++ b) <? HEADER_SIZE) = false.
Proof.
  intros Hh. unfold slice_to, slice_from, len, HEADER_SIZE.
  change (Z.to_nat 10) with 10%nat. rewrite <- Hh.
  rewrite take_app_length, drop_app_length. repeat split.
  apply Z.ltb_ge. rewrite length_app. lia.
Qed.

(** A datagram made of a header packed for the checksum of [b], followed
    by [b], passes the three checks of [deserialize]; what is left is the
    decoding of [b]. *)
Lemma deserialize_at_packed now ptype seq (b h : list byte) :
  pack_BBII VERSION ptype seq (_calculate_checksum b) = Some h ->
  deserialize_at now (h ++ b)
  = match json_loads b with
    | Some payload => inl (mkPacket ptype seq payload now)
    | None => inr DeserializationError
    end.
Proof.
  intros Hpack. apply unpack_pack_BBII in Hpack as [Hlen Hun].
  destruct (slice_app_header h b Hlen) as (Hto & Hfrom & Hshort).
  unfold deserialize_at. rewrite Hshort, Hto, Hun, Hfrom.
  by rewrite !Z.eqb_refl.
Qed.

(** C8.  A packet whose payload encodes to at most [MAX_PAYLOAD_SIZE]
    bytes and decodes back to itself, whose [seq_num] fits in 32 bits and
    whose [packet_type] fits in a byte, serializes to a datagram that
    deserializes to the same [packet_type], [seq_num] and [payload]; the
    [timestamp] is the receiver's. *)
Theorem deserialize_serialize p now :
  len (json_dumps (payload p)) <= MAX_PAYLOAD_SIZE ->
  json_loads (json_dumps (payload p)) = Some (payload p) ->
  0 <= seq_num p < 2 ^ 32 ->
  0 <= packet_type p < 2 ^ 8 ->
  exists data,
    serialize p = Some data
    /\ deserialize now data
       = Some (mkPacket (packet_type p) (seq_num p) (payload p) now).
Proof.
  intros Hlen Hjson Hseq Htype.
  unfold serialize, deserialize.
  destruct (len (json_dumps (payload p)) >? MAX_PAYLOAD_SIZE) eqn:Hcut.
  { apply Z.gtb_lt in Hcut. lia. }
  pose proof (checksum_range (json_dumps (payload p))) as Hc.
  destruct (pack_BBII_Some VERSION (packet_type p) (seq_num p)
              (_calculate_checksum (json_dumps (payload p)))) as [h Hh];
    [unfold VERSION; lia | lia | lia | lia |].
  rewrite Hh. eexists; split; [done|].
  by rewrite (deserialize_at_packed now _ _ _ _ Hh), Hjson.
Qed.


End Packet_props.

(** The datagram of the packet of [test_udp_packet], byte for byte as
    [struct], [json] and [hashlib] make it. *)
Example serialize_test_packet :
  map Z_of_byte <$> serialize test_packet
  = Some [1; 0; 0; 0; 0; 42; 111; 234; 116; 138;
          123; 34; 116; 101; 115; 116; 34; 58; 32; 34; 100; 97; 116; 97; 34; 125].
Proof. by vm_compute. Qed.

Lemma deserialize_serialize_witness :
  exists data,
    serialize test_packet = Some data
    /\ deserialize 5 data
       = Some (mkPacket PacketType.DATA 42 [("test"%string, JStr "data")] 5%Q).
Proof.
  apply (deserialize_serialize test_packet 5).
  - by vm_compute.
  - by vm_compute.
  - by vm_compute.
  - by vm_compute.
Defined.



(** ** Part V.  Properties of the receive path *)

Lemma of_be32_range (b3 b2 b1 b0 : byte) : 0 <= of_be32 b3 b2 b1 b0 <= 4294967295.
Proof.
  unfold of_be32. rewrite !Z.shiftl_mul_pow2 by lia.
  pose proof (Z_of_byte_range b3). pose proof (Z_of_byte_range b2).
  pose proof (Z_of_byte_range b1). pose proof (Z_of_byte_range b0).
  change (2 ^ 24) with 16777216. change (2 ^ 16) with 65536. change (2 ^ 8) with 256.
  lia.
Qed.

Lemma unpack_BBII_range (h : list byte) (a b c d : Z) :
  unpack_BBII h = Some (a, b, c, d) ->
  0 <= a <= 255 /\ 0 <= b <= 255 /\ 0 <= c <= 4294967295 /\ 0 <= d <= 4294967295.
Proof.
  unfold unpack_BBII.
  do 11 (destruct h as [|? h]; try done). intros [= <- <- <- <-].
  auto using Z_of_byte_range, of_be32_range.
Qed.

Section Receive_props.

Context {P : Type} `{JsonCodec P}.
Implicit Types (sock : ReliableUDPSocket P) (packet : ReliableUDPPacket P).
Implicit Types (addr a : address) (evs : list (event P)) (now : Q).

Lemma deserialize_range now data packet :
  deserialize now data = Some packet ->
  0 <= packet_type packet <= 255 /\ 0 <= seq_num packet <= 4294967295.
Proof.
  unfold deserialize, deserialize_at.
  destruct (len data <? HEADER_SIZE); [done|].
  destruct (unpack_BBII _) as [[[[v t] s] c]|] eqn:Hun; [|done].
  apply unpack_BBII_range in Hun.
  destruct (negb (v =? VERSION)); [done|].
  destruct (negb (_ =? c)); [done|].
  destruct (json_loads _); [|done]. intros [= <-]. simpl. lia.
Qed.

Lemma serialize_Some (p : ReliableUDPPacket P) :
  0 <= packet_type p <= 255 -> 0 <= seq_num p <= 4294967295 ->
  exists data, serialize p = Some data.
Proof.
  intros Ht Hs. unfold serialize.
  set (b := if len _ >? _ then _ else _).
  pose proof (checksum_range b) as Hc.
  destruct (pack_BBII_Some VERSION (packet_type p) (seq_num p)
              (_calculate_checksum b)) as [h Hh];
    [unfold VERSION; lia | lia | lia | lia |].
  rewrite Hh. eauto.
Qed.

Lemma _send_ack_Some now addr seq :
  0 <= seq <= 4294967295 ->
  exists ack,
    serialize (mkPacket PacketType.ACK seq (ack_payload seq) now) = Some ack
    /\ _send_ack now addr seq = Some (SendTo ack addr).
Proof.
  intros Hs.
  destruct (serialize_Some (mkPacket PacketType.ACK seq (ack_payload seq) now))
    as [ack Hack]; simpl; [unfold PacketType.ACK; lia | lia |].
  exists ack. split; [done|]. unfold _send_ack. by rewrite Hack.
Qed.

Lemma seqs_read_spec addr (m : gmap address (gset Z)) :
  (seqs_read addr m).1 = default ∅ (m !! addr)
  /\ forall a, default ∅ ((seqs_read addr m).2 !! a) = default ∅ (m !! a).
Proof.
  unfold seqs_read. destruct (m !! addr) as [s|] eqn:Hm; simpl; [done|].
  split; [done|]. intros a. destruct (decide (a = addr)) as [->|Hne].
  - by rewrite lookup_insert_eq, Hm.
  - by rewrite lookup_insert_ne.
Qed.

(** One reception of a datagram that deserializes to a packet other than
    an ACK. *)
Lemma receive_one_data now sock data addr packet :
  deserialize now data = Some packet ->
  packet_type packet <> PacketType.ACK ->
  exists ack,
    serialize (mkPacket PacketType.ACK (seq_num packet)
                 (ack_payload (seq_num packet)) now) = Some ack
    /\ let r := receive_one now sock data addr in
       (seq_num packet ∈ seen sock addr ->
          r.2 = [SendTo ack addr] /\ seen r.1 addr = seen sock addr)
       /\ (seq_num packet ∉ seen sock addr ->
             r.2 = SendTo ack addr
                   :: (if decide (packet_type packet ∈ handlers sock)
                       then [Dispatch packet addr] else [])
             /\ seen r.1 addr = {[seq_num packet]} ∪ seen sock addr)
       /\ (forall a, a <> addr -> seen r.1 a = seen sock a).
Proof.
  intros Hd Hna.
  destruct (deserialize_range _ _ _ Hd) as [_ Hseq].
  destruct (_send_ack_Some now addr (seq_num packet) Hseq) as (ack & Hser & Hack).
  exists ack. split; [done|].
  unfold receive_one. rewrite Hd.
  destruct (packet_type packet =? PacketType.ACK) eqn:Hty.
  { apply Z.eqb_eq in Hty. done. }
  destruct (seqs_read_spec addr (received_seqs sock)) as [Hs1 Hs2].
  destruct (seqs_read addr (received_seqs sock)) as [s m]. simpl in Hs1, Hs2.
  rewrite Hack. unfold seen. subst s.
  case_decide as Hin; cbn zeta; simpl.
  - split; [|split].
    + intros _. split; [done|]. apply Hs2.
    + done.
    + intros a _. apply Hs2.
  - split; [|split].
    + done.
    + intros _. split; [done|]. by rewrite lookup_insert_eq.
    + intros a Hne. rewrite lookup_insert_ne by done. apply Hs2.
Qed.

Lemma receive_one_other now sock data addr :
  (deserialize now data = None
   \/ exists packet, deserialize now data = Some packet
                     /\ packet_type packet = PacketType.ACK) ->
  let r := receive_one now sock data addr in
  r.2 = [] /\ received_seqs r.1 = received_seqs sock.
Proof.
  unfold receive_one. intros [->|(packet & -> & Hty)]; [done|].
  rewrite Hty, Z.eqb_refl. simpl. unfold _handle_ack.
  destruct (payload_ack _); [|done]. by case_decide.
Qed.

Lemma dispatch_count_app addr seq evs1 evs2 :
  dispatch_count addr seq (evs1 ++ evs2)
  = (dispatch_count addr seq evs1 + dispatch_count addr seq evs2)%nat.
Proof. unfold dispatch_count. by rewrite List.filter_app, length_app. Qed.

(** What one iteration adds to the calls for [(a, s)]. *)
Lemma receive_one_dispatch now sock data addr a s :
  let r := receive_one now sock data addr in
  seen sock a ⊆ seen r.1 a
  /\ (s ∈ seen sock a -> dispatch_count a s r.2 = 0%nat)
  /\ (dispatch_count a s r.2 <= 1)%nat
  /\ (dispatch_count a s r.2 = 1%nat -> s ∈ seen r.1 a).
Proof.
  destruct (deserialize now data) as [packet|] eqn:Hd.
  2:{ destruct (receive_one_other now sock data addr (or_introl Hd)) as [He Hr].
      cbn zeta. unfold seen, dispatch_count. rewrite He, Hr. simpl.
      repeat split; try done; lia. }
  destruct (decide (packet_type packet = PacketType.ACK)) as [Hty|Hty].
  { destruct (receive_one_other now sock data addr
                (or_intror (ex_intro _ packet (conj Hd Hty)))) as [He Hr].
    cbn zeta. unfold seen, dispatch_count. rewrite He, Hr. simpl.
      repeat split; try done; lia. }
  destruct (receive_one_data now sock data addr packet Hd Hty)
    as (ack & _ & Hin & Hout & Hother).
  cbn zeta in *. set (r := receive_one now sock data addr) in *.
  destruct (decide (seq_num packet ∈ seen sock addr)) as [Hseen|Hseen].
  - destruct (Hin Hseen) as [He Hs]. rewrite He.
    assert (Hsame : seen r.1 a = seen sock a).
    { destruct (decide (a = addr)) as [->|Hne]; [done|by apply Hother]. }
    rewrite Hsame. unfold dispatch_count. simpl. repeat split; try done; lia.
  - destruct (Hout Hseen) as [He Hs]. rewrite He.
    unfold dispatch_count. cbn [List.filter is_dispatch_of].
    destruct (decide (a = addr)) as [->|Hne].
    + rewrite Hs. split; [apply union_subseteq_r|].
      case_decide; cbn [List.filter is_dispatch_of length].
      * rewrite bool_decide_eq_true_2 by done. cbn [andb].
        destruct (seq_num packet =? s) eqn:Hs'; cbn [length].
        -- apply Z.eqb_eq in Hs'. subst s.
           repeat split; try done; try lia.
           intros _. apply elem_of_union_l. by apply elem_of_singleton.
        -- repeat split; try done; lia.
      * repeat split; try done; lia.
    + rewrite (Hother a Hne). split; [done|].
      case_decide; cbn [List.filter is_dispatch_of length].
      * rewrite bool_decide_eq_false_2 by done. cbn [andb length].
        repeat split; try done; lia.
      * repeat split; try done; lia.
Qed.

Lemma receive_loop_dispatch inbox sock evs0 a s :
  let r := foldl receive_step (sock, evs0) inbox in
  (dispatch_count a s r.2 <= dispatch_count a s evs0 + 1)%nat
  /\ (s ∈ seen sock a -> dispatch_count a s r.2 = dispatch_count a s evs0).
Proof.
  revert sock evs0. induction inbox as [|[[now data] addr] inbox IH];
    intros sock evs0; cbn zeta.
  { simpl. split; [lia|done]. }
  cbn [foldl receive_step].
  pose proof (receive_one_dispatch now sock data addr a s) as Hstep.
  destruct (receive_one now sock data addr) as [sock1 evs1].
  cbn zeta in Hstep. simpl in Hstep. destruct Hstep as (Hmono & Hzero & Hle & Hone).
  specialize (IH sock1 (evs0 ++ evs1)). cbn zeta in IH.
  rewrite dispatch_count_app in IH. destruct IH as [IH1 IH2].
  split.
  - destruct (decide (dispatch_count a s evs1 = 1%nat)) as [H1|H1].
    + rewrite IH2 by auto. lia.
    + lia.
  - intros Hs. rewrite IH2 by (apply Hmono, Hs). rewrite (Hzero Hs). lia.
Qed.

(** C6.  A datagram that deserializes to a packet other than an ACK is
    answered by one ACK for its sequence number, sent to its source, at
    every reception; its handler is called only when the pair of source
    and sequence number is not in the received set, which then holds it.
    Hence, over any run of the receive loop, the handler is called at
    most once for a pair, and never for a pair the set held at the start. *)
Theorem receive_dedup :
  (forall now sock data addr packet,
     deserialize now data = Some packet ->
     packet_type packet <> PacketType.ACK ->
     exists ack,
       serialize (mkPacket PacketType.ACK (seq_num packet)
                    (ack_payload (seq_num packet)) now) = Some ack
       /\ let r := receive_one now sock data addr in
          (seq_num packet ∈ seen sock addr ->
             r.2 = [SendTo ack addr] /\ seen r.1 addr = seen sock addr)
          /\ (seq_num packet ∉ seen sock addr ->
                r.2 = SendTo ack addr
                      :: (if decide (packet_type packet ∈ handlers sock)
                          then [Dispatch packet addr] else [])
                /\ seen r.1 addr = {[seq_num packet]} ∪ seen sock addr))
  /\ (forall sock inbox addr seq,
        let r := receive_loop sock inbox in
        (dispatch_count addr seq r.2 <= 1)%nat
        /\ (seq ∈ seen sock addr -> dispatch_count addr seq r.2 = 0%nat)).
Proof.
  split.
  - intros now sock data addr packet Hd Hty.
    destruct (receive_one_data now sock data addr packet Hd Hty)
      as (ack & Hser & Hin & Hout & _).
    exists ack. split; [done|]. cbn zeta. split; [exact Hin|exact Hout].
  - intros sock inbox addr seq.
    pose proof (receive_loop_dispatch inbox sock [] addr seq) as [H1 H2].
    split; [exact H1|exact H2].
Qed.

End Receive_props.

(** ** Part VI.  Properties of the retransmission scan *)

Lemma Qgt_bool_iff (a b : Q) : Qgt_bool a b = true <-> (b < a)%Q.
Proof.
  unfold Qgt_bool. rewrite negb_true_iff.
  split.
  - intros Hle. apply Qnot_le_lt. intros Hab.
    apply Qle_bool_iff in Hab. congruence.
  - intros Hlt. destruct (Qle_bool a b) eqn:Hle; [|done].
    apply Qle_bool_iff in Hle. exfalso. by apply (Qlt_not_le b a).
Qed.

Section Retry_props.

Context {P : Type} `{JsonCodec P}.
Local Abbreviation entry := (ReliableUDPPacket P * Q * Z * address)%type.
Implicit Types (pending m : gmap Z entry) (now : Q) (clock : Z -> Q).
Implicit Types (to_retry : list (Z * ReliableUDPPacket P * Z * address)).

Lemma scan_step_cases now m to_retry seq (e : entry) :
  scan_step now (m, to_retry) (seq, e)
  = (if gives_up now e then base.delete seq m else m,
     if retries_it now e
     then to_retry ++ [(seq, e.1.1.1, e.1.2, e.2)] else to_retry).
Proof.
  destruct e as [[[packet send_time] retries] addr]. simpl.
  destruct (expired now send_time retries); [|done].
  by destruct (retries >=? MAX_RETRIES).
Qed.

(** The first loop over any duplicate-free enumeration [l] of entries. *)
Lemma scan_fold now (l : list (Z * entry)) m to_retry :
  NoDup l.*1 ->
  let r := foldl (scan_step now) (m, to_retry) l in
  (forall seq, r.1 !! seq
     = match (list_to_map l : gmap Z entry) !! seq with
       | Some e => if gives_up now e then None else m !! seq
       | None => m !! seq
       end)
  /\ (forall x, x ∈ r.2 <->
        x ∈ to_retry
        \/ exists seq e, (seq, e) ∈ l /\ retries_it now e = true
                         /\ x = (seq, e.1.1.1, e.1.2, e.2))
  /\ (NoDup (to_retry.*1.*1.*1) ->
      (forall x, x ∈ to_retry -> x.1.1.1 ∉ l.*1) ->
      NoDup (r.2.*1.*1.*1)).
Proof.
  revert m to_retry. induction l as [|[seq0 e0] l IH]; intros m to_retry Hnd.
  { cbn zeta. simpl. split; [intros; by rewrite lookup_empty|].
    split; [|done]. intros x. split; [auto|]. intros [?|(? & ? & Hin & _)]; [done|].
    by apply elem_of_nil in Hin. }
  rewrite fmap_cons, NoDup_cons in Hnd. destruct Hnd as [Hk0 Hnd]. simpl in Hk0.
  cbn [foldl]. rewrite scan_step_cases.
  specialize (IH (if gives_up now e0 then base.delete seq0 m else m)
                 (if retries_it now e0
                  then to_retry ++ [(seq0, e0.1.1.1, e0.1.2, e0.2)] else to_retry) Hnd).
  cbn zeta in *. destruct IH as (IHt & IHr & IHn).
  split; [|split].
  - intros seq. rewrite IHt, list_to_map_cons.
    destruct (decide (seq = seq0)) as [->|Hne].
    + rewrite lookup_insert_eq, (not_elem_of_list_to_map_1 l seq0 Hk0).
      destruct (gives_up now e0); [by rewrite lookup_delete_eq|done].
    + rewrite lookup_insert_ne by done.
      destruct (gives_up now e0); [by rewrite lookup_delete_ne|done].
  - intros x. rewrite IHr. split.
    + intros [Hx|(seq & e & Hin & Hr & ->)].
      * destruct (retries_it now e0) eqn:Hr0; [|by left].
        apply elem_of_app in Hx as [Hx|Hx]; [by left|].
        apply list_elem_of_singleton in Hx. right.
        exists seq0, e0. split; [apply list_elem_of_here|done].
      * right. exists seq, e. split; [by apply list_elem_of_further|done].
    + intros [Hx|(seq & e & Hin & Hr & ->)].
      * left. destruct (retries_it now e0); [|done].
        apply elem_of_app. by left.
      * apply elem_of_cons in Hin as [[= -> ->]|Hin].
        -- left. rewrite Hr. apply elem_of_app. right. by apply list_elem_of_singleton.
        -- right. eauto.
  - intros Hnd0 Hfresh. apply IHn.
    + destruct (retries_it now e0); [|done].
      rewrite !fmap_app, NoDup_app. split; [done|]. split.
      * intros k Hk Hk'. simpl in Hk'. apply list_elem_of_singleton in Hk'. subst k.
        apply list_elem_of_fmap in Hk as (y1 & -> & Hk).
        apply list_elem_of_fmap in Hk as (y2 & -> & Hk).
        apply list_elem_of_fmap in Hk as (y3 & -> & Hk).
        apply (Hfresh y3 Hk). rewrite fmap_cons. apply list_elem_of_here.
      * simpl. apply NoDup_singleton.
    + intros x Hx. destruct (retries_it now e0).
      * apply elem_of_app in Hx as [Hx|Hx].
        -- intros Hin. apply (Hfresh x Hx). rewrite fmap_cons.
           by apply list_elem_of_further.
        -- apply list_elem_of_singleton in Hx. by subst x.
      * intros Hin. apply (Hfresh x Hx). rewrite fmap_cons.
        by apply list_elem_of_further.
Qed.

(** The second loop, when every packet it is given serializes. *)
Lemma resend_fold clock to_retry (acc : resend_state P) :
  running acc = true ->
  NoDup (to_retry.*1.*1.*1) ->
  (forall x, x ∈ to_retry -> is_Some (serialize x.1.1.2)) ->
  let r := foldl (resend_step clock) acc to_retry in
  running r = true
  /\ (forall seq, table r !! seq
        = match list_find (fun x => x.1.1.1 = seq) to_retry with
          | Some (_, (_, packet, retries, addr)) =>
              if decide (seq ∈ dom (table acc))
              then Some (packet, clock seq, retries + 1, addr)
              else None
          | None => table acc !! seq
          end)
  /\ (forall e, e ∈ sent r <->
        e ∈ sent acc
        \/ exists x data, x ∈ to_retry /\ serialize x.1.1.2 = Some data
                          /\ e = SendTo data x.2).
Proof.
  revert acc. induction to_retry as [|[[[seq0 packet0] retries0] addr0] l IH];
    intros acc Hrun Hnd Hser.
  { cbn zeta. simpl. split; [done|]. split; [done|].
    intros e. split; [auto|]. intros [?|(x & ? & Hx & _)]; [done|].
    by apply elem_of_nil in Hx. }
  rewrite !fmap_cons, NoDup_cons in Hnd. destruct Hnd as [Hk0 Hnd]. simpl in Hk0.
  destruct (Hser _ (list_elem_of_here _ _)) as [data0 Hd0]. simpl in Hd0.
  cbn [foldl]. cbn [resend_step]. rewrite Hrun, Hd0.
  set (acc1 := mkResend _ _ true).
  specialize (IH acc1 eq_refl Hnd
                 (fun x Hx => Hser x (list_elem_of_further _ _ _ Hx))).
  cbn zeta in *. destruct IH as (IHrun & IHt & IHs).
  split; [done|]. split.
  - intros seq. rewrite IHt. cbn [list_find]. simpl.
    destruct (decide (seq0 = seq)) as [->|Hne].
    + assert (list_find (fun x : Z * ReliableUDPPacket P * Z * address => x.1.1.1 = seq) l
              = None) as ->.
      { apply list_find_None, Forall_forall. intros x Hx Heq. apply Hk0.
        rewrite <- Heq. do 3 (apply list_elem_of_fmap; eexists; split; [done|]). done. }
      simpl. case_decide as Hin.
      * by rewrite lookup_insert_eq.
      * by apply not_elem_of_dom.
    + destruct (list_find _ l) as [[i [[[s' p'] r'] a']]|] eqn:Hf; simpl.
      * apply list_find_Some in Hf as (_ & Heq & _). simpl in Heq. subst s'.
        assert (seq ∈ dom (table acc1) <-> seq ∈ dom (table acc)) as Hdom.
        { simpl. case_decide; [|done].
          rewrite dom_insert_L, elem_of_union, elem_of_singleton.
          split; [intros [?|?]; [congruence|done] | auto]. }
        repeat case_decide; try done; tauto.
      * case_decide; [by rewrite lookup_insert_ne|done].
  - intros e. rewrite IHs. simpl. rewrite elem_of_app, list_elem_of_singleton. split.
    + intros [[He| ->]|(x & data & Hx & Hd & ->)].
      * by left.
      * right. exists (seq0, packet0, retries0, addr0), data0.
        split; [apply list_elem_of_here|done].
      * right. exists x, data. split; [by apply list_elem_of_further|done].
    + intros [He|(x & data & Hx & Hd & ->)].
      * by left; left.
      * apply elem_of_cons in Hx as [->|Hx].
        -- left; right. simpl in Hd |- *. rewrite Hd0 in Hd. by injection Hd as ->.
        -- right. eauto.
Qed.

Lemma retry_pass_unfold now clock pending :
  let s := foldl (scan_step now) (pending, []) (map_to_list pending) in
  retry_pass now clock pending
  = foldl (resend_step clock) (mkResend s.1 [] true) s.2.
Proof.
  unfold retry_pass, scan. cbn zeta.
  by destruct (foldl (scan_step now) (pending, []) (map_to_list pending)).
Qed.

(** The table and the datagrams after one pass. *)
Lemma retry_pass_facts now clock pending :
  serializable pending ->
  let res := retry_pass now clock pending in
  running res = true
  /\ (forall seq, table res !! seq
        = match pending !! seq with
          | Some (packet, send_time, r, addr) =>
              if expired now send_time r
              then if r >=? MAX_RETRIES then None
                   else Some (packet, clock seq, r + 1, addr)
              else Some (packet, send_time, r, addr)
          | None => None
          end)
  /\ (forall e, e ∈ sent res <->
        exists seq packet send_time r addr data,
          pending !! seq = Some (packet, send_time, r, addr)
          /\ expired now send_time r = true
          /\ (r >=? MAX_RETRIES) = false
          /\ serialize packet = Some data
          /\ e = SendTo data addr).
Proof.
  intros Hser res. unfold res. rewrite retry_pass_unfold. cbn zeta.
  destruct (scan_fold now (map_to_list pending) pending []
              (NoDup_fst_map_to_list _)) as (Ht & Hr & Hn).
  rewrite list_to_map_to_list in Ht.
  set (s := foldl (scan_step now) (pending, []) (map_to_list pending)) in *.
  assert (Hmem : forall x, x ∈ s.2 <->
            exists seq' e, pending !! seq' = Some e /\ retries_it now e = true
                           /\ x = (seq', e.1.1.1, e.1.2, e.2)).
  { intros x. rewrite Hr. split.
    - intros [Hx|(seq' & e & Hin%elem_of_map_to_list & ?)];
        [by apply elem_of_nil in Hx | eauto].
    - intros (seq' & e & Hin%elem_of_map_to_list & ?). right. eauto. }
  destruct (resend_fold clock s.2 (mkResend s.1 [] true) eq_refl) as (Hrun & Htab & Hsent).
  { apply Hn; [apply NoDup_nil_2 | intros x Hx; by apply elem_of_nil in Hx]. }
  { intros x (seq' & e & He & _ & ->)%Hmem. simpl.
    exact (Hser seq' e He). }
  cbn zeta in *. cbn [table sent] in Htab, Hsent.
  split; [exact Hrun|]. split.
  - intros seq. rewrite Htab.
    destruct (list_find _ s.2) as [[i y]|] eqn:Hf.
    + apply list_find_Some in Hf as (Hy%list_elem_of_lookup_2 & Hkey & _).
      apply Hmem in Hy as (seq' & e & He & Hre & ->). simpl in Hkey. subst seq'.
      destruct e as [[[packet send_time] r] addr].
      cbn [retries_it] in Hre. apply andb_prop in Hre as [Hexp Hlt%negb_true_iff].
      rewrite He, Hexp, Hlt. cbn [fst snd].
      rewrite decide_True; [done|]. apply elem_of_dom.
      rewrite Ht, He. cbn [gives_up]. rewrite Hexp, Hlt. by eexists.
    + rewrite Ht.
      destruct (pending !! seq) as [[[[packet send_time] r] addr]|] eqn:He; [|done].
      cbn [gives_up]. destruct (expired now send_time r) eqn:Hexp; [|done].
      destruct (r >=? MAX_RETRIES) eqn:Hge; [done|]. exfalso.
      apply list_find_None in Hf. rewrite Forall_forall in Hf.
      apply (Hf (seq, packet, r, addr)); [|done].
      apply Hmem. exists seq, (packet, send_time, r, addr).
      split; [done|]. split; [|done]. cbn [retries_it]. by rewrite Hexp, Hge.
  - intros e. rewrite Hsent. split.
    + intros [He|(x & data & (seq' & e' & He' & Hr' & ->)%Hmem & Hd & ->)];
        [by apply elem_of_nil in He|].
      destruct e' as [[[packet' send_time'] r'] addr'].
      cbn [retries_it] in Hr'. cbn [fst snd] in Hd |- *.
      apply andb_prop in Hr' as [Hexp' Hlt'%negb_true_iff].
      exists seq', packet', send_time', r', addr', data. done.
    + intros (seq' & packet' & send_time' & r' & addr' & data & He & Hexp & Hge & Hd & ->).
      right. exists (seq', packet', r', addr'), data.
      split; [|done]. apply Hmem. exists seq', (packet', send_time', r', addr').
      split; [done|]. split; [|done]. cbn [retries_it]. by rewrite Hexp, Hge.
Qed.

(** The guard [if seq_num in self.pending_acks] of the second loop: an
    entry that an ACK has removed since the scan is sent once more and is
    not put back. *)
Lemma resend_step_acked clock (acc : resend_state P) seq packet retries addr data :
  running acc = true ->
  serialize packet = Some data ->
  table acc !! seq = None ->
  resend_step clock acc (seq, packet, retries, addr)
  = mkResend (table acc) (sent acc ++ [SendTo data addr]) true.
Proof.
  intros Hrun Hd Hnone. cbn [resend_step]. rewrite Hrun, Hd.
  rewrite decide_False; [done|]. by apply not_elem_of_dom.
Qed.

(** The tables a socket goes through are [serializable]. *)
Lemma serializable_empty : serializable (P:=P) ∅.
Proof. apply map_Forall_empty. Qed.

Lemma serializable_send_reliable now addr ptype (pl : P) (sock : ReliableUDPSocket P) :
  serializable (pending_acks sock) ->
  serializable (pending_acks (send_reliable now addr ptype pl sock).1.1).
Proof.
  intros Hs. unfold send_reliable.
  destruct (serialize _) as [data|] eqn:Hd; simpl; [|done].
  apply map_Forall_insert_2; [|done]. simpl. by rewrite Hd.
Qed.

Lemma serializable_handle_ack (sock : ReliableUDPSocket P) packet addr :
  serializable (pending_acks sock) ->
  serializable (pending_acks (_handle_ack sock packet addr)).
Proof.
  intros Hs. unfold _handle_ack. destruct (payload_ack _); [|done].
  case_decide; [|done]. simpl. by apply map_Forall_delete.
Qed.

Lemma serializable_retry_pass now clock pending :
  serializable pending -> serializable (table (retry_pass now clock pending)).
Proof.
  intros Hs. destruct (retry_pass_facts now clock pending Hs) as (_ & Htab & _).
  intros seq e He. rewrite Htab in He.
  destruct (pending !! seq) as [[[[packet send_time] r] addr]|] eqn:Hp; [|done].
  pose proof (Hs seq _ Hp) as Hok. simpl in Hok.
  destruct (expired now send_time r).
  - destruct (r >=? MAX_RETRIES); [done|]. by injection He as <-.
  - by injection He as <-.
Qed.


End Retry_props.

(** ** Part VII.  The transport, evaluated *)

(** A datagram received twice: one call of the handler, two ACKs. *)
Example receive_duplicate :
  deserialize 5 test_datagram
  = Some (mkPacket PacketType.DATA 42 [("test"%string, JStr "data")] 5%Q)
  /\ (receive_loop listening [(5%Q, test_datagram, peer); (6%Q, test_datagram, peer)]).2
     = [ SendTo ack_42 peer;
         Dispatch (mkPacket PacketType.DATA 42 [("test"%string, JStr "data")] 5%Q) peer;
         SendTo ack_42 peer ].
Proof. split; vm_compute; reflexivity. Qed.

Lemma receive_dedup_witness :
  exists ack,
    serialize (mkPacket PacketType.ACK 42 (ack_payload 42) 5%Q) = Some ack
    /\ (receive_one 5 listening test_datagram peer).2
       = SendTo ack peer
         :: (if decide (PacketType.DATA ∈ handlers listening)
             then [Dispatch (mkPacket PacketType.DATA 42
                               [("test"%string, JStr "data")] 5%Q) peer]
             else []).
Proof.
  destruct (proj1 receive_dedup 5%Q listening test_datagram peer
              (mkPacket PacketType.DATA 42 [("test"%string, JStr "data")] 5%Q))
    as (ack & Hser & _ & Hnew).
  - vm_compute; reflexivity.
  - vm_compute; discriminate.
  - exists ack. split; [exact Hser|].
    apply Hnew. unfold seen, listening, register_handler, new_socket. simpl.
    rewrite lookup_empty. apply not_elem_of_empty.
Defined.

(** The pass at 10 s over [in_flight]: the first packet is sent again and
    its entry rewritten, the second entry is given up, the third is left. *)
Example retry_pass_in_flight :
  let res := retry_pass 10 clock_10 in_flight in
  running res = true
  /\ table res !! 0 = Some (numbered 0, clock_10 0, 1, peer)
  /\ table res !! 1 = None
  /\ table res !! 2 = Some (numbered 2, 9.5%Q, 1, peer)
  /\ (map Z_of_byte <$> serialize (numbered 0))
     = Some [1; 0; 0; 0; 0; 0; 218; 164; 116; 65; 123; 34; 110; 34; 58; 32; 48; 125]
  /\ Some (sent res) = (fun data => [SendTo data peer]) <$> serialize (numbered 0).
Proof. repeat split; vm_compute; reflexivity. Qed.


(** ** Part VIII.  More properties of the register store *)

Section CRDT_more.

Context {V : Type}.
Implicit Types (st a b : CRDTState V) (k key : string).
Implicit Types (rd : gmap string (V * Z * string)) (rt : gmap string (Z * string)).
Implicit Types (rvc : gmap string Z).

Lemma get_get_cell st k : get k st = get_cell (data st !! k) (tombstones st !! k).
Proof.
  unfold get, get_cell. case_decide as Hd.
  - apply elem_of_dom in Hd as [t ->]. done.
  - apply not_elem_of_dom in Hd. by rewrite Hd.
Qed.

(** X1.  A value that has just been set is read back, whether or not the
    key had a tombstone; the key is among the active keys; no other key
    reads differently. *)
Theorem get_set st k (v : V) ts :
  get k (set k v ts st) = Some v
  /\ k ∈ get_keys (set k v ts st)
  /\ (forall k', k' <> k -> get k' (set k v ts st) = get k' st).
Proof.
  assert (Hd : forall k', data (set k v ts st) !! k'
            = if decide (k' = k) then Some (v, ts, node_id st) else data st !! k').
  { intros k'. unfold set. case_decide; simpl; case_decide; subst;
      by rewrite ?lookup_insert_eq, ?lookup_insert_ne. }
  assert (Ht : forall k', tombstones (set k v ts st) !! k'
            = if decide (k' = k) then None else tombstones st !! k').
  { intros k'. unfold set. case_decide as Hin; simpl; case_decide; subst.
    - by rewrite lookup_delete_eq.
    - by rewrite lookup_delete_ne.
    - by apply not_elem_of_dom.
    - done. }
  split; [|split].
  - rewrite get_get_cell, Hd, Ht, !decide_True by done. done.
  - unfold get_keys. apply elem_of_difference. split.
    + apply elem_of_dom. rewrite Hd, decide_True by done. by eexists.
    + apply not_elem_of_dom. by rewrite Ht, decide_True.
  - intros k' Hne. by rewrite !get_get_cell, Hd, Ht, !decide_False.
Qed.

(** X2.  A deleted key reads as [None] and is not among the active keys;
    its register stays in [data]; no other key reads differently. *)
Theorem get_delete st k ts :
  get k (delete k ts st) = None
  /\ (k ∉ get_keys (delete k ts st))
  /\ data (delete k ts st) = data st
  /\ (forall k', k' <> k -> get k' (delete k ts st) = get k' st).
Proof.
  split; [|split; [|split]].
  - rewrite get_get_cell. unfold delete. simpl. by rewrite lookup_insert_eq.
  - unfold get_keys, delete. simpl. rewrite dom_insert_L.
    intros [_ Hn]%elem_of_difference. apply Hn, elem_of_union_l.
    by apply elem_of_singleton.
  - done.
  - intros k' Hne. rewrite !get_get_cell. unfold delete. simpl.
    by rewrite lookup_insert_ne.
Qed.

Lemma get_all_data_lookup st k : get_all_data st !! k = get k st.
Proof.
  unfold get_all_data. rewrite lookup_fmap, map_lookup_filter.
  rewrite get_get_cell. unfold get_cell.
  destruct (data st !! k) as [[[v ts] n]|] eqn:Hd; simpl.
  - destruct (tombstones st !! k) as [t|] eqn:Ht.
    + rewrite option_guard_False; [done|]. simpl. intros Hn. apply Hn.
      apply elem_of_dom. by rewrite Ht.
    + rewrite option_guard_True; [done|]. simpl. by apply not_elem_of_dom.
  - by destruct (tombstones st !! k).
Qed.

Lemma get_all_data_dom st : dom (get_all_data st) = get_keys st.
Proof.
  apply set_eq. intros k. rewrite elem_of_dom, get_all_data_lookup, get_get_cell.
  unfold get_keys. rewrite elem_of_difference, !elem_of_dom. unfold get_cell.
  unfold is_Some.
  destruct (data st !! k) as [[[v ts] n]|], (tombstones st !! k) as [t|]; simpl.
  - split; [by intros [? ?]|]. intros [_ Hn]. exfalso. apply Hn. by eexists.
  - split; [|by eexists]. intros _. split; [by eexists|]. by intros [? ?].
  - split; [by intros [? ?]|]. by intros [[? ?] _].
  - split; [by intros [? ?]|]. by intros [[? ?] _].
Qed.


Lemma newer_irrefl ts n : newer ts n ts n = false.
Proof.
  destruct (newer ts n ts n) eqn:Hn; [|done]. exfalso. stamp_order.
Qed.

(** X4.  Merging the snapshot of a store into that very store changes
    nothing and returns [False]. *)
Theorem merge_own_snapshot st : merge st (get_state_snapshot st) = (st, false).
Proof.
  unfold merge, get_state_snapshot, merge_remote_state, merge_remote_items.
  rewrite merge_data_loop_noop, merge_tomb_loop_noop.
  - unfold set_vector_clock. rewrite merge_vc_loop_noop; [by destruct st|].
    intros n seq Hin%elem_of_map_to_list. exists seq. split; [done|lia].
  - intros k ts n Hin%elem_of_map_to_list.
    unfold tomb_should_update. by rewrite Hin, newer_irrefl.
  - intros k v ts n Hin%elem_of_map_to_list.
    unfold data_should_update. rewrite Hin, newer_irrefl.
    destruct (tombstones st !! k) as [[tts tn]|]; [|done].
    by destruct (newer tts tn ts n).
Qed.

(** X5.  [merge_remote_state] returns [False] exactly when it leaves
    [data] and [tombstones] as they were; the vector clock is not part of
    what [modified] reports. *)
Theorem merge_modified_iff st rd rt rvc :
  let r := merge_remote_state st rd rt rvc in
  r.2 = false <-> data r.1 = data st /\ tombstones r.1 = tombstones st.
Proof.
  intros r.
  pose proof (merge_remote_items_flag st (map_to_list rd) (map_to_list rt)
                (map_to_list rvc)) as Hflag.
  change (merge_remote_items st _ _ _) with r in Hflag.
  pose proof (merge_remote_state_spec st rd rt rvc) as (_ & Hcells & _ & _).
  fold r in Hcells. split.
  - intros Hf. rewrite Hf in Hflag. symmetry in Hflag.
    apply orb_false_elim in Hflag as [Hd Ht].
    assert (Hnd : forall k v ts n, rd !! k = Some (v, ts, n) ->
              cell_data_should_update (data st !! k) (tombstones st !! k) ts n = false).
    { intros k v ts n Hin. rewrite <- data_should_update_cell.
      apply not_true_is_false. intros Hup.
      assert (existsb (fun item : string * (V * Z * string) =>
                data_should_update st item.1 item.2.1.2 item.2.2) (map_to_list rd) = true)
        as Hex; [|congruence].
      apply existsb_exists. exists (k, (v, ts, n)).
      split; [|done]. apply list_elem_of_In. by apply elem_of_map_to_list. }
    assert (Hnt : forall k ts n, rt !! k = Some (ts, n) ->
              cell_tomb_should_update (tombstones st !! k) ts n = false).
    { intros k ts n Hin. apply not_true_is_false. intros Hup.
      assert (existsb (fun item : string * (Z * string) =>
                cell_tomb_should_update (tombstones st !! item.1) item.2.1 item.2.2)
                (map_to_list rt) = true) as Hex; [|congruence].
      apply existsb_exists. exists (k, (ts, n)).
      split; [|done]. apply list_elem_of_In. by apply elem_of_map_to_list. }
    assert (Hsame : forall k, (data r.1 !! k, tombstones r.1 !! k)
              = (data st !! k, tombstones st !! k)).
    { intros k. rewrite Hcells. unfold merge_cell, data_cell, tomb_cell.
      destruct (rd !! k) as [[[v ts] n]|] eqn:Hrd.
      - rewrite (Hnd k v ts n Hrd).
        destruct (rt !! k) as [[ts' n']|] eqn:Hrt; [|done].
        by rewrite (Hnt k ts' n' Hrt).
      - destruct (rt !! k) as [[ts' n']|] eqn:Hrt; [|done].
        by rewrite (Hnt k ts' n' Hrt). }
    split; apply map_eq; intros k; by injection (Hsame k).
  - intros [Hd Ht]. destruct r.2 eqn:Hf; [|done]. exfalso.
    destruct (existsb (fun item : string * (Z * string) =>
                cell_tomb_should_update (tombstones st !! item.1) item.2.1 item.2.2)
                (map_to_list rt)) eqn:Hext.
    + apply existsb_exists in Hext as ([k [ts n]] & Hin & Hup). simpl in Hup.
      apply list_elem_of_In, elem_of_map_to_list in Hin.
      pose proof (Hcells k) as Hk. rewrite Hin, Ht in Hk.
      unfold merge_cell, tomb_cell in Hk. rewrite Hup in Hk.
      injection Hk as _ Hk. rewrite Hk in Hup. simpl in Hup.
      by rewrite newer_irrefl in Hup.
    + rewrite orb_false_r in Hflag. symmetry in Hflag.
      apply existsb_exists in Hflag as ([k [[v ts] n]] & Hin & Hup). simpl in Hup.
      apply list_elem_of_In, elem_of_map_to_list in Hin.
      rewrite data_should_update_cell in Hup.
      pose proof (Hcells k) as Hk. rewrite Hin, Hd in Hk.
      unfold merge_cell, data_cell in Hk. rewrite Hup in Hk.
      assert (Hsame : tomb_cell (Some (v, ts, n)) (tombstones st !! k) (rt !! k)
                = (Some (v, ts, n), tombstones st !! k)).
      { unfold tomb_cell. destruct (rt !! k) as [[ts' n']|] eqn:Hrt; [|done].
        assert (cell_tomb_should_update (tombstones st !! k) ts' n' = false) as ->;
          [|done].
        apply not_true_is_false. intros Hup'.
        assert (existsb (fun item : string * (Z * string) =>
                  cell_tomb_should_update (tombstones st !! item.1) item.2.1 item.2.2)
                  (map_to_list rt) = true) as Hex'; [|congruence].
        apply existsb_exists. exists (k, (ts', n')).
        split; [|done]. apply list_elem_of_In. by apply elem_of_map_to_list. }
      rewrite Hsame in Hk. injection Hk as Hk.
      rewrite Hk in Hup. unfold cell_data_should_update in Hup.
      rewrite newer_irrefl in Hup.
      destruct (tombstones st !! k) as [[tts tn]|]; [|done].
      by destruct (newer tts tn ts n).
Qed.

(** *** The vector clock *)

Lemma vc_get_bump n m (vc : gmap string Z) :
  default 0 (vc_bump n vc !! m)
  = if decide (m = n) then default 0 (vc !! n) + 1 else default 0 (vc !! m).
Proof.
  unfold vc_bump, vc_read. destruct (vc !! n) as [c|] eqn:Hc; simpl.
  - case_decide; subst; [by rewrite lookup_insert_eq|by rewrite lookup_insert_ne].
  - case_decide; subst; [by rewrite lookup_insert_eq|].
    by rewrite !lookup_insert_ne.
Qed.

Lemma vc_get_set st k (v : V) ts m :
  vc_get m (set k v ts st)
  = if decide (m = node_id st) then vc_get m st + 1 else vc_get m st.
Proof.
  unfold vc_get, set. case_decide; simpl; rewrite vc_get_bump; by case_decide; subst.
Qed.

Lemma vc_get_delete st k ts m :
  vc_get m (delete k ts st)
  = if decide (m = node_id st) then vc_get m st + 1 else vc_get m st.
Proof.
  unfold vc_get, delete. simpl. rewrite vc_get_bump. by case_decide; subst.
Qed.

Lemma vc_get_merge st rd rt rvc m :
  vc_get m (merge_remote_state st rd rt rvc).1
  = match rvc !! m with
    | Some seq => Z.max (vc_get m st) seq
    | None => vc_get m st
    end.
Proof.
  pose proof (merge_remote_state_spec st rd rt rvc) as (_ & _ & Hvc & _).
  unfold vc_get. rewrite Hvc. destruct (rvc !! m) as [seq|]; [|done].
  by rewrite vc_cell_max.
Qed.

(** X6.  Each [set] and each [delete] adds one to the store's own entry
    of the vector clock and leaves the other entries; a merge raises
    every entry to the maximum of the local and the remote counter, a
    missing entry counting as 0; hence no sequence of operations lowers
    an entry. *)
Theorem vector_clock_monotone :
  (forall st k (v : V) ts m,
     vc_get m (set k v ts st)
     = if decide (m = node_id st) then vc_get m st + 1 else vc_get m st)
  /\ (forall st k ts m,
        vc_get m (delete k ts st)
        = if decide (m = node_id st) then vc_get m st + 1 else vc_get m st)
  /\ (forall st rd rt rvc m,
        vc_get m (merge_remote_state st rd rt rvc).1
        = match rvc !! m with
          | Some seq => Z.max (vc_get m st) seq
          | None => vc_get m st
          end)
  /\ (forall (ops : list (op V)) st m, vc_get m st <= vc_get m (run ops st)).
Proof.
  split; [apply vc_get_set|]. split; [apply vc_get_delete|].
  split; [apply vc_get_merge|].
  induction ops as [|o ops IH]; intros st m; simpl; [lia|].
  etrans; [|apply IH].
  destruct o as [k v ts|k ts|[[rd rt] rvc]]; cbn [apply_op merge].
  - rewrite vc_get_set. case_decide; lia.
  - rewrite vc_get_delete. case_decide; lia.
  - rewrite vc_get_merge. destruct (rvc !! m); lia.
Qed.

(** *** Two replicas that exchange their snapshots *)

Lemma exchange_cell (dA dB : option (V * Z * string)) (tA tB : option (Z * string)) :
  same_stamp_same_value dA dB ->
  let cA := merge_cell dA tA dB tB in
  let cB := merge_cell dB tB dA tA in
  cA.2 = cB.2 /\ get_cell cA.1 cA.2 = get_cell cB.1 cB.2.
Proof.
  intros Hv.
  assert (Htomb : (merge_cell dA tA dB tB).2 = (merge_cell dB tB dA tA).2).
  { unfold merge_cell, tomb_cell, cell_tomb_should_update.
    destruct tA as [[ta na]|], tB as [[tb nb]|]; simpl; try done.
    destruct (newer tb nb ta na) eqn:H1, (newer ta na tb nb) eqn:H2; simpl; try done.
    - exfalso. stamp_order.
    - assert ((ta, na) = (tb, nb)) as Heq by stamp_order. by rewrite Heq. }
  cbn zeta. split; [exact Htomb|]. rewrite <- Htomb.
  destruct (merge_cell dA tA dB tB).2 as [t|] eqn:Ht; [done|].
  assert (tA = None /\ tB = None) as [-> ->].
  { unfold merge_cell, tomb_cell, cell_tomb_should_update in Ht.
    destruct tA as [[ta na]|], tB as [[tb nb]|]; simpl in Ht; try done.
    by destruct (newer tb nb ta na). }
  unfold merge_cell, tomb_cell, data_cell, cell_data_should_update, get_cell. simpl.
  destruct dA as [[[va ta] na]|], dB as [[[vb tb] nb]|]; simpl; try done.
  destruct (newer tb nb ta na) eqn:H1, (newer ta na tb nb) eqn:H2; simpl; try done.
  - exfalso. stamp_order.
  - assert ((ta, na) = (tb, nb)) as Heq by stamp_order. injection Heq as -> ->.
    f_equal. by apply (Hv va vb tb nb).
Qed.

(** X7.  When two replicas each merge the other's snapshot, and their
    registers do not differ in the value only, they end with the same
    tombstones and read the same: [get] agrees on every key, and so do
    [get_all_data] and [get_keys]. *)
Theorem exchange_converges a b :
  agree_on_ties (data a) (data b) ->
  let a' := (merge a (get_state_snapshot b)).1 in
  let b' := (merge b (get_state_snapshot a)).1 in
  tombstones a' = tombstones b'
  /\ (forall k, get k a' = get k b')
  /\ get_all_data a' = get_all_data b'
  /\ get_keys a' = get_keys b'.
Proof.
  intros Hties a' b'.
  assert (Hcell : forall k, tombstones a' !! k = tombstones b' !! k
                            /\ get k a' = get k b').
  { intros k. rewrite !get_get_cell.
    pose proof (merge_remote_state_cells a (data b) (tombstones b) (vector_clock b) k) as Ha.
    pose proof (merge_remote_state_cells b (data a) (tombstones a) (vector_clock a) k) as Hb.
    pose proof (exchange_cell (data a !! k) (data b !! k) (tombstones a !! k)
                  (tombstones b !! k) (Hties k)) as Hx.
    cbn zeta in Hx. rewrite <- Ha, <- Hb in Hx. exact Hx. }
  assert (Hget : forall k, get k a' = get k b') by (intros k; apply Hcell).
  split; [apply map_eq; intros k; apply Hcell|].
  split; [exact Hget|].
  assert (Hall : get_all_data a' = get_all_data b').
  { apply map_eq. intros k.
    rewrite !get_all_data_lookup. apply Hget. }
  split; [exact Hall|].
  by rewrite <- (get_all_data_dom a'), <- (get_all_data_dom b'), Hall.
Qed.

(** X8.  A replica that has nothing yet and merges the snapshot of a
    store reads what that store reads, under every key. *)
Theorem fresh_replica_reads_source a (n : string) :
  let b' := (merge (init n) (get_state_snapshot a)).1 in
  (forall k, get k b' = get k a) /\ get_all_data b' = get_all_data a.
Proof.
  intros b'.
  assert (Hget : forall k, get k b' = get k a).
  { intros k. rewrite !get_get_cell.
    pose proof (merge_remote_state_cells (init n) (data a) (tombstones a)
                  (vector_clock a) k) as Hb.
    change (merge_remote_state (init n) (data a) (tombstones a) (vector_clock a)).1
      with b' in Hb.
    cbn [init data tombstones] in Hb. rewrite !lookup_empty in Hb.
    unfold merge_cell, tomb_cell, data_cell, cell_data_should_update,
      cell_tomb_should_update in Hb.
    destruct (data a !! k) as [[[v ts] na]|], (tombstones a !! k) as [[tts tn]|];
      simpl in Hb; injection Hb as -> ->; done. }
  split; [exact Hget|]. apply map_eq. intros k.
  rewrite !get_all_data_lookup. apply Hget.
Qed.

End CRDT_more.


(** ** Part IX.  More properties of the transport *)

Section Packet_more.

Context {P : Type} `{JsonCodec P}.
Implicit Types (p : ReliableUDPPacket P) (now : Q).

Lemma pack_BBII_None (a b c d : Z) :
  pack_BBII a b c d = None
  <-> ~ (0 <= a <= 255 /\ 0 <= b <= 255 /\ 0 <= c <= 4294967295 /\ 0 <= d <= 4294967295).
Proof.
  unfold pack_BBII, fits_B, fits_I. destruct (_ && _) eqn:Hfit.
  - split; [done|]. intros Hn. exfalso. apply Hn.
    repeat (apply andb_prop in Hfit as [Hfit ?]). lia.
  - split; [|done]. intros _ Hr. rewrite !andb_false_iff in Hfit. lia.
Qed.



Lemma serialize_None_iff p :
  serialize p = None
  <-> ~ (0 <= packet_type p <= 255 /\ 0 <= seq_num p <= 4294967295).
Proof.
  unfold serialize.
  set (body := if len _ >? _ then _ else _).
  pose proof (checksum_range body) as Hc.
  destruct (pack_BBII _ _ _ _) as [h|] eqn:Hp.
  - split; [done|]. intros Hn. exfalso.
    assert (pack_BBII VERSION (packet_type p) (seq_num p) (_calculate_checksum body)
            <> None) as Hne by congruence.
    apply Hne, pack_BBII_None. intros (_ & ? & ? & _). by apply Hn.
  - split; [|done]. intros _ [Ht Hs]. apply pack_BBII_None in Hp. apply Hp.
    unfold VERSION. lia.
Qed.


Lemma unpack_BBII_length (h : list byte) :
  length h = 10%nat -> exists a b c d, unpack_BBII h = Some (a, b, c, d)
                                       /\ Z_of_byte <$> h !! 0%nat = Some a.
Proof.
  intros Hl. do 11 (destruct h as [|? h]; try done). simpl. eauto 10.
Qed.

Lemma slice_to_header (data : list byte) :
  HEADER_SIZE <= len data ->
  length (slice_to HEADER_SIZE data) = 10%nat
  /\ slice_to HEADER_SIZE data !! 0%nat = data !! 0%nat.
Proof.
  unfold slice_to, len, HEADER_SIZE. intros Hl. rewrite length_take.
  split; [lia|]. change (Z.to_nat 10) with 10%nat. by rewrite lookup_take_lt by lia.
Qed.

(** X10.  What [deserialize] accepts: a datagram of at least 10 bytes
    whose first byte is the protocol version and whose payload bytes have
    the checksum of the header and decode to the payload of the packet;
    the packet's fields fit the header, so it can be serialized again. *)
Theorem deserialize_accepts now data p :
  deserialize now data = Some p ->
  HEADER_SIZE <= len data
  /\ Z_of_byte <$> data !! 0%nat = Some VERSION
  /\ checksum_matches data = true
  /\ json_loads (slice_from HEADER_SIZE data) = Some (payload p)
  /\ timestamp p = now
  /\ is_Some (serialize p).
Proof.
  intros Hd. pose proof (deserialize_range _ _ _ Hd) as [Ht Hs].
  destruct (serialize_Some p Ht Hs) as [d' Hd'].
  revert Hd. unfold deserialize, deserialize_at, checksum_matches.
  destruct (len data <? HEADER_SIZE) eqn:Hlen; [done|].
  apply Z.ltb_ge in Hlen.
  destruct (slice_to_header data Hlen) as [Hl10 H0].
  destruct (unpack_BBII_length _ Hl10) as (v & t & s & c & Hun & Hv).
  rewrite Hun. rewrite H0 in Hv.
  destruct (v =? VERSION) eqn:Hver; [|done]. apply Z.eqb_eq in Hver. subst v.
  simpl. destruct (_ =? c) eqn:Hck; [|done]. simpl.
  destruct (json_loads _) as [pl|] eqn:Hj; [|done].
  intros [= <-]. simpl. rewrite Hd'. eauto 10.
Qed.

(** X11.  What [deserialize] rejects, and where: a datagram of fewer
    than 10 bytes, the empty one included, before anything is read; a
    datagram whose first byte is not the protocol version, at the version
    test; and the header of a sent packet followed by bytes of another
    checksum, at the checksum comparison. *)
Theorem deserialize_rejects now :
  (forall data, len data < HEADER_SIZE -> deserialize_at now data = inr TooShort)
  /\ (forall data b,
        HEADER_SIZE <= len data -> data !! 0%nat = Some b -> Z_of_byte b <> VERSION ->
        deserialize_at now data = inr (UnknownVersion (Z_of_byte b)))
  /\ (forall ptype seq (body body' header : list byte),
        pack_BBII VERSION ptype seq (_calculate_checksum body) = Some header ->
        _calculate_checksum body' <> _calculate_checksum body ->
        deserialize_at now (header ++ body') = inr ChecksumMismatch).
Proof.
  split; [|split].
  - intros data Hl. unfold deserialize_at.
    by rewrite (proj2 (Z.ltb_lt _ _) Hl).
  - intros data b Hl H0 Hv. unfold deserialize_at.
    rewrite (proj2 (Z.ltb_ge _ _) Hl).
    destruct (slice_to_header data Hl) as [Hl10 H0'].
    destruct (unpack_BBII_length _ Hl10) as (v & t & s & c & Hun & Hv').
    rewrite Hun. rewrite H0', H0 in Hv'. injection Hv' as <-.
    by rewrite (proj2 (Z.eqb_neq _ _) Hv).
  - intros ptype seq body body' header Hp Hne.
    apply unpack_pack_BBII in Hp as [Hlen Hun].
    destruct (slice_app_header header body' Hlen) as (Hto & Hfrom & Hshort).
    unfold deserialize_at. rewrite Hshort, Hto, Hun, Hfrom, Z.eqb_refl. simpl.
    by rewrite (proj2 (Z.eqb_neq _ _) Hne).
Qed.

End Packet_more.


Section Socket_props_more.

Context {P : Type} `{JsonCodec P}.
Implicit Types (sock : ReliableUDPSocket P) (now : Q) (addr : address) (pl : P).



(** X14.  The sequence counter does not wrap: once it has reached 2^32
    [send_reliable] and [send_unreliable] raise in [serialize]; nothing
    is sent and nothing is recorded, and the counter still moves on, so
    that every later send raises as well. *)
Theorem send_after_overflow now addr ptype pl sock :
  4294967296 <= send_seq sock ->
  send_reliable now addr ptype pl sock
  = (mkSocket (send_seq sock + 1) (pending_acks sock) (received_seqs sock)
              (handlers sock), [], None)
  /\ send_unreliable now addr ptype pl sock
     = (mkSocket (send_seq sock + 1) (pending_acks sock) (received_seqs sock)
                 (handlers sock), [], false)
  /\ 4294967296 <= send_seq (send_reliable now addr ptype pl sock).1.1.
Proof.
  intros Hbig.
  assert (Hnone : serialize (mkPacket ptype (send_seq sock) pl now) = None).
  { apply serialize_None_iff. simpl. lia. }
  unfold send_reliable, send_unreliable. rewrite Hnone. simpl.
  repeat split. lia.
Qed.

Lemma deserialize_ack now now' addr seq :
  ack_codec_ok seq ->
  0 <= seq <= 4294967295 ->
  exists ack,
    _send_ack now addr seq = Some (SendTo ack addr)
    /\ deserialize now' ack
       = Some (mkPacket PacketType.ACK seq (ack_payload seq) now').
Proof.
  intros (Hload & _ & Hlen) Hseq.
  unfold _send_ack, serialize, deserialize. cbn [payload packet_type seq_num].
  destruct (len (json_dumps (ack_payload seq)) >? MAX_PAYLOAD_SIZE) eqn:Hcut.
  { apply Z.gtb_lt in Hcut. lia. }
  pose proof (checksum_range (json_dumps (ack_payload seq))) as Hc.
  destruct (pack_BBII_Some VERSION PacketType.ACK seq
              (_calculate_checksum (json_dumps (ack_payload seq)))) as [h Hh];
    [unfold VERSION; lia | unfold PacketType.ACK; lia | lia | lia |].
  rewrite Hh. eexists; split; [done|].
  by rewrite (deserialize_at_packed now' _ _ _ _ Hh), Hload.
Qed.

(** X15.  The ACK that a receiver sends for [seq], once back at the
    sender, removes the entry of [seq] from the table of unacknowledged
    packets, whatever address it comes from; it is not acknowledged in
    turn, no handler is called for it, and the received sets are not
    touched.  When the table has no entry for [seq], as for a repeated
    ACK, nothing changes. *)
Theorem ack_round_trip now addr seq :
  ack_codec_ok seq ->
  0 <= seq <= 4294967295 ->
  exists ack,
    _send_ack now addr seq = Some (SendTo ack addr)
    /\ forall now' sock src,
         let r := receive_one now' sock ack src in
         r.2 = []
         /\ pending_acks r.1 = base.delete seq (pending_acks sock)
         /\ received_seqs r.1 = received_seqs sock
         /\ send_seq r.1 = send_seq sock
         /\ handlers r.1 = handlers sock
         /\ (pending_acks sock !! seq = None -> r.1 = sock).
Proof.
  intros Hok Hseq.
  destruct (deserialize_ack now now addr seq Hok Hseq) as (ack & Hack & _).
  exists ack. split; [exact Hack|]. intros now' sock src r.
  destruct (deserialize_ack now now' addr seq Hok Hseq) as (ack' & Hack' & Hde).
  rewrite Hack in Hack'. injection Hack' as <-.
  destruct Hok as (_ & Hget & _).
  unfold r, receive_one. rewrite Hde. simpl.
  unfold _handle_ack. simpl. rewrite Hget.
  case_decide as Hin; simpl.
  - repeat split; try done. intros Hnone. apply elem_of_dom in Hin as [? ?]. congruence.
  - apply not_elem_of_dom in Hin. rewrite delete_id by done. done.
Qed.

Lemma retries_bounded_retry_pass now clock
    (pending : gmap Z (ReliableUDPPacket P * Q * Z * address)) :
  serializable pending -> retries_bounded pending ->
  retries_bounded (table (retry_pass now clock pending))
  /\ dom (table (retry_pass now clock pending)) ⊆ dom pending.
Proof.
  intros Hs Hb. destruct (retry_pass_facts now clock pending Hs) as (_ & Htab & _).
  split.
  - intros seq e He. rewrite Htab in He.
    destruct (pending !! seq) as [[[[packet send_time] r] addr]|] eqn:Hp; [|done].
    pose proof (Hb seq _ Hp) as Hr. simpl in Hr.
    destruct (expired now send_time r).
    + destruct (r >=? MAX_RETRIES) eqn:Hge; [done|]. injection He as <-. simpl.
      rewrite Z.geb_leb in Hge. apply Z.leb_gt in Hge. lia.
    + by injection He as <-.
  - intros seq [e He]%elem_of_dom. rewrite Htab in He. apply elem_of_dom.
    by destruct (pending !! seq).
Qed.

Lemma receive_one_pending now sock data addr :
  send_seq (receive_one now sock data addr).1 = send_seq sock
  /\ (pending_acks (receive_one now sock data addr).1 = pending_acks sock
      \/ exists seq, pending_acks (receive_one now sock data addr).1
                     = base.delete seq (pending_acks sock)).
Proof.
  unfold receive_one. destruct (deserialize now data) as [packet|]; [|by split; [|left]].
  destruct (packet_type packet =? PacketType.ACK).
  - simpl. unfold _handle_ack. destruct (payload_ack _) as [s|]; [|by split; [|left]].
    case_decide; [|by split; [|left]]. split; [done|]. right. by exists s.
  - destruct (seqs_read addr (received_seqs sock)) as [s m].
    case_decide; destruct (_send_ack _ _ _); by split; [|left].
Qed.

(** X16.  The three facts that the methods of the socket keep: the table
    of unacknowledged packets holds only sequence numbers below the
    counter, no entry has been retried more than 5 times, and every
    packet of the table serializes.  A new socket has them; a send, the
    reception of any datagram and a retransmission pass keep them. *)
Theorem sock_inv_kept sock :
  sock_inv sock ->
  (forall now addr ptype pl, sock_inv (send_reliable now addr ptype pl sock).1.1)
  /\ (forall now addr ptype pl, sock_inv (send_unreliable now addr ptype pl sock).1.1)
  /\ (forall now data addr, sock_inv (receive_one now sock data addr).1)
  /\ (forall now clock, sock_inv (retry_socket now clock sock).1).
Proof.
  intros (Hf & Hb & Hs). split; [|split; [|split]].
  - intros now addr ptype pl. unfold send_reliable.
    destruct (serialize _) as [data|] eqn:Hd; simpl.
    + split; [|split].
      * intros seq. simpl. rewrite dom_insert_L, elem_of_union, elem_of_singleton.
        intros [->|Hin%Hf]; lia.
      * apply map_Forall_insert_2; [|done]. simpl. unfold MAX_RETRIES. lia.
      * apply map_Forall_insert_2; [|done]. simpl. by rewrite Hd.
    + split; [|done]. intros seq Hin%Hf. simpl. lia.
  - intros now addr ptype pl. unfold send_unreliable.
    destruct (serialize _); simpl; (split; [|done]); intros seq Hin%Hf; simpl; lia.
  - intros now data addr.
    destruct (receive_one_pending now sock data addr) as [Hseq [Hp|[s Hp]]];
      unfold sock_inv, seq_fresh; rewrite Hseq, Hp.
    + done.
    + split; [|split].
      * intros seq Hin. apply Hf. rewrite dom_delete_L in Hin.
        by apply elem_of_difference in Hin as [? _].
      * by apply map_Forall_delete.
      * by apply map_Forall_delete.
  - intros now clock. unfold retry_socket. simpl.
    destruct (retries_bounded_retry_pass now clock _ Hs Hb) as [Hb' Hdom].
    split; [|split].
    + intros seq Hin. simpl in *. by apply Hf, Hdom.
    + exact Hb'.
    + by apply serializable_retry_pass.
Qed.

Lemma sock_inv_new : sock_inv (P:=P) new_socket.
Proof.
  split; [|split].
  - intros seq Hin. simpl in Hin. by rewrite dom_empty_L in Hin.
  - apply map_Forall_empty.
  - apply map_Forall_empty.
Qed.

(** X17.  A retransmission pass never adds an entry to the table; when
    no entry has waited longer than its timeout, the pass sends nothing
    and leaves the table as it is. *)
Theorem retry_pass_idle now clock
    (pending : gmap Z (ReliableUDPPacket P * Q * Z * address)) :
  serializable pending ->
  let res := retry_pass now clock pending in
  dom (table res) ⊆ dom pending
  /\ ((forall seq packet send_time r addr,
         pending !! seq = Some (packet, send_time, r, addr) ->
         (now - send_time <= timeout_after r)%Q) ->
      table res = pending /\ sent res = []).
Proof.
  intros Hs res.
  destruct (retry_pass_facts now clock pending Hs) as (_ & Htab & Hsent).
  fold res in Htab, Hsent. split.
  - intros seq [e He]%elem_of_dom. rewrite Htab in He. apply elem_of_dom.
    by destruct (pending !! seq).
  - intros Hfresh.
    assert (Hno : forall seq packet send_time r addr,
              pending !! seq = Some (packet, send_time, r, addr) ->
              expired now send_time r = false).
    { intros seq packet send_time r addr Hp. apply not_true_is_false.
      unfold expired. rewrite Qgt_bool_iff. apply Qle_not_lt. by eapply Hfresh. }
    split.
    + apply map_eq. intros seq. rewrite Htab.
      destruct (pending !! seq) as [[[[packet send_time] r] addr]|] eqn:Hp; [|done].
      by rewrite (Hno _ _ _ _ _ Hp).
    + destruct (sent res) as [|e l] eqn:Hl; [done|]. exfalso.
      destruct (proj1 (Hsent e)) as (seq & packet & st & r & addr & d & Hp & Hex & _).
      { apply list_elem_of_here. }
      rewrite (Hno _ _ _ _ _ Hp) in Hex. done.
Qed.

Lemma deserialize_clock now now' data (packet : ReliableUDPPacket P) :
  deserialize now data = Some packet ->
  deserialize now' data
  = Some (mkPacket (packet_type packet) (seq_num packet) (payload packet) now').
Proof.
  unfold deserialize, deserialize_at.
  destruct (len data <? HEADER_SIZE); [done|].
  destruct (unpack_BBII _) as [[[[v t] s] c]|]; [|done].
  destruct (negb (v =? VERSION)); [done|].
  destruct (negb (_ =? c)); [done|].
  destruct (json_loads _); [|done]. by intros [= <-].
Qed.

(** X27.  A packet that arrives while no handler is registered for its
    type is acknowledged all the same and marked as received: the sender
    stops retransmitting it, and no handler is ever called for it, not
    even when one is registered afterwards and the datagram arrives
    again. *)
Theorem unhandled_packet_lost now sock data addr (packet : ReliableUDPPacket P) :
  deserialize now data = Some packet ->
  packet_type packet <> PacketType.ACK ->
  packet_type packet ∉ handlers sock ->
  seq_num packet ∉ seen sock addr ->
  let r := receive_one now sock data addr in
  (exists ack, _send_ack now addr (seq_num packet) = Some ack /\ r.2 = [ack])
  /\ seq_num packet ∈ seen r.1 addr
  /\ (forall now', exists ack,
        (receive_one now' (register_handler (packet_type packet) r.1) data addr).2
        = [ack]
        /\ _send_ack now' addr (seq_num packet) = Some ack)
  /\ (forall inbox,
        dispatch_count addr (seq_num packet)
          (receive_loop (register_handler (packet_type packet) r.1) inbox).2 = 0%nat).
Proof.
  intros Hd Hty Hnh Hns r.
  destruct (receive_one_data now sock data addr packet Hd Hty)
    as (ack & Hser & _ & Hnew & _).
  fold r in Hnew. destruct (Hnew Hns) as [Hev Hseen].
  rewrite decide_False in Hev by exact Hnh.
  assert (Hin : seq_num packet ∈ seen (register_handler (packet_type packet) r.1) addr).
  { change (seen (register_handler (packet_type packet) r.1) addr) with (seen r.1 addr).
    rewrite Hseen. apply elem_of_union_l. by apply elem_of_singleton. }
  split; [|split; [exact Hin|split]].
  - exists (SendTo ack addr). split; [|exact Hev]. unfold _send_ack.
    cbn in Hser. by rewrite Hser.
  - intros now'.
    pose proof (deserialize_clock now now' data packet Hd) as Hd'.
    destruct (receive_one_data now' (register_handler (packet_type packet) r.1)
                data addr _ Hd' Hty) as (ack' & Hser' & Hdup & _).
    cbn [seq_num] in Hdup, Hser'.
    destruct (Hdup Hin) as [Hev' _].
    exists (SendTo ack' addr). split; [exact Hev'|].
    unfold _send_ack. by rewrite Hser'.
  - intros inbox.
    pose proof (receive_loop_dispatch inbox (register_handler (packet_type packet) r.1)
                  [] addr (seq_num packet)) as [_ Hz].
    apply (Hz Hin).
Qed.

End Socket_props_more.

(** X18.  The timeouts of the successive retransmissions: 0.5 s doubled
    at each retry, up to 8 s from the fourth retry on; never below 0.5 s
    nor above 8 s, and never shorter after one more retry. *)
Theorem timeout_schedule (r : Z) :
  0 <= r ->
  (0.5 <= timeout_after r)%Q
  /\ (timeout_after r <= 8)%Q
  /\ (timeout_after r <= timeout_after (r + 1))%Q
  /\ (r <= 4 -> (timeout_after r == 0.5 * inject_Z (2 ^ r))%Q)
  /\ (4 <= r -> (timeout_after r == 8)%Q).
Proof.
  intros Hr. unfold timeout_after, INITIAL_TIMEOUT, MAX_TIMEOUT.
  assert (Hpow : forall n, 0 <= n -> 1 <= 2 ^ n).
  { intros n Hn. change 1 with (2 ^ 0). apply Z.pow_le_mono_r; lia. }
  assert (Hmono : 2 ^ r <= 2 ^ (r + 1)) by (apply Z.pow_le_mono_r; lia).
  assert (Hhalf : forall z : Z, (0.5 * inject_Z z == inject_Z z / 2)%Q).
  { intros z. unfold Qeq, Qmult, Qdiv, Qinv, inject_Z. simpl. lia. }
  assert (Hle : forall a b : Z, a <= b -> (0.5 * inject_Z a <= 0.5 * inject_Z b)%Q).
  { intros a b Hab. unfold Qle, Qmult, inject_Z. simpl. lia. }
  split; [|split; [|split; [|split]]].
  - apply Q.min_glb.
    + specialize (Hpow r Hr). unfold Qle, Qmult, inject_Z. simpl. lia.
    + unfold Qle. simpl. lia.
  - apply Q.le_min_r.
  - apply Q.min_le_compat_r. by apply Hle.
  - intros H4. apply Q.min_l.
    assert (2 ^ r <= 2 ^ 4) by (apply Z.pow_le_mono_r; lia).
    change (2 ^ 4) with 16 in *. unfold Qle, Qmult, inject_Z. simpl. lia.
  - intros H4. apply Q.min_r.
    assert (2 ^ 4 <= 2 ^ r) by (apply Z.pow_le_mono_r; lia).
    change (2 ^ 4) with 16 in *. unfold Qle, Qmult, inject_Z. simpl. lia.
Qed.


(** ** Part X.  Properties of the peer table

    The lists [get_all_peers], [get_alive_peers] and
    [get_peers_needing_sync] are stated up to their order: the
    dictionary of the code enumerates in insertion order, the map of the
    model in the order of its keys. *)

Section Peers_props.
Import Peers.

Implicit Types (mgr : PeerManager) (p : PeerInfo) (nid : string).

Lemma same_config_refl mgr : same_config mgr mgr.
Proof. repeat split. Qed.

Lemma same_config_trans m1 m2 m3 :
  same_config m1 m2 -> same_config m2 m3 -> same_config m1 m3.
Proof.
  unfold same_config. intros (?&?&?&?&?&?) (?&?&?&?&?&?).
  repeat split; congruence.
Qed.

Lemma same_config_set_peers f mgr : same_config mgr (set_peers f mgr).
Proof. repeat split. Qed.

Lemma peer_ok_fail_once nid p : peer_ok nid p -> peer_ok nid (fail_once p).
Proof.
  intros (Hn & H0 & Ha). unfold fail_once, peer_ok. cbn.
  rewrite Z.geb_leb.
  destruct (is_alive p) eqn:Hal.
  - assert (failed_pings p < 3) by (apply Ha; reflexivity).
    destruct (Z.leb_spec 3 (failed_pings p + 1)); cbn.
    + split; [exact Hn|]. split; [lia|]. split; [discriminate|lia].
    + split; [exact Hn|]. split; [lia|]. rewrite Hal. split; [lia|reflexivity].
  - assert (~ failed_pings p < 3) by (intros Hlt; apply Ha in Hlt; discriminate).
    rewrite andb_false_r. cbn.
    split; [exact Hn|]. split; [lia|]. rewrite Hal. split; [discriminate|lia].
Qed.

Lemma mark_peer_failed_peers nid mgr :
  peers (mark_peer_failed nid mgr).1 = alter fail_once nid (peers mgr)
  /\ same_config mgr (mark_peer_failed nid mgr).1.
Proof.
  unfold mark_peer_failed.
  destruct (peers mgr !! nid) as [p|] eqn:Hp.
  - assert (Hal : alter fail_once nid (peers mgr) = <[nid := fail_once p]> (peers mgr)).
    { apply map_eq. intros k. destruct (decide (k = nid)) as [->|Hne].
      - rewrite lookup_alter_eq, lookup_insert_eq, Hp. reflexivity.
      - rewrite lookup_alter_ne, lookup_insert_ne by congruence. reflexivity. }
    rewrite Hal. unfold fail_once. cbn.
    destruct ((failed_pings p + 1 >=? 3) && is_alive p); cbn;
      split; try reflexivity; apply same_config_set_peers.
  - split; [|apply same_config_refl].
    cbn. apply map_eq. intros k. destruct (decide (k = nid)) as [->|Hne].
    + rewrite lookup_alter_eq, Hp. reflexivity.
    + rewrite lookup_alter_ne by congruence. reflexivity.
Qed.

Lemma mark_peer_failed_events nid mgr :
  (mark_peer_failed nid mgr).2 =
    match peers mgr !! nid with
    | Some p =>
        if on_peer_failed mgr && is_alive p && (failed_pings p + 1 >=? 3)
        then [PeerFailed nid] else []
    | None => []
    end.
Proof.
  unfold mark_peer_failed. destruct (peers mgr !! nid) as [p|]; [|reflexivity].
  cbn. destruct (failed_pings p + 1 >=? 3), (is_alive p), (on_peer_failed mgr);
    reflexivity.
Qed.

Lemma health_step_spec now m evs k p :
  peers m !! k = Some p ->
  let r := health_step now (m, evs) (k, p) in
  peers r.1 = alter (health_peer now (peer_timeout m)) k (peers m)
  /\ same_config m r.1
  /\ r.2 = evs ++ health_events now m [(k, p)].
Proof.
  intros Hp. cbn [health_step]. rewrite Hp.
  unfold health_events, health_peer, stale. cbn.
  destruct (is_alive p && Qgt_bool (now - last_seen p) (peer_timeout m)) eqn:Hs.
  - destruct (mark_peer_failed k m) as [m' evs'] eqn:Hm.
    pose proof (mark_peer_failed_peers k m) as [Hpe Hc].
    pose proof (mark_peer_failed_events k m) as He.
    rewrite Hm in Hpe, Hc, He. cbn in Hpe, Hc, He. cbn.
    split; [|split; [exact Hc|]].
    + rewrite Hpe. apply map_eq. intros k'.
      destruct (decide (k' = k)) as [->|Hne].
      * rewrite !lookup_alter_eq, Hp. cbn. rewrite Hs. reflexivity.
      * rewrite !lookup_alter_ne by congruence. reflexivity.
    + rewrite He, Hp. apply andb_prop in Hs as [Ha _]. rewrite Ha.
      rewrite andb_true_r.
      destruct (on_peer_failed m); cbn; [|reflexivity].
      destruct (failed_pings p + 1 >=? 3); reflexivity.
  - cbn. split; [|split; [apply same_config_refl|]].
    + apply map_eq. intros k'.
      destruct (decide (k' = k)) as [->|Hne].
      * rewrite lookup_alter_eq, Hp. cbn. rewrite Hs. reflexivity.
      * rewrite lookup_alter_ne by congruence. reflexivity.
    + rewrite andb_false_r. cbn. rewrite app_nil_r. reflexivity.
Qed.

Lemma health_events_config now m m' l :
  same_config m m' -> health_events now m' l = health_events now m l.
Proof.
  intros (_&_&Ht&_&_&Hf). unfold health_events. rewrite Ht, Hf. reflexivity.
Qed.

Lemma health_fold now l : forall m evs,
  NoDup l.*1 ->
  (forall k p, (k, p) ∈ l -> peers m !! k = Some p) ->
  let r := foldl (health_step now) (m, evs) l in
  (forall k, peers r.1 !! k =
     if decide (k ∈ l.*1)
     then health_peer now (peer_timeout m) <$> peers m !! k
     else peers m !! k)
  /\ same_config m r.1
  /\ r.2 = evs ++ health_events now m l.
Proof.
  induction l as [|[k0 p0] l IH]; intros m evs Hnd Hin; cbn [foldl].
  - cbn. split; [|split; [apply same_config_refl|]].
    + intros k. rewrite decide_False by (apply not_elem_of_nil). reflexivity.
    + unfold health_events. cbn. rewrite app_nil_r. reflexivity.
  - cbn [fmap list_fmap fst] in Hnd. apply NoDup_cons in Hnd as [Hk0 Hnd].
    assert (Hp0 : peers m !! k0 = Some p0) by (apply Hin; left).
    pose proof (health_step_spec now m evs k0 p0 Hp0) as Hst.
    destruct (health_step now (m, evs) (k0, p0)) as [m1 evs1] eqn:Hs1.
    cbn in Hst. destruct Hst as (Hpe & Hc & Hev).
    assert (Hin1 : forall k p, (k, p) ∈ l -> peers m1 !! k = Some p).
    { intros k p Hkp. rewrite Hpe.
      rewrite lookup_alter_ne.
      - apply Hin. right. exact Hkp.
      - intros ->. apply Hk0. apply list_elem_of_fmap. exists (k, p). auto. }
    specialize (IH m1 evs1 Hnd Hin1). cbn zeta in IH.
    destruct IH as (IHp & IHc & IHe).
    assert (Hto : peer_timeout m1 = peer_timeout m) by apply Hc.
    split; [|split].
    + intros k. rewrite IHp, Hto, Hpe.
      cbn [fmap list_fmap fst].
      destruct (decide (k = k0)) as [->|Hne].
      * rewrite decide_False by exact Hk0.
        rewrite decide_True by left.
        rewrite lookup_alter_eq. reflexivity.
      * rewrite lookup_alter_ne by congruence.
        destruct (decide (k ∈ l.*1)) as [Hl|Hl].
        -- rewrite decide_True by (right; exact Hl). reflexivity.
        -- rewrite decide_False; [reflexivity|].
           intros Hc'. apply elem_of_cons in Hc' as [?|?]; congruence.
    + eapply same_config_trans; eassumption.
    + rewrite IHe, Hev, (health_events_config now m m1 l Hc).
      rewrite <- app_assoc. f_equal.
      unfold health_events. cbn [List.filter snd].
      destruct (on_peer_failed m && stale now (peer_timeout m) p0
                && (failed_pings p0 + 1 >=? 3)); reflexivity.
Qed.

Lemma health_check_spec now mgr :
  peers (health_check now mgr).1
    = health_peer now (peer_timeout mgr) <$> peers mgr
  /\ same_config mgr (health_check now mgr).1
  /\ (health_check now mgr).2 = health_events now mgr (map_to_list (peers mgr)).
Proof.
  unfold health_check.
  pose proof (health_fold now (map_to_list (peers mgr)) mgr []
                (NoDup_fst_map_to_list _)) as Hf.
  cbn zeta in Hf. destruct Hf as (Hp & Hc & He).
  { intros k p Hkp. apply elem_of_map_to_list. exact Hkp. }
  split; [|split; [exact Hc|exact He]].
  apply map_eq. intros k. rewrite Hp, lookup_fmap.
  destruct (decide (k ∈ (map_to_list (peers mgr)).*1)) as [Hin|Hin]; [reflexivity|].
  destruct (peers mgr !! k) as [p|] eqn:Hk; [|reflexivity].
  exfalso. apply Hin. apply list_elem_of_fmap. exists (k, p).
  split; [reflexivity|]. apply elem_of_map_to_list. exact Hk.
Qed.


Lemma peer_ok_update_seen nid now p : node_id p = nid -> peer_ok nid (update_seen now p).
Proof. intros Hn. unfold peer_ok, update_seen. cbn. repeat split; auto; lia. Qed.

Lemma values_elem (m : gmap string PeerInfo) p :
  p ∈ (map_to_list m).*2 <-> exists k, m !! k = Some p.
Proof.
  rewrite list_elem_of_fmap. split.
  - intros ([k q] & -> & Hin). exists k. apply elem_of_map_to_list. exact Hin.
  - intros (k & Hk). exists (k, p). split; [reflexivity|].
    apply elem_of_map_to_list. exact Hk.
Qed.

(** What one call does to the entry of any identifier [k]. *)
Lemma step_cases mgr o k :
  self_id (step mgr o) = self_id mgr
  /\ peer_timeout (step mgr o) = peer_timeout mgr
  /\ bootstrap_peers mgr ⊆ bootstrap_peers (step mgr o)
  /\ match peers mgr !! k, peers (step mgr o) !! k with
     | Some p, Some p' =>
         node_id p' = node_id p /\ version p <= version p'
         /\ (peer_ok k p -> peer_ok k p')
     | None, Some p' => k <> self_id mgr /\ peer_ok k p'
     | None, None => True
     | Some _, None => False
     end.
Proof.
  assert (Hsame : forall m' : PeerManager, peers m' !! k = peers mgr !! k ->
    match peers mgr !! k, peers m' !! k with
     | Some p, Some p' =>
         node_id p' = node_id p /\ version p <= version p'
         /\ (peer_ok k p -> peer_ok k p')
     | None, Some p' => k <> self_id mgr /\ peer_ok k p'
     | None, None => True
     | Some _, None => False
     end).
  { intros m' ->. destruct (peers mgr !! k); [|exact I].
    split; [reflexivity|]. split; [lia|]. auto. }
  destruct o as [addr|now nid addr ver|nid ver|now nid|nid|now]; cbn [step].
  - (* add_bootstrap_peer *)
    split; [reflexivity|]. split; [reflexivity|].
    split; [cbn; apply union_subseteq_r|]. apply Hsame. reflexivity.
  - (* add_or_update_peer *)
    unfold add_or_update_peer.
    destruct (String.eqb_spec nid (self_id mgr)) as [Heq|Hne].
    { cbn. split; [reflexivity|]. split; [reflexivity|].
      split; [reflexivity|]. apply Hsame. reflexivity. }
    destruct (peers mgr !! nid) as [q|] eqn:Hq; cbn.
    + split; [reflexivity|]. split; [reflexivity|]. split; [reflexivity|].
      destruct (decide (k = nid)) as [->|Hk].
      * rewrite Hq, lookup_insert_eq.
        destruct (Z.gtb_spec ver (version q)); cbn.
        -- split; [reflexivity|]. split; [lia|].
           intros (Hn & _). unfold peer_ok. cbn. repeat split; auto; lia.
        -- split; [reflexivity|]. split; [lia|].
           intros (Hn & _). unfold peer_ok. cbn. repeat split; auto; lia.
      * specialize (Hsame (set_peers (insert nid
          (if ver >? version q
           then set_version ver (set_address addr (update_seen now q))
           else set_address addr (update_seen now q))) mgr)).
        apply Hsame. cbn. apply lookup_insert_ne. congruence.
    + split; [reflexivity|]. split; [reflexivity|]. split; [reflexivity|].
      destruct (decide (k = nid)) as [->|Hk].
      * rewrite Hq, lookup_insert_eq. split; [exact Hne|].
        unfold peer_ok. cbn. repeat split; auto; lia.
      * specialize (Hsame (set_peers (insert nid
          (mkPeerInfo nid addr now 0 ver true 0)) mgr)).
        apply Hsame. cbn. apply lookup_insert_ne. congruence.
  - (* update_peer_version *)
    unfold update_peer_version.
    destruct (peers mgr !! nid) as [q|] eqn:Hq.
    2:{ split; [reflexivity|]. split; [reflexivity|]. split; [reflexivity|].
        apply Hsame. reflexivity. }
    destruct (Z.gtb_spec ver (version q)).
    2:{ split; [reflexivity|]. split; [reflexivity|]. split; [reflexivity|].
        apply Hsame. reflexivity. }
    cbn. split; [reflexivity|]. split; [reflexivity|]. split; [reflexivity|].
    destruct (decide (k = nid)) as [->|Hk].
    + rewrite Hq, lookup_insert_eq. cbn.
      split; [reflexivity|]. split; [lia|]. intros Hok. exact Hok.
    + specialize (Hsame (set_peers (insert nid (set_version ver q)) mgr)).
      apply Hsame. cbn. apply lookup_insert_ne. congruence.
  - (* mark_peer_synced *)
    unfold mark_peer_synced.
    destruct (peers mgr !! nid) as [q|] eqn:Hq.
    2:{ split; [reflexivity|]. split; [reflexivity|]. split; [reflexivity|].
        apply Hsame. reflexivity. }
    cbn. split; [reflexivity|]. split; [reflexivity|]. split; [reflexivity|].
    destruct (decide (k = nid)) as [->|Hk].
    + rewrite Hq, lookup_insert_eq. cbn.
      split; [reflexivity|]. split; [lia|]. intros Hok. exact Hok.
    + specialize (Hsame (set_peers (insert nid (set_last_sync now q)) mgr)).
      apply Hsame. cbn. apply lookup_insert_ne. congruence.
  - (* mark_peer_failed *)
    destruct (mark_peer_failed_peers nid mgr) as (Hp & Hs & _ & Ht & Hb & _).
    split; [exact Hs|]. split; [exact Ht|]. split; [rewrite Hb; reflexivity|].
    rewrite Hp. destruct (decide (k = nid)) as [->|Hk].
    + rewrite lookup_alter_eq. destruct (peers mgr !! nid) as [q|]; cbn; [|exact I].
      split; [|split; [|apply peer_ok_fail_once]].
      * unfold fail_once. cbn. destruct (_ && _); reflexivity.
      * unfold fail_once. cbn. destruct (_ && _); cbn; lia.
    + rewrite lookup_alter_ne by congruence.
      destruct (peers mgr !! k); [|exact I].
      split; [reflexivity|]. split; [lia|]. auto.
  - (* one pass of the health check *)
    destruct (health_check_spec now mgr) as (Hp & (Hs & _ & Ht & Hb & _) & _).
    split; [exact Hs|]. split; [exact Ht|]. split; [rewrite Hb; reflexivity|].
    rewrite Hp, lookup_fmap. destruct (peers mgr !! k) as [q|]; cbn; [|exact I].
    unfold health_peer. destruct (stale now (peer_timeout mgr) q).
    + split; [|split; [|apply peer_ok_fail_once]].
      * unfold fail_once. cbn. destruct (_ && _); reflexivity.
      * unfold fail_once. cbn. destruct (_ && _); cbn; lia.
    + split; [reflexivity|]. split; [lia|]. auto.
Qed.

Lemma mgr_inv_step mgr o : mgr_inv mgr -> mgr_inv (step mgr o).
Proof.
  intros [Hself Hall]. split.
  - destruct (step_cases mgr o (self_id mgr)) as (Hs & _ & _ & Hc).
    rewrite Hs. rewrite Hself in Hc.
    destruct (peers (step mgr o) !! self_id mgr); [|reflexivity].
    destruct Hc as [Hc _]. congruence.
  - intros k p' Hk.
    destruct (step_cases mgr o k) as (_ & _ & _ & Hc). rewrite Hk in Hc.
    destruct (peers mgr !! k) as [p|] eqn:Hp.
    + apply Hc. apply (Hall k p Hp).
    + apply Hc.
Qed.

Lemma mgr_inv_run ops : forall mgr, mgr_inv mgr -> mgr_inv (run ops mgr).
Proof.
  induction ops as [|o ops IH]; intros mgr Hinv; [exact Hinv|].
  cbn. apply IH. apply mgr_inv_step. exact Hinv.
Qed.

(** X20.  Whatever calls a manager has received since it was created,
    it does not hold its own identifier as a peer, every peer is stored
    under its own identifier, no counter of failed pings is negative,
    and a peer is alive exactly when it has failed fewer than three
    pings. *)
Theorem manager_invariant (ops : list op) (nid : string) (hb timeout : Q) :
  let mgr := run ops (new_manager nid hb timeout) in
  self_id mgr = nid
  /\ get_peer nid mgr = None
  /\ map_Forall (fun k p =>
       node_id p = k /\ 0 <= failed_pings p
       /\ (is_alive p = true <-> failed_pings p < 3)) (peers mgr).
Proof.
  cbn zeta.
  assert (Hinv : mgr_inv (run ops (new_manager nid hb timeout))).
  { apply mgr_inv_run. split; [reflexivity|]. cbn. apply map_Forall_empty. }
  assert (Hid : forall l m, self_id (run l m) = self_id m).
  { induction l as [|o l IH]; intros m; [reflexivity|]. cbn.
    change (self_id (run l (step m o)) = self_id m).
    rewrite IH. apply (step_cases m o ""). }
  destruct Hinv as [Hs Hall]. rewrite Hid in Hs. rewrite Hid.
  split; [reflexivity|]. split; [exact Hs|exact Hall].
Qed.

(** X21.  No call forgets anything: along any sequence of calls the
    manager keeps its identifier and its timeout, every bootstrap
    address, and every peer, under the same key and identifier and with
    a version that is not lower. *)
Theorem run_forgets_nothing (ops : list op) (mgr : PeerManager) :
  self_id (run ops mgr) = self_id mgr
  /\ peer_timeout (run ops mgr) = peer_timeout mgr
  /\ bootstrap_peers mgr ⊆ bootstrap_peers (run ops mgr)
  /\ forall k p, get_peer k mgr = Some p ->
       exists p', get_peer k (run ops mgr) = Some p'
         /\ node_id p' = node_id p /\ version p <= version p'.
Proof.
  revert mgr. induction ops as [|o ops IH]; intros mgr.
  - split; [reflexivity|]. split; [reflexivity|]. split; [reflexivity|].
    intros k p Hk. exists p. split; [exact Hk|]. split; [reflexivity|lia].
  - change (run (o :: ops) mgr) with (run ops (step mgr o)).
    destruct (IH (step mgr o)) as (Hs & Ht & Hb & Hp).
    destruct (step_cases mgr o "") as (Hs1 & Ht1 & Hb1 & _).
    split; [congruence|]. split; [congruence|].
    split; [etransitivity; eassumption|].
    intros k p Hk. unfold get_peer in *.
    destruct (step_cases mgr o k) as (_ & _ & _ & Hc). rewrite Hk in Hc.
    destruct (peers (step mgr o) !! k) as [p1|] eqn:Hk1; [|contradiction].
    destruct Hc as (Hn1 & Hv1 & _).
    destruct (Hp k p1 Hk1) as (p' & Hk' & Hn' & Hv').
    exists p'. split; [exact Hk'|]. split; [congruence|lia].
Qed.

(** X19.  [add_or_update_peer] ignores the manager's own identifier; a
    peer heard from for the first time is entered alive with the version
    given and reported as new (the callback is called if there is one);
    a peer already known is alive again with no failed ping, whatever it
    was, takes the address given, and keeps the larger of the two
    versions; no other peer changes. *)
Theorem add_or_update_peer_spec (now : Q) (nid : string) (addr : string * Z)
    (ver : Z) (mgr : PeerManager) :
  let r := add_or_update_peer now nid addr ver mgr in
  same_config mgr r.1.1
  /\ (forall k, k <> nid -> get_peer k r.1.1 = get_peer k mgr)
  /\ (nid = self_id mgr -> r = (mgr, false, []))
  /\ (nid <> self_id mgr ->
        r.1.2 = bool_decide (get_peer nid mgr = None)
        /\ r.2 = (if on_peer_discovered mgr && bool_decide (get_peer nid mgr = None)
                  then [PeerDiscovered nid addr] else [])
        /\ exists p', get_peer nid r.1.1 = Some p'
             /\ is_alive p' = true /\ failed_pings p' = 0
             /\ last_seen p' = now /\ address p' = addr
             /\ match get_peer nid mgr with
                | None => node_id p' = nid /\ version p' = ver /\ last_sync p' = 0%Q
                | Some p => node_id p' = node_id p
                            /\ version p' = Z.max (version p) ver
                            /\ last_sync p' = last_sync p
                end).
Proof.
  cbn zeta. unfold add_or_update_peer, get_peer.
  destruct (String.eqb_spec nid (self_id mgr)) as [Heq|Hne].
  { cbn. split; [apply same_config_refl|]. split; [reflexivity|].
    split; [reflexivity|]. intros Hc. contradiction. }
  destruct (peers mgr !! nid) as [q|] eqn:Hq; cbn.
  - split; [apply same_config_set_peers|].
    split; [intros k Hk; apply lookup_insert_ne; congruence|].
    split; [intros Hc; contradiction|]. intros _.
    rewrite andb_false_r. split; [reflexivity|]. split; [reflexivity|].
    rewrite lookup_insert_eq.
    destruct (Z.gtb_spec ver (version q)); eexists; (split; [reflexivity|]); cbn;
      repeat split; lia.
  - split; [apply same_config_set_peers|].
    split; [intros k Hk; apply lookup_insert_ne; congruence|].
    split; [intros Hc; contradiction|]. intros _.
    rewrite andb_true_r. split; [reflexivity|].
    split; [destruct (on_peer_discovered mgr); reflexivity|].
    rewrite lookup_insert_eq. eexists. split; [reflexivity|]. cbn.
    repeat split.
Qed.

(** X22.  [mark_peer_failed] on a known peer adds one to its failed
    pings and changes nothing else of it, except that the peer stops
    being alive at its third failure; the callback is called at that
    failure and at no other; an unknown identifier changes nothing. *)
Theorem mark_peer_failed_spec (nid : string) (mgr : PeerManager) :
  let r := mark_peer_failed nid mgr in
  same_config mgr r.1
  /\ (forall k, k <> nid -> get_peer k r.1 = get_peer k mgr)
  /\ match get_peer nid mgr with
     | None => get_peer nid r.1 = None /\ r.2 = []
     | Some p =>
         (0 <= failed_pings p /\ (is_alive p = true <-> failed_pings p < 3)) ->
         exists p', get_peer nid r.1 = Some p'
           /\ failed_pings p' = failed_pings p + 1
           /\ is_alive p' = (failed_pings p' <? 3)
           /\ node_id p' = node_id p /\ address p' = address p
           /\ last_seen p' = last_seen p /\ last_sync p' = last_sync p
           /\ version p' = version p
           /\ r.2 = (if on_peer_failed mgr && (failed_pings p' =? 3)
                     then [PeerFailed nid] else [])
     end.
Proof.
  cbn zeta. unfold get_peer.
  destruct (mark_peer_failed_peers nid mgr) as (Hp & Hc).
  pose proof (mark_peer_failed_events nid mgr) as He.
  split; [exact Hc|].
  split; [intros k Hk; rewrite Hp; apply lookup_alter_ne; congruence|].
  rewrite Hp, lookup_alter_eq, He.
  destruct (peers mgr !! nid) as [p|]; cbn; [|split; reflexivity].
  intros (H0 & Ha). eexists. split; [reflexivity|].
  unfold fail_once. cbn. rewrite Z.geb_leb.
  destruct (is_alive p) eqn:Hal.
  - assert (failed_pings p < 3) by (apply Ha; reflexivity).
    destruct (Z.leb_spec 3 (failed_pings p + 1)); cbn.
    + rewrite andb_true_r.
      replace (failed_pings p + 1 =? 3) with true by (symmetry; apply Z.eqb_eq; lia).
      replace (failed_pings p + 1 <? 3) with false by (symmetry; apply Z.ltb_ge; lia).
      rewrite andb_true_r. repeat split.
    + rewrite Hal.
      replace (failed_pings p + 1 =? 3) with false by (symmetry; apply Z.eqb_neq; lia).
      replace (failed_pings p + 1 <? 3) with true by (symmetry; apply Z.ltb_lt; lia).
      rewrite !andb_false_r. repeat split.
  - assert (~ failed_pings p < 3) by (intros Hlt; apply Ha in Hlt; discriminate).
    rewrite !andb_false_r. cbn. rewrite Hal.
    replace (failed_pings p + 1 =? 3) with false by (symmetry; apply Z.eqb_neq; lia).
    replace (failed_pings p + 1 <? 3) with false by (symmetry; apply Z.ltb_ge; lia).
    rewrite !andb_false_r. repeat split.
Qed.


Lemma NoDup_filter_fst {A B : Type} (f : A * B -> bool) (l : list (A * B)) :
  NoDup l.*1 -> NoDup (List.filter f l).*1.
Proof.
  induction l as [|x l IH]; intros Hnd; [exact Hnd|].
  cbn [fmap list_fmap] in Hnd. apply NoDup_cons in Hnd as [Hx Hnd].
  cbn [List.filter]. destruct (f x); [|apply IH; exact Hnd].
  cbn [fmap list_fmap]. apply NoDup_cons. split; [|apply IH; exact Hnd].
  intros Hin. apply Hx. apply list_elem_of_fmap in Hin as (y & Hy & Hin).
  apply list_elem_of_fmap. exists y. split; [exact Hy|].
  apply list_elem_of_In in Hin. apply filter_In in Hin as [Hin _].
  apply list_elem_of_In. exact Hin.
Qed.

Lemma health_events_elem now mgr k :
  PeerFailed k ∈ health_events now mgr (map_to_list (peers mgr))
  <-> exists p, peers mgr !! k = Some p
        /\ on_peer_failed mgr && stale now (peer_timeout mgr) p
           && (failed_pings p + 1 >=? 3) = true.
Proof.
  unfold health_events. rewrite list_elem_of_fmap. split.
  - intros ([k' p] & Heq & Hin). cbn in Heq. injection Heq as <-.
    apply list_elem_of_In in Hin. apply filter_In in Hin as [Hin Hc].
    apply list_elem_of_In, elem_of_map_to_list in Hin.
    exists p. split; [exact Hin|exact Hc].
  - intros (p & Hk & Hc). exists (k, p). split; [reflexivity|].
    apply list_elem_of_In, filter_In. split; [|exact Hc].
    apply list_elem_of_In, elem_of_map_to_list. exact Hk.
Qed.

(** X23.  One pass of the health check does to every peer that is alive
    and has been silent for longer than [peer_timeout] what
    [mark_peer_failed] does to it, and leaves every other peer as it
    is, so that the order of the pass does not matter; the callback is
    called once for each peer the pass marks dead, and for no other. *)
Theorem health_check_pass (now : Q) (mgr : PeerManager) :
  let r := health_check now mgr in
  same_config mgr r.1
  /\ (forall k,
        get_peer k r.1 =
          match get_peer k mgr with
          | Some p =>
              if is_alive p && Qgt_bool (now - last_seen p) (peer_timeout mgr)
              then get_peer k (mark_peer_failed k mgr).1
              else Some p
          | None => None
          end)
  /\ NoDup r.2
  /\ (forall k a, PeerDiscovered k a ∉ r.2)
  /\ (forall k,
        PeerFailed k ∈ r.2 <->
        exists p, get_peer k mgr = Some p
          /\ is_alive p && Qgt_bool (now - last_seen p) (peer_timeout mgr) = true
          /\ (mark_peer_failed k mgr).2 = [PeerFailed k]).
Proof.
  cbn zeta. destruct (health_check_spec now mgr) as (Hp & Hc & He).
  unfold get_peer. split; [exact Hc|]. split; [|split; [|split]].
  - intros k. rewrite Hp, lookup_fmap.
    destruct (mark_peer_failed_peers k mgr) as [Hf _]. rewrite Hf, lookup_alter_eq.
    destruct (peers mgr !! k) as [p|]; [|reflexivity]. cbn.
    unfold health_peer, stale. destruct (_ && _); reflexivity.
  - rewrite He. unfold health_events.
    assert (Hco : forall L : list (string * PeerInfo),
              (fun kp => PeerFailed kp.1) <$> L = PeerFailed <$> L.*1).
    { intros L. induction L as [|x L IHL]; [reflexivity|]. cbn. f_equal. exact IHL. }
    rewrite Hco.
    apply NoDup_fmap_2; [intros x y Hxy; congruence|].
    apply NoDup_filter_fst, NoDup_fst_map_to_list.
  - intros k a Hin. rewrite He in Hin. unfold health_events in Hin.
    apply list_elem_of_fmap in Hin as (? & Hd & _). discriminate.
  - intros k. rewrite He, health_events_elem, mark_peer_failed_events.
    unfold stale. split.
    + intros (p & Hk & Hcnd). exists p. split; [exact Hk|].
      apply andb_prop in Hcnd as [Hcnd Hge]. apply andb_prop in Hcnd as [Hon Hst].
      split; [exact Hst|]. rewrite Hk, Hon, Hge.
      apply andb_prop in Hst as [-> _]. reflexivity.
    + intros (p & Hk & Hst & Hev). exists p. split; [exact Hk|].
      rewrite Hk in Hev. rewrite Hst.
      destruct (on_peer_failed mgr), (is_alive p), (failed_pings p + 1 >=? 3);
        cbn in Hev |- *; congruence.
Qed.

Lemma health_checks_dead nows : forall mgr nid p,
  peers mgr !! nid = Some p -> is_alive p = false ->
  peers (health_checks nows mgr) !! nid = Some p.
Proof.
  induction nows as [|now nows IH]; intros mgr nid p Hp Hd; [exact Hp|].
  cbn. apply IH; [|exact Hd].
  destruct (health_check_spec now mgr) as (Hpe & _). rewrite Hpe, lookup_fmap, Hp.
  cbn. unfold health_peer, stale. rewrite Hd. reflexivity.
Qed.

(** X24.  A peer that is alive and stays silent is declared dead by the
    health check that brings its failed pings to three, and by no
    earlier one; later checks leave it dead with three failed pings. *)
Theorem silent_peer_dies (nows : list Q) (mgr : PeerManager) (nid : string)
    (p : PeerInfo) :
  get_peer nid mgr = Some p ->
  is_alive p = true ->
  0 <= failed_pings p < 3 ->
  Forall (fun now => (peer_timeout mgr < now - last_seen p)%Q) nows ->
  exists p', get_peer nid (health_checks nows mgr) = Some p'
    /\ failed_pings p' = Z.min (failed_pings p + Z.of_nat (length nows)) 3
    /\ is_alive p' = (failed_pings p + Z.of_nat (length nows) <? 3)
    /\ last_seen p' = last_seen p /\ version p' = version p.
Proof.
  unfold get_peer. revert mgr p.
  induction nows as [|now nows IH]; intros mgr p Hp Ha Hf Hall.
  - exists p. split; [exact Hp|]. cbn [length Z.of_nat].
    rewrite Z.add_0_r. split; [lia|]. split; [|split; reflexivity].
    rewrite Ha. symmetry. apply Z.ltb_lt. lia.
  - apply Forall_cons in Hall as [Hnow Hall].
    destruct (health_check_spec now mgr) as (Hpe & (_ & _ & Ht & _) & _).
    assert (Hst : stale now (peer_timeout mgr) p = true).
    { unfold stale. rewrite Ha. cbn. apply Qgt_bool_iff. exact Hnow. }
    assert (Hp1 : peers (health_check now mgr).1 !! nid = Some (fail_once p)).
    { rewrite Hpe, lookup_fmap, Hp. cbn. unfold health_peer. rewrite Hst.
      reflexivity. }
    change (health_checks (now :: nows) mgr)
      with (health_checks nows (health_check now mgr).1).
    rewrite length_cons, Nat2Z.inj_succ.
    unfold fail_once in Hp1. cbn in Hp1. rewrite Ha, andb_true_r, Z.geb_leb in Hp1.
    destruct (Z.leb_spec 3 (failed_pings p + 1)) as [Hge|Hlt].
    + eexists. split; [apply (health_checks_dead nows _ _ _ Hp1); reflexivity|].
      cbn. split; [lia|]. split; [|split; reflexivity].
      symmetry. apply Z.ltb_ge. lia.
    + destruct (IH (health_check now mgr).1 _ Hp1) as (p' & Hp' & Hf' & Ha' & Hl' & Hv').
      * exact Ha.
      * cbn. lia.
      * rewrite Ht. exact Hall.
      * exists p'. split; [exact Hp'|]. cbn in Hf', Ha', Hl', Hv'.
        split; [rewrite Hf'; f_equal; lia|].
        split; [rewrite Ha'; f_equal; lia|]. split; assumption.
Qed.

(** X25.  A peer just marked as synced is not among the peers needing
    synchronisation as long as the clock has not advanced by more than
    the interval; marking it changes the answer for no other peer. *)
Theorem synced_peer_needs_no_sync (now : Q) (clock : string -> Q) (interval : Q)
    (nid : string) (mgr : PeerManager) :
  map_Forall (fun k p => node_id p = k) (peers mgr) ->
  (clock nid - now <= interval)%Q ->
  forall p,
    p ∈ get_peers_needing_sync clock interval (mark_peer_synced now nid mgr)
    <-> node_id p <> nid /\ p ∈ get_peers_needing_sync clock interval mgr.
Proof.
  intros Hid Hle p. unfold get_peers_needing_sync.
  rewrite !list_elem_of_In, !filter_In, <- !list_elem_of_In, !values_elem.
  unfold mark_peer_synced.
  destruct (peers mgr !! nid) as [q|] eqn:Hq.
  - cbn [peers set_peers]. split.
    + intros [(k & Hk) Hc]. destruct (decide (k = nid)) as [->|Hne].
      * rewrite lookup_insert_eq in Hk. injection Hk as <-.
        apply andb_prop in Hc as [_ Hc]. unfold needs_sync in Hc. cbn in Hc.
        rewrite (Hid nid q Hq) in Hc.
        apply Qgt_bool_iff in Hc. exfalso. apply (Qlt_not_le _ _ Hc). exact Hle.
      * rewrite lookup_insert_ne in Hk by congruence.
        split; [|split; [exists k; exact Hk|exact Hc]].
        rewrite (Hid k p Hk). exact Hne.
    + intros (Hn & (k & Hk) & Hc). split; [|exact Hc].
      exists k. rewrite lookup_insert_ne; [exact Hk|].
      intros <-. apply Hn. apply (Hid _ _ Hk).
  - split.
    + intros [(k & Hk) Hc]. split; [|split; [exists k; exact Hk|exact Hc]].
      rewrite (Hid k p Hk). intros ->. congruence.
    + intros (_ & H1). exact H1.
Qed.

(** X26.  The counts of [get_stats] agree with the lists of the
    manager: the total is the number of peers, [alive_peers] the length
    of [get_alive_peers], [dead_peers] the number of peers that are not
    alive, never negative, and the two add up to the total. *)
Theorem get_stats_counts (mgr : PeerManager) :
  let s := get_stats mgr in
  s.1.1.1 = Z.of_nat (length (get_all_peers mgr))
  /\ s.1.1.2 = Z.of_nat (length (get_alive_peers mgr))
  /\ s.1.2 = Z.of_nat (length (List.filter (fun p => negb (is_alive p))
                                           (get_all_peers mgr)))
  /\ s.2 = Z.of_nat (length (get_bootstrap_addresses mgr))
  /\ 0 <= s.1.2 <= s.1.1.1
  /\ s.1.1.1 = s.1.1.2 + s.1.2.
Proof.
  cbn zeta. unfold get_stats, get_all_peers, get_alive_peers, get_bootstrap_addresses.
  cbn [fst snd].
  pose proof (filter_length is_alive (map_to_list (peers mgr)).*2) as Hl.
  rewrite length_fmap, length_map_to_list in Hl.
  rewrite length_fmap, length_map_to_list.
  split; [reflexivity|]. split; [reflexivity|].
  split; [lia|]. split; [reflexivity|]. lia.
Qed.

End Peers_props.


(** ** Part XI.  More scenarios, evaluated *)

Section More_scenarios.

Local Open Scope string_scope.

Lemma get_set_witness :
  get "k" (set "k" "v3" 4 B3) = Some "v3"
  /\ get "j" (set "k" "v3" 4 B3) = get "j" B3.
Proof.
  split.
  - apply (get_set B3 "k" "v3" 4).
  - apply (proj2 (proj2 (get_set B3 "k" "v3" 4))). discriminate.
Defined.

Lemma get_delete_witness :
  get "k" (delete "k" 4 A3) = None
  /\ get "j" (delete "k" 4 A3) = get "j" A3.
Proof.
  split.
  - apply (get_delete A3 "k" 4).
  - apply (proj2 (proj2 (proj2 (get_delete A3 "k" 4)))). discriminate.
Defined.

Lemma exchange_converges_witness :
  agree_on_ties (data left_x) (data right_x)
  /\ get "x" (merge left_x (get_state_snapshot right_x)).1
     = get "x" (merge right_x (get_state_snapshot left_x)).1.
Proof.
  assert (Ht : agree_on_ties (data left_x) (data right_x)).
  { intros k v1 v2 ts n.
    change (data left_x) with (<["x" := ("a", 1, "A")]> (∅ : gmap string (string * Z * string))).
    change (data right_x) with (<["x" := ("b", 1, "B")]> (∅ : gmap string (string * Z * string))).
    destruct (decide (k = "x")) as [->|Hne].
    - rewrite !lookup_insert_eq. intros [= <- <- <-] [=].
    - rewrite lookup_insert_ne by done. rewrite lookup_empty. discriminate. }
  split; [exact Ht|].
  apply (proj1 (proj2 (exchange_converges left_x right_x Ht)) "x").
Defined.



Lemma deserialize_accepts_witness :
  checksum_matches test_datagram = true
  /\ json_loads (slice_from HEADER_SIZE test_datagram) = Some [("test", JStr "data")].
Proof.
  pose proof (deserialize_accepts 5 test_datagram
                (mkPacket PacketType.DATA 42 [("test", JStr "data")] 5%Q)) as Hacc.
  destruct Hacc as (_ & _ & Hck & Hload & _).
  - vm_compute. reflexivity.
  - split; [exact Hck|exact Hload].
Defined.

Lemma deserialize_rejects_witness :
  deserialize_at (P:=list (string * jvalue)) 0 [] = inr TooShort
  /\ deserialize_at (P:=list (string * jvalue)) 0 version_2_datagram
     = inr (UnknownVersion 2).
Proof.
  split.
  - apply (proj1 (deserialize_rejects (P:=list (string * jvalue)) 0) []).
    vm_compute. reflexivity.
  - apply (proj1 (proj2 (deserialize_rejects (P:=list (string * jvalue)) 0))
             version_2_datagram (byte_of_Z 2)).
    + vm_compute. discriminate.
    + reflexivity.
    + vm_compute. discriminate.
Defined.



Lemma send_after_overflow_witness :
  send_reliable 0 peer PacketType.DATA [("test", JStr "data")] worn_socket
  = (mkSocket 4294967297 ∅ ∅ ∅, [], None).
Proof.
  apply (proj1 (send_after_overflow 0 peer PacketType.DATA [("test", JStr "data")]
                  worn_socket ltac:(cbn; lia))).
Defined.

Lemma ack_round_trip_witness :
  exists ack,
    _send_ack 0 peer 42 = Some (SendTo ack peer)
    /\ pending_acks (receive_one 1 (set_pending_acks (fun _ => in_flight) listening)
                                 ack peer).1
       = base.delete 42 in_flight.
Proof.
  destruct (ack_round_trip 0 peer 42) as (ack & Hack & Hrecv).
  - repeat split; by vm_compute.
  - lia.
  - exists ack. split; [exact Hack|].
    apply (Hrecv 1%Q (set_pending_acks (fun _ => in_flight) listening) peer).
Defined.

Lemma sock_inv_kept_witness :
  sock_inv (send_reliable 0 peer PacketType.DATA [("test", JStr "data")] new_socket).1.1
  /\ sock_inv (receive_one 5 listening test_datagram peer).1.
Proof.
  split.
  - apply (proj1 (sock_inv_kept new_socket sock_inv_new)).
  - apply (proj1 (proj2 (proj2 (sock_inv_kept listening sock_inv_new)))).
Defined.

Lemma retry_pass_idle_witness :
  table (retry_pass 0.25 clock_10 one_in_flight) = one_in_flight
  /\ sent (retry_pass 0.25 clock_10 one_in_flight) = [].
Proof.
  apply (retry_pass_idle 0.25 clock_10 one_in_flight).
  - unfold serializable, one_in_flight. apply map_Forall_singleton.
    eexists. vm_compute. reflexivity.
  - intros seq packet send_time r addr Hin. unfold one_in_flight in Hin.
    apply lookup_singleton_Some in Hin as [_ [= <- <- <- <-]].
    vm_compute. discriminate.
Defined.

Lemma unhandled_packet_lost_witness :
  dispatch_count peer 42
    (receive_loop
       (register_handler PacketType.DATA (receive_one 5 new_socket test_datagram peer).1)
       [(6%Q, test_datagram, peer); (7%Q, test_datagram, peer)]).2 = 0%nat.
Proof.
  refine (proj2 (proj2 (proj2
            (unhandled_packet_lost 5 new_socket test_datagram peer
               (mkPacket PacketType.DATA 42 [("test", JStr "data")] 5%Q) _ _ _ _)))
            [(6%Q, test_datagram, peer); (7%Q, test_datagram, peer)]).
  - vm_compute. reflexivity.
  - vm_compute. discriminate.
  - apply not_elem_of_empty.
  - unfold seen, new_socket. simpl. rewrite lookup_empty. apply not_elem_of_empty.
Defined.

Lemma timeout_schedule_witness :
  (timeout_after 3 == 0.5 * inject_Z (2 ^ 3))%Q /\ (timeout_after 7 == 8)%Q.
Proof.
  split.
  - apply (timeout_schedule 3); lia.
  - apply (timeout_schedule 7); lia.
Defined.


Lemma watching_B : Peers.get_peer "B" watching = Some peer_B.
Proof. vm_compute. reflexivity. Qed.

Lemma add_or_update_peer_spec_witness :
  (Peers.add_or_update_peer 7 "A" ("10.0.0.1", 5001) 9 watching) = (watching, false, [])
  /\ (Peers.add_or_update_peer 130 "B" ("10.0.0.9", 5009) 2 watching).1.2 = false
  /\ Peers.get_peer "B"
       (Peers.add_or_update_peer 130 "C" ("10.0.0.3", 5003) 0 watching).1.1
     = Some peer_B.
Proof.
  split; [|split].
  - apply (proj1 (proj2 (proj2
             (add_or_update_peer_spec 7 "A" ("10.0.0.1", 5001) 9 watching)))).
    reflexivity.
  - apply (proj2 (proj2 (proj2
             (add_or_update_peer_spec 130 "B" ("10.0.0.9", 5009) 2 watching)))).
    discriminate.
  - rewrite <- watching_B.
    apply (proj1 (proj2
             (add_or_update_peer_spec 130 "C" ("10.0.0.3", 5003) 0 watching))).
    discriminate.
Defined.


Lemma run_forgets_nothing_witness :
  exists p',
    Peers.get_peer "B"
      (Peers.run [Peers.MarkFailed "B"; Peers.UpdateVersion "B" 7; Peers.HealthCheck 200]
                 watching) = Some p'
    /\ Peers.node_id p' = Peers.node_id peer_B
    /\ Peers.version peer_B <= Peers.version p'.
Proof.
  apply (proj2 (proj2 (proj2
           (run_forgets_nothing
              [Peers.MarkFailed "B"; Peers.UpdateVersion "B" 7; Peers.HealthCheck 200]
              watching))) "B" peer_B).
  exact watching_B.
Defined.

Lemma mark_peer_failed_spec_witness :
  exists p',
    Peers.get_peer "B" (Peers.mark_peer_failed "B" watching).1 = Some p'
    /\ Peers.failed_pings p' = 1
    /\ Peers.is_alive p' = true.
Proof.
  pose proof (proj2 (proj2 (mark_peer_failed_spec "B" watching))) as Hm.
  destruct Hm as (p' & Hp & Hf & Ha & _).
  - cbn. split; [lia|]. split; [lia|reflexivity].
  - exists p'. split; [exact Hp|]. split; [exact Hf|].
    rewrite Ha, Hf. reflexivity.
Defined.

Lemma silent_peer_dies_witness :
  exists p',
    Peers.get_peer "B" (Peers.health_checks [116%Q; 121%Q; 126%Q] watching) = Some p'
    /\ Peers.failed_pings p' = 3
    /\ Peers.is_alive p' = false.
Proof.
  destruct (silent_peer_dies [116%Q; 121%Q; 126%Q] watching "B" peer_B)
    as (p' & Hp & Hf & Ha & _).
  - exact watching_B.
  - reflexivity.
  - cbn. lia.
  - repeat (apply Forall_cons; split; [vm_compute; reflexivity|]). apply Forall_nil_2.
  - exists p'. split; [exact Hp|]. split; [exact Hf|exact Ha].
Defined.

Lemma watching_ids :
  map_Forall (fun k p => Peers.node_id p = k) (Peers.peers watching).
Proof.
  assert (Hinv : Peers.mgr_inv watching).
  { apply mgr_inv_run. split; [reflexivity|]. apply map_Forall_empty. }
  intros k q Hk. apply (proj2 Hinv k q Hk).
Qed.

Lemma synced_peer_needs_no_sync_witness :
  peer_B ∈ Peers.get_peers_needing_sync (fun _ => 130%Q) 30 watching
  /\ Forall (fun p => Peers.node_id p <> "B")
       (Peers.get_peers_needing_sync (fun _ => 130%Q) 30
          (Peers.mark_peer_synced 110 "B" watching)).
Proof.
  split.
  - vm_compute. apply list_elem_of_here.
  - apply Forall_forall. intros p Hin.
    apply (proj1 (synced_peer_needs_no_sync 110 (fun _ => 130%Q) 30 "B" watching watching_ids
                    ltac:(vm_compute; discriminate) p) Hin).
Defined.

End More_scenarios.

